(** * wlsqva: weighted least-squares slowness of a plane wave crossing an array

    A shallow embedding of [src/array_processing/algorithms/wlsqva.py] and the
    properties of its specification.

    Numbers.  The routine works on IEEE doubles; the embedding is its
    exact-arithmetic reading: finite values are real numbers ([R]), and the
    places where the float code leaves the finite numbers (a division by
    zero, the uninitialised cells of [np.empty]) carry an extended value
    ([xreal]: a real, an infinity, or NaN).  Rounding is not modelled.

    Arrays.  A 2-D array is its shape and its entries ([ndarray2]); a 1-D array
    or Python list is a [list].  Intermediate matrices are entry functions
    whose shape is known from the code; the returned arrays are lists. *)

From Stdlib Require Import Reals Lra Lia List Arith Bool Sorted.
Import ListNotations.

Local Open Scope R_scope.

(** ** Extended values *)

Inductive xreal : Type :=
| Fin (r : R)
| PInf
| NInf
| NaN.

Definition is_nan (x : xreal) : bool :=
  match x with NaN => true | _ => false end.

(** IEEE [a <= b]: false as soon as one side is NaN. *)
Definition xle (a b : xreal) : bool :=
  match a, b with
  | NaN, _ | _, NaN => false
  | NInf, _ => true
  | _, PInf => true
  | Fin x, Fin y => if Rle_dec x y then true else false
  | _, _ => false
  end.

(** Float division of two finite values: [0/0] is NaN, [x/0] an infinity. *)
Definition xdiv (x y : R) : xreal :=
  if Req_dec_T y 0 then
    if Req_dec_T x 0 then NaN
    else if Rlt_dec 0 x then PInf else NInf
  else Fin (x / y).

(** [np.sqrt(np.abs(x))] on an extended value. *)
Definition xsqrt_abs (x : xreal) : xreal :=
  match x with
  | Fin r => Fin (sqrt (Rabs r))
  | PInf | NInf => PInf
  | NaN => NaN
  end.

(** Truth value of a float ([if x:]), and [x == 0]. *)
Definition nonzero (x : R) : bool := if Req_dec_T x 0 then false else true.
Definition is_zero (x : R) : bool := if Req_dec_T x 0 then true else false.

(** ** Arrays *)

Record ndarray2 : Type := mk_ndarray2 {
  shape0 : nat;
  shape1 : nat;
  at2 : nat -> nat -> R
}.

(** [a[:, j]] *)
Definition column (a : ndarray2) (j : nat) : list R :=
  map (fun r => at2 a r j) (seq 0 (shape0 a)).

(** The list [[f 0, ..., f (n-1)]]. *)
Definition tabulate {A : Type} (n : nat) (f : nat -> A) : list A :=
  map f (seq 0 n).

(** Sum of [f 0 .. f (n-1)]. *)
Fixpoint rsum (n : nat) (f : nat -> R) : R :=
  match n with
  | O => 0
  | S k => rsum k f + f k
  end.

(** Python's [sum] over a sequence of floats. *)
Definition py_sum (l : list R) : R := fold_left Rplus l 0.

(** Elementwise product of two 1-D arrays. *)
Definition vmul (a b : list R) : list R :=
  map (fun p => fst p * snd p) (combine a b).

(** ** numpy primitives *)

(** [np.correlate(a, v, mode='full')]: entry [idx] is the sum over [n] of
    [a[n + idx - (len(v)-1)] * v[n]], the terms whose index falls in [a]. *)
Definition correlate_full (a v : list R) : list R :=
  tabulate (length a + length v - 1)
    (fun idx =>
       rsum (length v)
         (fun n =>
            if ((length v - 1 <=? n + idx)
                && (n + idx - (length v - 1) <? length a))%nat
            then nth (n + idx - (length v - 1)) a 0 * nth n v 0
            else 0)).

(** [np.argmax] on a float column: the first maximum, a NaN counting as the
    maximum (numpy updates when [not (x <= best)] and stops at a NaN). *)
Fixpoint argmax_loop (best : xreal) (ind i : nat) (rest : list xreal) : nat :=
  match rest with
  | [] => ind
  | x :: rest' =>
      if xle x best then argmax_loop best ind (S i) rest'
      else if is_nan x then i
      else argmax_loop x i (S i) rest'
  end.

Definition argmax (l : list xreal) : nat :=
  match l with
  | [] => O
  | x :: rest => if is_nan x then O else argmax_loop x O 1 rest
  end.

(** [np.max]: the maximum, NaN if any entry is NaN. *)
Definition xmaximum (a b : xreal) : xreal :=
  if is_nan a then a
  else if is_nan b then b
  else if xle a b then b else a.

Definition xmax_list (l : list xreal) : xreal :=
  match l with
  | [] => NaN
  | x :: rest => fold_left xmaximum rest x
  end.

(** Matrices as entry functions. *)
Definition mat : Type := nat -> nat -> R.
Definition vec : Type := nat -> R.

Definition diag (d : vec) : mat :=
  fun i j => if (i =? j)%nat then d i else 0.

Definition eye : mat := fun i j => if (i =? j)%nat then 1 else 0.

Definition transpose (A : mat) : mat := fun i j => A j i.

(** [A @ B], [k] the shared dimension. *)
Definition matmul (k : nat) (A B : mat) : mat :=
  fun i j => rsum k (fun l => A i l * B l j).

(** [A @ v] and [v @ A]. *)
Definition matvec (k : nat) (A : mat) (v : vec) : vec :=
  fun i => rsum k (fun l => A i l * v l).

Definition vecmat (k : nat) (v : vec) (A : mat) : vec :=
  fun j => rsum k (fun l => v l * A l j).

Definition dot (k : nat) (u v : vec) : R := rsum k (fun l => u l * v l).

Definition msub (A B : mat) : mat := fun i j => A i j - B i j.

(** [np.linalg.inv] at the two sizes validation lets through: the exact
    inverse, [None] (LinAlgError) when the determinant is zero.  This is the
    exact-arithmetic reading: on doubles LAPACK raises only when a pivot of
    the LU factorisation is exactly zero, so a singular matrix whose computed
    pivot is a rounding residue is inverted to meaningless numbers.  The
    properties below use the inverse of calls that return and say nothing of
    when the float routine raises. *)
Definition det2 (A : mat) : R :=
  A 0%nat 0%nat * A 1%nat 1%nat - A 0%nat 1%nat * A 1%nat 0%nat.

Definition adj2 (A : mat) : mat :=
  fun i j =>
    match i, j with
    | O, O => A 1%nat 1%nat
    | O, S O => - A 0%nat 1%nat
    | S O, O => - A 1%nat 0%nat
    | S O, S O => A 0%nat 0%nat
    | _, _ => 0
    end.

(** Cofactor of a 3x3 matrix by the cyclic rule. *)
Definition cof3 (A : mat) (i j : nat) : R :=
  A ((i + 1) mod 3)%nat ((j + 1) mod 3)%nat
  * A ((i + 2) mod 3)%nat ((j + 2) mod 3)%nat
  - A ((i + 1) mod 3)%nat ((j + 2) mod 3)%nat
    * A ((i + 2) mod 3)%nat ((j + 1) mod 3)%nat.

Definition det3 (A : mat) : R :=
  A 0%nat 0%nat * cof3 A 0 0 + A 0%nat 1%nat * cof3 A 0 1
  + A 0%nat 2%nat * cof3 A 0 2.

Definition adj3 (A : mat) : mat :=
  fun i j => if ((i <? 3) && (j <? 3))%nat then cof3 A j i else 0.

Definition det (d : nat) (A : mat) : R :=
  match d with
  | 2%nat => det2 A
  | 3%nat => det3 A
  | _ => 0
  end.

Definition adj (d : nat) (A : mat) : mat :=
  match d with
  | 2%nat => adj2 A
  | 3%nat => adj3 A
  | _ => fun _ _ => 0
  end.

Definition inv (d : nat) (A : mat) : option mat :=
  if Req_dec_T (det d A) 0 then None
  else Some (fun i j => adj d A i j / det d A).

(** [np.linalg.norm(v, 2)] of the first [k] entries. *)
Definition norm2 (k : nat) (v : vec) : R := sqrt (rsum k (fun l => v l * v l)).

(** [np.arctan2(y, x)]. *)
Definition arctan2 (y x : R) : R :=
  if Rlt_dec 0 x then atan (y / x)
  else if Rlt_dec x 0 then
         if Rle_dec 0 y then atan (y / x) + PI else atan (y / x) - PI
       else if Rlt_dec 0 y then PI / 2
            else if Rlt_dec y 0 then - PI / 2 else 0.

(** Python's float [x % y] for [y > 0]: [x - y * floor(x / y)]. *)
Definition py_mod (x y : R) : R := x - y * IZR (Int_part (x / y)).

(** ** The routine *)

(** The exceptions the call can end in, by the place that raises them. *)
Inductive error : Type :=
| DataShapeMismatch     (* data.shape[1] != rij.shape[1] *)
| InsufficientSensors   (* rij.shape[1] < rij.shape[0]+1 *)
| InvalidDimension      (* rij.shape[0] != 2|3 *)
| WgtShapeMismatch      (* len(wgt) != nTraces *)
| InsufficientWeights   (* sum(wgt != 0) < dim+1 *)
| NegativeDimensions    (* np.empty((m*2-1, N)) with m = 0 *)
| SingularMatrix.       (* np.linalg.inv *)

Inductive pyexc : Type := IndexError | ValueError | LinAlgError.

Definition exception_class (e : error) : pyexc :=
  match e with
  | DataShapeMismatch | WgtShapeMismatch => IndexError
  | InsufficientSensors | InvalidDimension | InsufficientWeights
  | NegativeDimensions => ValueError
  | SingularMatrix => LinAlgError
  end.

(** [az] is a float for a 2-D array, azimuth and elevation for a 3-D one. *)
Inductive azimuth : Type :=
| AzScalar (a : R)
| AzElev (a phi : R).

Record outputs : Type := mk_outputs {
  vel : xreal;
  az : azimuth;
  tau : list R;
  cmax : list xreal;
  sig_tau : xreal;
  s : list R;
  xij : list (list R)
}.

(** A call raises, returns, or (for [hz = 0], where every delay is an
    infinity or NaN) leaves the finite numbers altogether. *)
Inductive outcome : Type :=
| Raise (e : error)
| NonFinite
| Return (o : outputs).

(** The input error checking cell. *)
Definition check_shapes (data rij : ndarray2) : option error :=
  if negb (shape1 data =? shape1 rij)%nat then Some DataShapeMismatch
  else if (shape1 rij <? shape0 rij + 1)%nat then Some InsufficientSensors
  else if ((shape0 rij <? 2) || (3 <? shape0 rij))%nat
       then Some InvalidDimension
       else None.

(** [sum(wgt != 0)] *)
Definition count_nonzero (w : list R) : nat :=
  length (filter nonzero w).

(** The default weights, [[1 for i in range(nTraces)]]. *)
Definition ones (n : nat) : list R := map (fun _ => 1) (seq 0 n).

(** Default or checked weights, with the number [N_w] of traces kept. *)
Definition check_wgt (nTraces dim : nat) (wgt : option (list R))
  : error + (list R * nat) :=
  match wgt with
  | None => inr (ones nTraces, nTraces)
  | Some w =>
      if negb (length w =? nTraces)%nat then inl WgtShapeMismatch
      else
        let N_w := count_nonzero w in
        if (N_w <? dim + 1)%nat then inl InsufficientWeights
        else inr (w, N_w)
  end.

(** [[(i, j, wgt[i]*wgt[j]) for i in range(n-1) for j in range(i+1, n)]] *)
Definition idx (n : nat) (wgt : list R) : list (nat * nat * R) :=
  flat_map
    (fun i =>
       map (fun j => (i, j, nth i wgt 0 * nth j wgt 0))
           (seq (i + 1) (n - (i + 1))))
    (seq 0 (n - 1)).

Definition pair_i (ix : list (nat * nat * R)) (k : nat) : nat :=
  fst (fst (nth k ix (O, O, 0))).
Definition pair_j (ix : list (nat * nat * R)) (k : nat) : nat :=
  snd (fst (nth k ix (O, O, 0))).
Definition pair_w (ix : list (nat * nat * R)) (k : nat) : R :=
  snd (nth k ix (O, O, 0)).

(** The co-array [rij[:, [i..]] - rij[:, [j..]]] and the weight array
    [np.diag([i[2] for i in idx])]. *)
Definition xij_mat (rij : ndarray2) (ix : list (nat * nat * R)) : mat :=
  fun r k => at2 rij r (pair_i ix k) - at2 rij r (pair_j ix k).

Definition W_mat (ix : list (nat * nat * R)) : mat := diag (pair_w ix).

(** The correlation buffer: extended values, a column written at a time. *)
Definition xmat : Type := nat -> nat -> xreal.

Definition set_column (c : xmat) (k : nat) (col : list xreal) : xmat :=
  fun r j => if (j =? k)%nat then nth r col NaN else c r j.

Definition xcolumn (c : xmat) (rows k : nat) : list xreal :=
  map (fun r => c r k) (seq 0 rows).

(** [np.correlate(a, v, 'full') / np.sqrt(sum(a*a) * sum(v*v))] *)
Definition xcorr_coeff (a v : list R) : list xreal :=
  map (fun c => xdiv c (sqrt (py_sum (vmul a a) * py_sum (vmul v v))))
      (correlate_full a v).

(** The loop over the pairs: only the weighted pairs are written, the other
    columns keep what [np.empty] found in memory ([garbage]). *)
Definition fill_cij (data : ndarray2) (ix : list (nat * nat * R)) (W : mat)
  (N : nat) (garbage : xmat) : xmat :=
  fold_left
    (fun cij k =>
       if nonzero (W k k)
       then set_column cij k
              (xcorr_coeff (column data (pair_i ix k))
                           (column data (pair_j ix k)))
       else cij)
    (seq 0 N) garbage.

(** [cij.max(axis=0)] *)
Definition col_max (cij : xmat) (rows N : nat) : list xreal :=
  tabulate N (fun k => xmax_list (xcolumn cij rows k)).

(** [cmax[[i for i in range(N) if W[i][i] == 0]] = 0] *)
Definition zero_unweighted (W : mat) (c : list xreal) : list xreal :=
  tabulate (length c) (fun k => if is_zero (W k k) then Fin 0 else nth k c NaN).

Definition cmax_vec (cij : xmat) (rows : nat) (W : mat) (N : nat)
  : list xreal :=
  zero_unweighted W (col_max cij rows N).

(** [delay = np.argmax(cij, axis=0) + 1] and [tau = (m - delay)/hz]. *)
Definition delay (cij : xmat) (rows k : nat) : nat :=
  (argmax (xcolumn cij rows k) + 1)%nat.

Definition tau_vec (m : nat) (hz : R) (cij : xmat) (rows : nat) : vec :=
  fun k => (INR m - INR (delay cij rows k)) / hz.

(** Azimuth (and elevation) of the slowness vector. *)
Definition az_of (dim : nat) (s_p : vec) : azimuth :=
  let a := py_mod (arctan2 (s_p 0%nat) (s_p 1%nat) * 180 / PI - 360) 360 in
  if (dim =? 3)%nat
  then AzElev a (arctan2 (s_p 2%nat) (norm2 2 s_p) * 180 / PI)
  else AzScalar a.

(** The auxiliary arrays of the weighted least squares: [X_p = W@xij.T] and
    [tau_p = W@tau]. *)
Definition X_p (rij : ndarray2) (ix : list (nat * nat * R)) : mat :=
  matmul (length ix) (W_mat ix) (transpose (xij_mat rij ix)).

Definition tau_p (ix : list (nat * nat * R)) (tau : vec) : vec :=
  matvec (length ix) (W_mat ix) tau.

(** [X_p.T@X_p], the matrix that is inverted. *)
Definition normal_matrix (rij : ndarray2) (ix : list (nat * nat * R)) : mat :=
  matmul (length ix) (transpose (X_p rij ix)) (X_p rij ix).

(** [s_p = inv(X_p.T@X_p) @ X_p.T @ tau_p] *)
Definition s_p (dim N : nat) (Ainv Xp : mat) (taup : vec) : vec :=
  matvec N (matmul dim Ainv (transpose Xp)) taup.

(** [N_p = N_w*(N_w-1)/2] *)
Definition N_p (N_w : nat) : R := INR N_w * (INR N_w - 1) / 2.

(** [tau_p @ (np.eye(N) - X_p @ inv(X_p.T@X_p) @ X_p.T) @ tau_p] *)
Definition rss (dim N : nat) (Ainv Xp : mat) (taup : vec) : R :=
  dot N
    (vecmat N taup
       (msub eye (matmul dim (matmul dim Xp Ainv) (transpose Xp))))
    taup.

Definition sig_tau_p (dim N N_w : nat) (Ainv Xp : mat) (taup : vec) : xreal :=
  xsqrt_abs (xdiv (rss dim N Ainv Xp taup) (N_p N_w - INR dim)).

(** The least-squares part: from the delays and correlation maxima to the
    returned tuple. *)
Definition solve (rij : ndarray2) (hz : R) (ix : list (nat * nat * R))
  (N_w m : nat) (cij : xmat) (cmax : list xreal) : outcome :=
  let dim := shape0 rij in
  let N := length ix in
  let tau := tau_vec m hz cij (m * 2 - 1) in
  match inv dim (normal_matrix rij ix) with
  | None => Raise SingularMatrix
  | Some Ainv =>
      if is_zero hz then NonFinite
      else
        let s := s_p dim N Ainv (X_p rij ix) (tau_p ix tau) in
        Return {|
          vel := xdiv 1 (norm2 dim s);
          az := az_of dim s;
          tau := tabulate N (tau_p ix tau);
          cmax := cmax;
          sig_tau := sig_tau_p dim N N_w Ainv (X_p rij ix) (tau_p ix tau);
          s := tabulate dim s;
          xij := tabulate dim (fun r => tabulate N (xij_mat rij ix r))
        |}
  end.

(** The body of the routine after the weights are settled. *)
Definition estimate (data rij : ndarray2) (hz : R) (wgt : list R) (N_w : nat)
  (garbage : xmat) : outcome :=
  let m := shape0 data in
  let ix := idx (shape1 rij) wgt in
  let W := W_mat ix in
  let N := length ix in
  if (m =? 0)%nat then Raise NegativeDimensions
  else
    let cij := fill_cij data ix W N garbage in
    let cmax := cmax_vec cij (m * 2 - 1) W N in
    solve rij hz ix N_w m cij cmax.

(** [wlsqva(data, rij, hz, wgt=None)] *)
Definition wlsqva (data rij : ndarray2) (hz : R) (wgt : option (list R))
  (garbage : xmat) : outcome :=
  match check_shapes data rij with
  | Some e => Raise e
  | None =>
      match check_wgt (shape1 data) (shape0 rij) wgt with
      | inl e => Raise e
      | inr (w, N_w) => estimate data rij hz w N_w garbage
      end
  end.

(** ** Validation *)

(** The five checks of the input error checking cells. *)
Definition validation_error (e : error) : bool :=
  match e with
  | DataShapeMismatch | InsufficientSensors | InvalidDimension
  | WgtShapeMismatch | InsufficientWeights => true
  | _ => false
  end.

(** The first check that fails decides the exception. *)
Inductive first_failure (data rij : ndarray2) (wgt : option (list R))
  : option error -> Prop :=
| ff_data : shape1 data <> shape1 rij ->
    first_failure data rij wgt (Some DataShapeMismatch)
| ff_sensors : shape1 data = shape1 rij ->
    (shape1 rij < shape0 rij + 1)%nat ->
    first_failure data rij wgt (Some InsufficientSensors)
| ff_dim : shape1 data = shape1 rij ->
    (shape0 rij + 1 <= shape1 rij)%nat ->
    ~ (shape0 rij = 2 \/ shape0 rij = 3)%nat ->
    first_failure data rij wgt (Some InvalidDimension)
| ff_wlen w : shape1 data = shape1 rij ->
    (shape0 rij + 1 <= shape1 rij)%nat ->
    (shape0 rij = 2 \/ shape0 rij = 3)%nat ->
    wgt = Some w -> length w <> shape1 rij ->
    first_failure data rij wgt (Some WgtShapeMismatch)
| ff_wcount w : shape1 data = shape1 rij ->
    (shape0 rij + 1 <= shape1 rij)%nat ->
    (shape0 rij = 2 \/ shape0 rij = 3)%nat ->
    wgt = Some w -> length w = shape1 rij ->
    (count_nonzero w < shape0 rij + 1)%nat ->
    first_failure data rij wgt (Some InsufficientWeights)
| ff_none : shape1 data = shape1 rij ->
    (shape0 rij + 1 <= shape1 rij)%nat ->
    (shape0 rij = 2 \/ shape0 rij = 3)%nat ->
    (forall w, wgt = Some w ->
               length w = shape1 rij /\ (shape0 rij + 1 <= count_nonzero w)%nat) ->
    first_failure data rij wgt None.

(** ** Dependence on the traces *)

(** Two trace matrices agree on the pairs that carry weight. *)
Definition agree_on_weighted (data1 data2 : ndarray2)
  (ix : list (nat * nat * R)) : Prop :=
  forall k, (k < length ix)%nat -> pair_w ix k <> 0 ->
    column data1 (pair_i ix k) = column data2 (pair_i ix k) /\
    column data1 (pair_j ix k) = column data2 (pair_j ix k).

(** ** The call against a store of arrays

    The same routine with its arrays in a store, to say which arrays a call
    writes: the arguments are locations, [np.array] and [np.empty] allocate,
    and the two assignments of the source ([cij[:, k] = ...] and
    [cmax[...] = 0]) write at the location of their target. *)

Inductive object : Type :=
| ObjArray (a : ndarray2)
| ObjList (l : list R)
| ObjBuffer (c : xmat)
| ObjXList (l : list xreal).

Definition store : Type := list object.
Definition loc : Type := nat.

Definition read (st : store) (l : loc) : option object := nth_error st l.

Definition alloc (st : store) (o : object) : store * loc :=
  (st ++ [o], length st).

Fixpoint write (st : store) (l : loc) (o : object) : store :=
  match st, l with
  | [], _ => []
  | _ :: st', O => o :: st'
  | x :: st', S l' => x :: write st' l' o
  end.

(** The optional [wgt] argument: absent, or the location of a list. *)
Definition read_wgt (st : store) (lwgt : option loc)
  : option (option (list R)) :=
  match lwgt with
  | None => Some None
  | Some l =>
      match read st l with
      | Some (ObjList w) => Some (Some w)
      | _ => None
      end
  end.

(** The loop over the pairs, reading the traces and writing [cij] in place. *)
Definition fill_cij_store (ldata lcij : loc) (ix : list (nat * nat * R))
  (W : mat) (N : nat) (st : store) : store :=
  fold_left
    (fun st k =>
       if nonzero (W k k) then
         match read st ldata, read st lcij with
         | Some (ObjArray data), Some (ObjBuffer cij) =>
             write st lcij
               (ObjBuffer
                  (set_column cij k
                     (xcorr_coeff (column data (pair_i ix k))
                                  (column data (pair_j ix k)))))
         | _, _ => st
         end
       else st)
    (seq 0 N) st.

(** [None] when a location does not hold an array of the expected kind. *)
Definition wlsqva_store (st : store) (ldata lrij : loc) (hz : R)
  (lwgt : option loc) (garbage : xmat) : option (store * outcome) :=
  match read st ldata, read st lrij, read_wgt st lwgt with
  | Some (ObjArray data), Some (ObjArray rij), Some wgt =>
      match check_shapes data rij with
      | Some e => Some (st, Raise e)
      | None =>
          let (st1, lw) :=
            alloc st (ObjList (match wgt with
                               | None => ones (shape1 data)
                               | Some w => w
                               end)) in
          match check_wgt (shape1 data) (shape0 rij) wgt with
          | inl e => Some (st1, Raise e)
          | inr (w, N_w) =>
              let m := shape0 data in
              let ix := idx (shape1 rij) w in
              let W := W_mat ix in
              let N := length ix in
              if (m =? 0)%nat then Some (st1, Raise NegativeDimensions)
              else
                let (st2, lcij) := alloc st1 (ObjBuffer garbage) in
                let st3 := fill_cij_store ldata lcij ix W N st2 in
                match read st3 lcij with
                | Some (ObjBuffer cij) =>
                    let (st4, lcmax) :=
                      alloc st3 (ObjXList (col_max cij (m * 2 - 1) N)) in
                    match read st4 lcmax with
                    | Some (ObjXList c) =>
                        let st5 :=
                          write st4 lcmax (ObjXList (zero_unweighted W c)) in
                        match read st5 lcmax with
                        | Some (ObjXList cmax) =>
                            Some (st5, solve rij hz ix N_w m cij cmax)
                        | _ => None
                        end
                    | _ => None
                    end
                | _ => None
                end
          end
      end
  | _, _, _ => None
  end.

(** Every array of the store before the call is still there, unchanged. *)
Definition preserved (st st' : store) : Prop :=
  forall l o, read st l = Some o -> read st' l = Some o.

(** ** Example inputs *)

(** [np.array(rows)] for [m] rows of [n] numbers. *)
Definition of_rows (m n : nat) (rows : list (list R)) : ndarray2 :=
  mk_ndarray2 m n (fun r c => nth c (nth r rows []) 0).

(** Three sensors at the origin, one unit north and one unit east; two
    samples per trace. *)
Definition data3 : ndarray2 := of_rows 2 3 [[0; 1; 0]; [1; 0; 1]].
Definition rij3 : ndarray2 := of_rows 2 3 [[0; 1; 0]; [0; 0; 1]].

(** The four-sensor array of the docstring, with the third trace excluded. *)
Definition rij4 : ndarray2 := of_rows 2 4 [[0; 1; 1/2; 0]; [1; 0; 1/2; -1]].
Definition data4 : ndarray2 := of_rows 2 4 [[0; 1; 5; 0]; [1; 0; 7; 1]].
Definition data4' : ndarray2 := of_rows 2 4 [[0; 1; -3; 0]; [1; 0; 2; 1]].
Definition wgt4 : list R := [1; 1; 0; 1].

Definition all_nan : xmat := fun _ _ => NaN.

(** What the call returns on [data3], [rij3] at 1 Hz. *)
Definition out3 : outputs :=
  {| vel := Fin 1;
     az := AzScalar 90;
     tau := [-1; 0; 1];
     cmax := [Fin 1; Fin 1; Fin 1];
     sig_tau := Fin 0;
     s := [1; 0];
     xij := [[-1; 0; 1]; [0; -1; -1]] |}.

(** ** The canonical order of the pairs *)

(** Lexicographic order on index pairs: the order of a loop over [i] with an
    inner loop over [j]. *)
Definition lex_lt (p q : nat * nat) : Prop :=
  (fst p < fst q)%nat \/ (fst p = fst q /\ (snd p < snd q)%nat).

(** Number of pairs the two loops visit before the pair [(i, j)]. *)
Fixpoint pairs_before_row (n i : nat) : nat :=
  match i with
  | O => O
  | S a => (pairs_before_row n a + (n - 1 - a))%nat
  end.

Definition pair_pos (n i j : nat) : nat :=
  (pairs_before_row n i + (j - i - 1))%nat.

(** The pairs of [idx], without the weights. *)
Definition pairs (n : nat) (w : list R) : list (nat * nat) :=
  map fst (idx n w).

(** One pass of the inner loop. *)
Definition row (w : list R) (n i : nat) : list (nat * nat * R) :=
  map (fun j => (i, j, nth i w 0 * nth j w 0)) (seq (i + 1) (n - (i + 1))).

(** The weights the routine works with. *)
Definition weights_of (n : nat) (wgt : option (list R)) : list R :=
  match wgt with
  | None => ones n
  | Some w => w
  end.

(** The arrival-time difference the source forms for a pair of traces:
    [(m - delay)/hz], [delay] the position of the first maximum of the
    normalised cross-correlation, counted from one. *)
Definition pair_tau (data : ndarray2) (hz : R) (i j : nat) : R :=
  (INR (shape0 data)
   - INR (argmax (xcorr_coeff (column data i) (column data j)) + 1)) / hz.

(** A value that is not a number: NaN or an infinity. *)
Definition undefined_value (x : xreal) : Prop :=
  match x with
  | Fin _ => False
  | _ => True
  end.

(** The three-sensor example with the first sensor weighted 2. *)
Definition wgt3 : list R := [2; 1; 1].

(** The energy of a trace, [sum(a*a)]. *)
Definition energy (a : list R) : R := py_sum (vmul a a).

(** [wgt] with every entry multiplied by [c]. *)
Definition scale_wgt (c : R) (w : list R) : list R := map (Rmult c) w.

(** ** Further examples and notions *)

(** Three identical traces over the three-sensor array. *)
Definition data_same : ndarray2 := of_rows 2 3 [[0; 0; 0]; [1; 1; 1]].

(** A trace that is identically zero. *)
Definition all_zero (a : list R) : Prop := forall k, nth k a 0 = 0.

(** The three-sensor example with the second trace dead. *)
Definition data_dead : ndarray2 := of_rows 2 3 [[0; 0; 0]; [1; 0; 1]].

(** Three sensors on the northing axis. *)
Definition rij_line : ndarray2 := of_rows 2 3 [[0; 1; 2]; [0; 0; 0]].

(** The normalised correlation values of two traces of nonzero energy. *)
Definition coeffs (a v : list R) : list R :=
  map (fun c => c / sqrt (energy a * energy v)) (correlate_full a v).

(** The pairs that are correlated: those whose pair weight is not zero. *)
Definition weighted_pairs (n : nat) (w : list R) : list (nat * nat * R) :=
  filter (fun p => nonzero (snd p)) (idx n w).

(** * Properties *)

(** ** Validation *)

Lemma check_shapes_none data rij :
  check_shapes data rij = None <->
  (shape1 data = shape1 rij /\ (shape0 rij + 1 <= shape1 rij)%nat /\
   (shape0 rij = 2 \/ shape0 rij = 3)%nat).
Proof.
  unfold check_shapes.
  destruct (Nat.eqb_spec (shape1 data) (shape1 rij)); simpl.
  2:{ split; [discriminate | tauto]. }
  destruct (Nat.ltb_spec (shape1 rij) (shape0 rij + 1)).
  { split; [discriminate | lia]. }
  destruct (Nat.ltb_spec (shape0 rij) 2); simpl.
  { split; [discriminate | lia]. }
  destruct (Nat.ltb_spec 3 (shape0 rij)).
  { split; [discriminate | lia]. }
  split; intros; [lia | reflexivity].
Qed.

Lemma estimate_not_validation data rij hz w N_w g e :
  estimate data rij hz w N_w g = Raise e -> validation_error e = false.
Proof.
  unfold estimate, solve.
  destruct (shape0 data =? 0)%nat.
  - intros H; inversion H; reflexivity.
  - destruct (inv _ _).
    + destruct (is_zero hz); discriminate.
    + intros H; inversion H; reflexivity.
Qed.


Lemma wlsqva_first_failure data rij hz wgt g :
  exists r, first_failure data rij wgt r /\
    match r with
    | Some e => wlsqva data rij hz wgt g = Raise e
    | None => forall e, wlsqva data rij hz wgt g = Raise e ->
                        validation_error e = false
    end.
Proof.
  unfold wlsqva, check_shapes.
  destruct (Nat.eqb_spec (shape1 data) (shape1 rij)) as [E1|E1]; simpl.
  2:{ eexists; split; [apply ff_data; assumption | reflexivity]. }
  destruct (Nat.ltb_spec (shape1 rij) (shape0 rij + 1)) as [E2|E2].
  { eexists; split; [apply ff_sensors; assumption | reflexivity]. }
  destruct (Nat.ltb_spec (shape0 rij) 2) as [E3|E3]; simpl.
  { eexists; split; [apply ff_dim; (assumption || lia) | reflexivity]. }
  destruct (Nat.ltb_spec 3 (shape0 rij)) as [E4|E4].
  { eexists; split; [apply ff_dim; (assumption || lia) | reflexivity]. }
  assert (D : (shape0 rij = 2 \/ shape0 rij = 3)%nat) by lia.
  unfold check_wgt.
  destruct wgt as [w|].
  - rewrite E1.
    destruct (Nat.eqb_spec (length w) (shape1 rij)) as [E5|E5]; simpl.
    2:{ eexists; split; [eapply ff_wlen; eauto | reflexivity]. }
    destruct (Nat.ltb_spec (count_nonzero w) (shape0 rij + 1)) as [E6|E6].
    { eexists; split; [eapply ff_wcount; eauto | reflexivity]. }
    exists None; split.
    + apply ff_none; auto. intros w' Hw; inversion Hw; subst; auto.
    + intros e He. eapply estimate_not_validation; eassumption.
  - exists None; split.
    + apply ff_none; auto. intros w' Hw; discriminate.
    + intros e He. eapply estimate_not_validation; eassumption.
Qed.

(** C4: the call ends in a validation exception exactly when one of the five
    conditions holds; the first condition that holds, in the order of the
    checks, decides which ([IndexError] for the two shape mismatches,
    [ValueError] for the others); when none holds the call raises no
    validation exception. *)
Theorem wlsqva_validation data rij hz wgt g :
  let n := shape1 rij in
  let dim := shape0 rij in
  let c1 := shape1 data <> n in
  let c2 := (n < dim + 1)%nat in
  let c3 := ~ (dim = 2 \/ dim = 3)%nat in
  let c4 := exists w, wgt = Some w /\ length w <> n in
  let c5 := exists w, wgt = Some w /\ (count_nonzero w < dim + 1)%nat in
  ((exists e, wlsqva data rij hz wgt g = Raise e /\ validation_error e = true)
   <-> c1 \/ c2 \/ c3 \/ c4 \/ c5)
  /\ (wlsqva data rij hz wgt g = Raise DataShapeMismatch <-> c1)
  /\ (wlsqva data rij hz wgt g = Raise InsufficientSensors <-> ~ c1 /\ c2)
  /\ (wlsqva data rij hz wgt g = Raise InvalidDimension
      <-> ~ c1 /\ ~ c2 /\ c3)
  /\ (wlsqva data rij hz wgt g = Raise WgtShapeMismatch
      <-> ~ c1 /\ ~ c2 /\ ~ c3 /\ c4)
  /\ (wlsqva data rij hz wgt g = Raise InsufficientWeights
      <-> ~ c1 /\ ~ c2 /\ ~ c3 /\ ~ c4 /\ c5)
  /\ exception_class DataShapeMismatch = IndexError
  /\ exception_class InsufficientSensors = ValueError
  /\ exception_class InvalidDimension = ValueError
  /\ exception_class WgtShapeMismatch = IndexError
  /\ exception_class InsufficientWeights = ValueError.
Proof.
  intros n dim c1 c2 c3 c4 c5. subst n dim c1 c2 c3 c4 c5.
  destruct (wlsqva_first_failure data rij hz wgt g) as (r & Hf & Hr).
  destruct Hf.
  all: repeat match goal with |- _ /\ _ => split end; try reflexivity.
  all: try rewrite Hr.
  all: split; intros HH.
  all: try discriminate HH.
  all: try (apply Hr in HH; discriminate HH).
  all: try (eexists; split; reflexivity).
  all: try reflexivity.
  all: repeat match goal with
         | H : _ /\ _ |- _ => destruct H
         | H : ex _ |- _ => destruct H
         | H : _ \/ _ |- _ => destruct H
         | H : Some _ = Some _ |- _ => inversion H; clear H; subst
         | H : forall w, ?x = Some w -> _, H' : ?x = Some _ |- _ =>
             apply H in H'
         end.
  all: try (exfalso; lia); try tauto; try congruence.
  all: try (exfalso; tauto).
  all: eauto 10.
  all: try (repeat split; eauto; try lia; try tauto).
  all: try match goal with
         | H : ~ (exists w, _ = Some w /\ _) |- _ =>
             exfalso; apply H; eauto
         | Hr : forall e, _ = Raise e -> _, H : _ = Raise _ |- _ =>
             apply Hr in H; congruence
         end.
  all: intros (w0 & Hw0 & Hl0); rewrite Hw0 in *;
    match goal with H : Some _ = Some _ |- _ => inversion H; subst end;
    congruence.
Qed.

(** ** Sums and products *)

Lemma rsum_ext n f g :
  (forall l, (l < n)%nat -> f l = g l) -> rsum n f = rsum n g.
Proof.
  induction n as [|n IH]; intros H; simpl; [reflexivity|].
  rewrite IH by (intros; apply H; lia). rewrite H by lia. reflexivity.
Qed.

Lemma rsum_zero n f :
  (forall l, (l < n)%nat -> f l = 0) -> rsum n f = 0.
Proof.
  induction n as [|n IH]; intros H; simpl; [reflexivity|].
  rewrite IH by (intros; apply H; lia). rewrite H by lia. lra.
Qed.

Lemma rsum_single n k f :
  (k < n)%nat -> (forall l, (l < n)%nat -> l <> k -> f l = 0) ->
  rsum n f = f k.
Proof.
  induction n as [|n IH]; intros Hk H; [lia|]. simpl.
  destruct (Nat.eq_dec k n) as [->|Hne].
  - rewrite rsum_zero; [lra|]. intros; apply H; lia.
  - rewrite IH; [|lia|intros; apply H; lia]. rewrite (H n); [lra|lia|lia].
Qed.

Lemma rsum_scale n c f :
  rsum n (fun l => c * f l) = c * rsum n f.
Proof. induction n as [|n IH]; simpl; [lra|]. rewrite IH. lra. Qed.

Lemma tabulate_ext {A} n (f g : nat -> A) :
  (forall k, (k < n)%nat -> f k = g k) -> tabulate n f = tabulate n g.
Proof.
  intros H. unfold tabulate. apply map_ext_in.
  intros k Hk. apply in_seq in Hk. apply H. lia.
Qed.

Lemma tabulate_length {A} n (f : nat -> A) : length (tabulate n f) = n.
Proof. unfold tabulate. now rewrite length_map, length_seq. Qed.

Lemma tabulate_nth {A} n (f : nat -> A) k d :
  (k < n)%nat -> nth k (tabulate n f) d = f k.
Proof.
  intros H. unfold tabulate.
  rewrite (nth_indep _ d (f O)) by now rewrite length_map, length_seq.
  rewrite map_nth, seq_nth by assumption. reflexivity.
Qed.

(** A diagonal weight array acts entrywise. *)
Lemma matvec_diag n d v k :
  (k < n)%nat -> matvec n (diag d) v k = d k * v k.
Proof.
  intros Hk. unfold matvec.
  rewrite (rsum_single n k).
  - unfold diag. now rewrite Nat.eqb_refl.
  - assumption.
  - intros l _ Hl. unfold diag.
    destruct (Nat.eqb_spec k l); [congruence|lra].
Qed.

Lemma matvec_diag_out n d v k :
  (n <= k)%nat -> matvec n (diag d) v k = 0.
Proof.
  intros Hk. unfold matvec. apply rsum_zero. intros l Hl. unfold diag.
  destruct (Nat.eqb_spec k l); [lia|lra].
Qed.

Lemma matmul_diag n d A k j :
  (k < n)%nat -> matmul n (diag d) A k j = d k * A k j.
Proof.
  intros Hk. unfold matmul.
  rewrite (rsum_single n k).
  - unfold diag. now rewrite Nat.eqb_refl.
  - assumption.
  - intros l _ Hl. unfold diag.
    destruct (Nat.eqb_spec k l); [congruence|lra].
Qed.

Lemma matvec_ext n A v v' i :
  (forall l, (l < n)%nat -> v l = v' l) -> matvec n A v i = matvec n A v' i.
Proof. intros H. apply rsum_ext. intros l Hl. now rewrite H. Qed.

Lemma vecmat_ext n A v v' j :
  (forall l, (l < n)%nat -> v l = v' l) -> vecmat n v A j = vecmat n v' A j.
Proof. intros H. apply rsum_ext. intros l Hl. now rewrite H. Qed.

Lemma dot_ext n u u' v v' :
  (forall l, (l < n)%nat -> u l = u' l) ->
  (forall l, (l < n)%nat -> v l = v' l) -> dot n u v = dot n u' v'.
Proof. intros H H'. apply rsum_ext. intros l Hl. now rewrite H, H'. Qed.

Lemma norm2_ext n v v' :
  (forall l, (l < n)%nat -> v l = v' l) -> norm2 n v = norm2 n v'.
Proof.
  intros H. unfold norm2. f_equal. apply rsum_ext. intros l Hl.
  now rewrite H.
Qed.

Lemma az_of_ext dim v v' :
  (forall l, v l = v' l) -> az_of dim v = az_of dim v'.
Proof.
  intros H. unfold az_of. rewrite !H.
  rewrite (norm2_ext 2 v v') by (intros; apply H). reflexivity.
Qed.

(** ** The pair list *)

Lemma in_idx n w i j x :
  In (i, j, x) (idx n w) <->
  (i < j)%nat /\ (j < n)%nat /\ x = nth i w 0 * nth j w 0.
Proof.
  unfold idx. rewrite in_flat_map. split.
  - intros (i' & Hi & Hin). apply in_map_iff in Hin.
    destruct Hin as (j' & Heq & Hj). inversion Heq; subst.
    apply in_seq in Hi. apply in_seq in Hj. repeat split; lia.
  - intros (Hij & Hj & ->). exists i. split.
    + apply in_seq. lia.
    + apply in_map_iff. exists j. split; [reflexivity|]. apply in_seq. lia.
Qed.

Lemma idx_nth n w k :
  (k < length (idx n w))%nat ->
  (pair_i (idx n w) k < pair_j (idx n w) k)%nat /\
  (pair_j (idx n w) k < n)%nat /\
  pair_w (idx n w) k
  = nth (pair_i (idx n w) k) w 0 * nth (pair_j (idx n w) k) w 0.
Proof.
  intros Hk. unfold pair_i, pair_j, pair_w.
  pose proof (nth_In (idx n w) (O, O, 0) Hk) as Hin.
  destruct (nth k (idx n w) (O, O, 0)) as [[i j] x]. simpl.
  now apply in_idx in Hin.
Qed.

Lemma W_mat_diag ix k : W_mat ix k k = pair_w ix k.
Proof. unfold W_mat, diag. now rewrite Nat.eqb_refl. Qed.

(** ** The correlation buffer *)

Lemma fill_cij_at data ix W N g r k :
  fill_cij data ix W N g r k =
  if ((k <? N)%nat && nonzero (W k k))%bool
  then nth r (xcorr_coeff (column data (pair_i ix k))
                          (column data (pair_j ix k))) NaN
  else g r k.
Proof.
  unfold fill_cij. induction N as [|N IH].
  - reflexivity.
  - rewrite seq_S, fold_left_app. simpl.
    destruct (nonzero (W N N)) eqn:HW.
    + unfold set_column at 1. destruct (Nat.eqb_spec k N) as [->|Hne].
      * rewrite HW. replace (N <? S N)%nat with true; [reflexivity|].
        symmetry. apply Nat.ltb_lt. lia.
      * rewrite IH. replace (k <? S N)%nat with (k <? N)%nat; [reflexivity|].
        destruct (Nat.ltb_spec k N), (Nat.ltb_spec k (S N)); (reflexivity || lia).
    + rewrite IH. destruct (Nat.eq_dec k N) as [->|Hne].
      * rewrite HW, !andb_false_r. reflexivity.
      * replace (k <? S N)%nat with (k <? N)%nat; [reflexivity|].
        destruct (Nat.ltb_spec k N), (Nat.ltb_spec k (S N)); (reflexivity || lia).
Qed.

Lemma nonzero_is_zero x : nonzero x = negb (is_zero x).
Proof. unfold nonzero, is_zero. now destruct (Req_dec_T x 0). Qed.

Lemma is_zero_true x : is_zero x = true <-> x = 0.
Proof. unfold is_zero. destruct (Req_dec_T x 0); split; congruence. Qed.

Lemma is_zero_false x : is_zero x = false <-> x <> 0.
Proof. unfold is_zero. destruct (Req_dec_T x 0); split; congruence. Qed.

(** The column of a weighted pair is the computed coefficient column. *)
Lemma xcolumn_fill data ix W N g rows k :
  (k < N)%nat -> W k k <> 0 ->
  xcolumn (fill_cij data ix W N g) rows k
  = map (fun r => nth r (xcorr_coeff (column data (pair_i ix k))
                                     (column data (pair_j ix k))) NaN)
        (seq 0 rows).
Proof.
  intros Hk HW. unfold xcolumn. apply map_ext. intros r.
  rewrite fill_cij_at.
  replace (k <? N)%nat with true by (symmetry; apply Nat.ltb_lt; lia).
  rewrite nonzero_is_zero.
  apply is_zero_false in HW. rewrite HW. reflexivity.
Qed.

(** ** What the outputs depend on *)

Lemma cmax_vec_eq cij rows W N :
  cmax_vec cij rows W N
  = tabulate N (fun k => if is_zero (W k k) then Fin 0
                         else xmax_list (xcolumn cij rows k)).
Proof.
  unfold cmax_vec, zero_unweighted, col_max. rewrite tabulate_length.
  apply tabulate_ext. intros k Hk. now rewrite tabulate_nth.
Qed.

Lemma cmax_vec_ext data1 data2 ix g1 g2 rows :
  agree_on_weighted data1 data2 ix ->
  cmax_vec (fill_cij data1 ix (W_mat ix) (length ix) g1) rows (W_mat ix)
           (length ix)
  = cmax_vec (fill_cij data2 ix (W_mat ix) (length ix) g2) rows (W_mat ix)
             (length ix).
Proof.
  intros Hag. rewrite !cmax_vec_eq. apply tabulate_ext. intros k Hk.
  destruct (is_zero (W_mat ix k k)) eqn:HW; [reflexivity|].
  apply is_zero_false in HW.
  rewrite !xcolumn_fill by assumption.
  rewrite W_mat_diag in HW. destruct (Hag k Hk HW) as [-> ->]. reflexivity.
Qed.

Lemma matvec_W ix v k :
  (k < length ix)%nat -> matvec (length ix) (W_mat ix) v k = pair_w ix k * v k.
Proof. intros Hk. unfold W_mat. now apply matvec_diag. Qed.

Lemma matvec_W_out ix v k :
  (length ix <= k)%nat -> matvec (length ix) (W_mat ix) v k = 0.
Proof. intros Hk. unfold W_mat. now apply matvec_diag_out. Qed.

Lemma tau_p_ext data1 data2 ix g1 g2 m hz rows k :
  agree_on_weighted data1 data2 ix ->
  tau_p ix (tau_vec m hz (fill_cij data1 ix (W_mat ix) (length ix) g1) rows) k
  = tau_p ix
      (tau_vec m hz (fill_cij data2 ix (W_mat ix) (length ix) g2) rows) k.
Proof.
  intros Hag. unfold tau_p.
  destruct (Nat.lt_ge_cases k (length ix)) as [Hk|Hk].
  - rewrite !matvec_W by assumption.
    destruct (Req_dec_T (pair_w ix k) 0) as [E|E].
    + rewrite E. lra.
    + f_equal. unfold tau_vec, delay.
      rewrite !xcolumn_fill by (rewrite ?W_mat_diag; assumption).
      destruct (Hag k Hk E) as [-> ->]. reflexivity.
  - now rewrite !matvec_W_out.
Qed.

Lemma estimate_ext data1 data2 rij hz w N_w g1 g2 :
  shape0 data1 = shape0 data2 ->
  agree_on_weighted data1 data2 (idx (shape1 rij) w) ->
  estimate data1 rij hz w N_w g1 = estimate data2 rij hz w N_w g2.
Proof.
  intros Hm Hag. unfold estimate, solve. rewrite Hm.
  destruct (shape0 data2 =? 0)%nat; [reflexivity|].
  set (ix := idx (shape1 rij) w) in *.
  destruct (inv _ _) as [Ainv|]; [|reflexivity].
  destruct (is_zero hz); [reflexivity|].
  set (rows := (shape0 data2 * 2 - 1)%nat).
  pose proof (fun k => tau_p_ext data1 data2 ix g1 g2 (shape0 data2) hz rows
                         k Hag) as Ht.
  pose proof (cmax_vec_ext data1 data2 ix g1 g2 rows Hag) as Hc.
  set (tp1 := tau_p ix (tau_vec (shape0 data2) hz
                (fill_cij data1 ix (W_mat ix) (length ix) g1) rows)) in *.
  set (tp2 := tau_p ix (tau_vec (shape0 data2) hz
                (fill_cij data2 ix (W_mat ix) (length ix) g2) rows)) in *.
  assert (Hs : forall d M X i,
             s_p d (length ix) M X tp1 i = s_p d (length ix) M X tp2 i).
  { intros d M X i. apply matvec_ext. intros; apply Ht. }
  f_equal. rewrite Hc.
  f_equal.
  - f_equal. apply norm2_ext. intros; apply Hs.
  - apply az_of_ext. intros; apply Hs.
  - apply tabulate_ext. intros; apply Ht.
  - unfold sig_tau_p, rss. do 2 f_equal. apply dot_ext; [|intros; apply Ht].
    intros l Hl. apply vecmat_ext. intros; apply Ht.
  - apply tabulate_ext. intros; apply Hs.
Qed.

(** ** The call against a store *)

Lemma preserved_refl st : preserved st st.
Proof. intros l o H; exact H. Qed.

Lemma preserved_trans st1 st2 st3 :
  preserved st1 st2 -> preserved st2 st3 -> preserved st1 st3.
Proof. intros H1 H2 l o H. apply H2, H1, H. Qed.

Lemma read_some_lt st l o : read st l = Some o -> (l < length st)%nat.
Proof. unfold read. intros H. apply nth_error_Some. congruence. Qed.

Lemma read_alloc_old st o l x :
  read st l = Some x -> read (fst (alloc st o)) l = Some x.
Proof.
  unfold read, alloc. simpl. intros H.
  rewrite nth_error_app1; [assumption|].
  apply nth_error_Some. congruence.
Qed.

Lemma read_alloc_new st o :
  read (fst (alloc st o)) (snd (alloc st o)) = Some o.
Proof.
  unfold read, alloc. simpl.
  rewrite nth_error_app2 by lia. now rewrite Nat.sub_diag.
Qed.

Lemma preserved_alloc st o : preserved st (fst (alloc st o)).
Proof. intros l x H. now apply read_alloc_old. Qed.

Lemma write_length st l o : length (write st l o) = length st.
Proof.
  revert l; induction st as [|x st IH]; intros [|l]; simpl; auto.
Qed.

Lemma read_write_same st l o :
  (l < length st)%nat -> read (write st l o) l = Some o.
Proof.
  unfold read. revert l; induction st as [|x st IH]; intros [|l] H; simpl in *;
    try lia; auto. apply IH. lia.
Qed.

Lemma read_write_other st l l' o :
  l' <> l -> read (write st l o) l' = read st l'.
Proof.
  unfold read. revert l l'; induction st as [|x st IH]; intros [|l] [|l'] H;
    simpl; auto; try congruence.
Qed.

(** The loop leaves every location but [lcij] alone and builds there the
    buffer of [fill_cij]. *)
Lemma fill_cij_store_spec ldata lcij data ix W N st g :
  ldata <> lcij ->
  read st ldata = Some (ObjArray data) ->
  read st lcij = Some (ObjBuffer g) ->
  let st' := fill_cij_store ldata lcij ix W N st in
  read st' lcij = Some (ObjBuffer (fill_cij data ix W N g)) /\
  (forall l, l <> lcij -> read st' l = read st l).
Proof.
  intros Hne Hd Hc. unfold fill_cij_store, fill_cij.
  induction N as [|N IH].
  - split; [assumption | reflexivity].
  - rewrite !seq_S, !fold_left_app. simpl.
    destruct IH as [IHc IHo].
    destruct (nonzero (W N N)).
    + rewrite IHo by assumption. rewrite Hd, IHc. split.
      * apply read_write_same. eapply read_some_lt. exact IHc.
      * intros l Hl. rewrite read_write_other by assumption. now apply IHo.
    + split; assumption.
Qed.

(** The store run computes what [wlsqva] computes on the arrays it finds at
    its arguments, and leaves the arrays of the caller as they were. *)
Lemma wlsqva_store_spec st ldata lrij hz lwgt g data rij wgt :
  read st ldata = Some (ObjArray data) ->
  read st lrij = Some (ObjArray rij) ->
  read_wgt st lwgt = Some wgt ->
  exists st',
    wlsqva_store st ldata lrij hz lwgt g
    = Some (st', wlsqva data rij hz wgt g)
    /\ preserved st st'.
Proof.
  intros Hd Hr Hw. unfold wlsqva_store, wlsqva. rewrite Hd, Hr, Hw.
  destruct (check_shapes data rij) as [e|].
  { eexists; split; [reflexivity | apply preserved_refl]. }
  set (w0 := match wgt with None => ones (shape1 data) | Some w => w end).
  pose proof (preserved_alloc st (ObjList w0)) as P1.
  destruct (alloc st (ObjList w0)) as [st1 lw] eqn:A1. simpl in P1.
  destruct (check_wgt (shape1 data) (shape0 rij) wgt) as [e|[w N_w]].
  { eexists; split; [reflexivity | assumption]. }
  unfold estimate.
  destruct (shape0 data =? 0)%nat.
  { eexists; split; [reflexivity | assumption]. }
  pose proof (preserved_alloc st1 (ObjBuffer g)) as P2.
  pose proof (read_alloc_new st1 (ObjBuffer g)) as N2.
  assert (L2 : snd (alloc st1 (ObjBuffer g)) = length st1) by reflexivity.
  destruct (alloc st1 (ObjBuffer g)) as [st2 lcij] eqn:A2. simpl in P2, N2, L2.
  set (ix := idx (shape1 rij) w).
  assert (Hne : ldata <> lcij).
  { apply P1, read_some_lt in Hd. lia. }
  destruct (fill_cij_store_spec ldata lcij data ix (W_mat ix) (length ix)
              st2 g Hne (P2 _ _ (P1 _ _ Hd)) N2) as [Hc Ho].
  set (st3 := fill_cij_store ldata lcij ix (W_mat ix) (length ix) st2) in *.
  rewrite Hc.
  set (cij := fill_cij data ix (W_mat ix) (length ix) g).
  set (c0 := col_max cij (shape0 data * 2 - 1) (length ix)).
  pose proof (preserved_alloc st3 (ObjXList c0)) as P4.
  pose proof (read_alloc_new st3 (ObjXList c0)) as N4.
  assert (L4 : snd (alloc st3 (ObjXList c0)) = length st3) by reflexivity.
  destruct (alloc st3 (ObjXList c0)) as [st4 lcmax] eqn:A4.
  simpl in P4, N4, L4.
  rewrite N4.
  rewrite read_write_same by (eapply read_some_lt; exact N4).
  eexists; split; [reflexivity|].
  intros l o Hl.
  assert (Hl1 := P1 _ _ Hl). assert (Hl2 := P2 _ _ Hl1).
  assert (l <> lcij) by (apply read_some_lt in Hl1; lia).
  assert (Hl3 : read st3 l = Some o) by (rewrite Ho; assumption).
  assert (l <> lcmax) by (pose proof (read_some_lt _ _ _ Hl3); lia).
  rewrite read_write_other by assumption. now apply P4.
Qed.

(** ** Determinism *)

Lemma agree_refl data ix : agree_on_weighted data data ix.
Proof. intros k _ _. split; reflexivity. Qed.

(** What [np.empty] found in memory does not reach the outputs. *)
Lemma wlsqva_garbage data rij hz wgt g1 g2 :
  wlsqva data rij hz wgt g1 = wlsqva data rij hz wgt g2.
Proof.
  unfold wlsqva. destruct (check_shapes data rij); [reflexivity|].
  destruct (check_wgt _ _ wgt) as [e|[w N_w]]; [reflexivity|].
  apply estimate_ext; [reflexivity | apply agree_refl].
Qed.

Lemma read_wgt_preserved st st' lwgt wgt :
  preserved st st' -> read_wgt st lwgt = Some wgt ->
  read_wgt st' lwgt = Some wgt.
Proof.
  intros P. unfold read_wgt. destruct lwgt as [l|]; [|auto].
  destruct (read st l) as [o|] eqn:E; [|discriminate].
  rewrite (P _ _ E). auto.
Qed.

(** C9: two calls in a row with the same arguments, whatever the fresh
    buffers hold, return the same value, which is the value of the function
    [wlsqva] on the argument arrays; and every array present before the
    calls, the arguments among them, is unchanged after each. *)
Theorem wlsqva_deterministic_pure
  st ldata lrij hz lwgt g1 g2 data rij wgt :
  read st ldata = Some (ObjArray data) ->
  read st lrij = Some (ObjArray rij) ->
  read_wgt st lwgt = Some wgt ->
  exists st1 st2 out,
    wlsqva_store st ldata lrij hz lwgt g1 = Some (st1, out) /\
    wlsqva_store st1 ldata lrij hz lwgt g2 = Some (st2, out) /\
    out = wlsqva data rij hz wgt g1 /\
    preserved st st1 /\ preserved st st2 /\
    read st2 ldata = Some (ObjArray data) /\
    read st2 lrij = Some (ObjArray rij) /\
    read_wgt st2 lwgt = Some wgt.
Proof.
  intros Hd Hr Hw.
  destruct (wlsqva_store_spec st ldata lrij hz lwgt g1 data rij wgt Hd Hr Hw)
    as (st1 & E1 & P1).
  destruct (wlsqva_store_spec st1 ldata lrij hz lwgt g2 data rij wgt
              (P1 _ _ Hd) (P1 _ _ Hr) (read_wgt_preserved _ _ _ _ P1 Hw))
    as (st2 & E2 & P2).
  exists st1, st2, (wlsqva data rij hz wgt g1).
  assert (P : preserved st st2) by (eapply preserved_trans; eassumption).
  repeat split; auto.
  - rewrite E2. now rewrite (wlsqva_garbage data rij hz wgt g2 g1).
  - eapply read_wgt_preserved; eassumption.
Qed.

Lemma wlsqva_deterministic_pure_witness :
  exists st1 st2 out,
    wlsqva_store [ObjArray data4; ObjArray rij4; ObjList wgt4] 0%nat 1%nat 20
                 (Some 2%nat) all_nan = Some (st1, out) /\
    wlsqva_store st1 0%nat 1%nat 20 (Some 2%nat) (fun _ _ => Fin 7) = Some (st2, out) /\
    out = wlsqva data4 rij4 20 (Some wgt4) all_nan /\
    preserved [ObjArray data4; ObjArray rij4; ObjList wgt4] st1 /\
    preserved [ObjArray data4; ObjArray rij4; ObjList wgt4] st2 /\
    read st2 0%nat = Some (ObjArray data4) /\
    read st2 1%nat = Some (ObjArray rij4) /\
    read_wgt st2 (Some 2%nat) = Some (Some wgt4).
Proof.
  apply (wlsqva_deterministic_pure
           [ObjArray data4; ObjArray rij4; ObjList wgt4] 0%nat 1%nat 20 (Some 2%nat)
           all_nan (fun _ _ => Fin 7) data4 rij4 (Some wgt4));
    reflexivity.
Defined.

(** ** Default weights *)

Lemma count_nonzero_ones n : count_nonzero (ones n) = n.
Proof.
  unfold count_nonzero, ones.
  assert (H : forall l : list nat,
             length (filter nonzero (map (fun _ => 1) l)) = length l).
  { induction l as [|x l IH]; simpl; [reflexivity|].
    unfold nonzero at 1. destruct (Req_dec_T 1 0); [lra|]. simpl.
    now rewrite IH. }
  now rewrite H, length_seq.
Qed.

Lemma ones_length n : length (ones n) = n.
Proof. unfold ones. now rewrite length_map, length_seq. Qed.

(** C8: leaving [wgt] out gives the call with [wgt] the list of [n] ones,
    component by component (and the same exception when validation fails). *)
Theorem wlsqva_default_wgt data rij hz g1 g2 :
  wlsqva data rij hz None g1
  = wlsqva data rij hz (Some (ones (shape1 rij))) g2.
Proof.
  rewrite (wlsqva_garbage data rij hz None g1 g2).
  unfold wlsqva.
  destruct (check_shapes data rij) eqn:E; [reflexivity|].
  apply check_shapes_none in E. destruct E as (E1 & E2 & E3).
  unfold check_wgt. rewrite ones_length, count_nonzero_ones, E1.
  rewrite Nat.eqb_refl. simpl.
  destruct (Nat.ltb_spec (shape1 rij) (shape0 rij + 1)); [lia|reflexivity].
Qed.

(** ** Evaluating the routine on the three-sensor example *)

Lemma xdiv_fin x y : y <> 0 -> xdiv x y = Fin (x / y).
Proof.
  intros H. unfold xdiv.
  destruct (Req_dec_T y 0); [contradiction|reflexivity].
Qed.

Ltac sqrt_one :=
  repeat match goal with
    | |- context [sqrt ?x] =>
        replace (sqrt x) with 1 by (replace x with 1 by lra; now rewrite sqrt_1)
    end.

Ltac rdec :=
  repeat match goal with
    | |- context [Rle_dec ?a ?b] => destruct (Rle_dec a b); try lra
    | |- context [Rlt_dec ?a ?b] => destruct (Rlt_dec a b); try lra
    | |- context [Req_dec_T ?a ?b] => destruct (Req_dec_T a b); try lra
    end.

Ltac xcorr_eval :=
  unfold xcorr_coeff, correlate_full, column, of_rows, py_sum, vmul, tabulate;
  simpl; sqrt_one; rewrite !xdiv_fin by lra; repeat f_equal; lra.

Lemma xcorr3_01 :
  xcorr_coeff (column data3 0) (column data3 1) = [Fin 0; Fin 0; Fin 1].
Proof. unfold data3. xcorr_eval. Qed.

Lemma xcorr3_02 :
  xcorr_coeff (column data3 0) (column data3 2) = [Fin 0; Fin 1; Fin 0].
Proof. unfold data3. xcorr_eval. Qed.

Lemma xcorr3_12 :
  xcorr_coeff (column data3 1) (column data3 2) = [Fin 1; Fin 0; Fin 0].
Proof. unfold data3. xcorr_eval. Qed.

Lemma idx3 : idx 3 (ones 3) = [(0%nat, 1%nat, 1); (0%nat, 2%nat, 1); (1%nat, 2%nat, 1)].
Proof. unfold idx, ones. simpl. repeat f_equal; lra. Qed.

Lemma py_mod_in x y z :
  0 < y -> IZR z * y <= x < (IZR z + 1) * y -> py_mod x y = x - y * IZR z.
Proof.
  intros Hy [H1 H2]. unfold py_mod. do 3 f_equal. symmetry.
  apply Int_part_spec. split.
  - apply Rmult_lt_reg_r with y; [assumption|].
    unfold Rdiv. rewrite Rmult_minus_distr_r, Rmult_assoc, Rinv_l by lra. lra.
  - apply Rmult_le_reg_r with y; [assumption|].
    unfold Rdiv. rewrite Rmult_assoc, Rinv_l by lra. lra.
Qed.

(** A slowness along the first axis has azimuth 90, one along the second
    axis azimuth 0. *)
Lemma az_first_axis s0 :
  0 < s0 -> py_mod (arctan2 s0 0 * 180 / PI - 360) 360 = 90.
Proof.
  intros H. unfold arctan2. rdec.
  replace (PI / 2 * 180 / PI - 360) with (-270)
    by (field; apply PI_neq0).
  rewrite (py_mod_in _ _ (-1)); lra.
Qed.

Lemma az_second_axis s0 :
  0 < s0 -> py_mod (arctan2 0 s0 * 180 / PI - 360) 360 = 0.
Proof.
  intros H. unfold arctan2. rdec.
  replace (0 / s0) with 0 by (field; lra). rewrite atan_0.
  replace (0 * 180 / PI - 360) with (-360) by (field; apply PI_neq0).
  rewrite (py_mod_in _ _ (-1)); lra.
Qed.

Lemma wlsqva_data3 g : wlsqva data3 rij3 1 None g = Return out3.
Proof.
  unfold wlsqva.
  change (check_shapes data3 rij3) with (@None error).
  unfold check_wgt. change (shape1 data3) with 3%nat.
  unfold estimate. change (shape1 rij3) with 3%nat.
  change (shape0 data3) with 2%nat. rewrite idx3.
  set (ix := [(0%nat, 1%nat, 1); (0%nat, 2%nat, 1); (1%nat, 2%nat, 1)]).
  change (2 =? 0)%nat with false. cbv iota.
  change (length ix) with 3%nat. change (2 * 2 - 1)%nat with 3%nat.
  set (cij := fill_cij data3 ix (W_mat ix) 3 g).
  assert (C0 : xcolumn cij 3 0 = [Fin 0; Fin 0; Fin 1]).
  { unfold cij. rewrite xcolumn_fill; [|lia|unfold W_mat, diag, pair_w; simpl; lra].
    change (pair_i ix 0) with 0%nat. change (pair_j ix 0) with 1%nat.
    rewrite xcorr3_01. reflexivity. }
  assert (C1 : xcolumn cij 3 1 = [Fin 0; Fin 1; Fin 0]).
  { unfold cij. rewrite xcolumn_fill; [|lia|unfold W_mat, diag, pair_w; simpl; lra].
    change (pair_i ix 1) with 0%nat. change (pair_j ix 1) with 2%nat.
    rewrite xcorr3_02. reflexivity. }
  assert (C2 : xcolumn cij 3 2 = [Fin 1; Fin 0; Fin 0]).
  { unfold cij. rewrite xcolumn_fill; [|lia|unfold W_mat, diag, pair_w; simpl; lra].
    change (pair_i ix 2) with 1%nat. change (pair_j ix 2) with 2%nat.
    rewrite xcorr3_12. reflexivity. }
  assert (T0 : tau_vec 2 1 cij 3 0%nat = -1).
  { unfold tau_vec, delay. rewrite C0. unfold argmax. simpl. unfold xle.
    rdec. simpl. lra. }
  assert (T1 : tau_vec 2 1 cij 3 1%nat = 0).
  { unfold tau_vec, delay. rewrite C1. unfold argmax. simpl. unfold xle.
    rdec. simpl. lra. }
  assert (T2 : tau_vec 2 1 cij 3 2%nat = 1).
  { unfold tau_vec, delay. rewrite C2. unfold argmax. simpl. unfold xle.
    rdec. simpl. lra. }
  assert (M : cmax_vec cij 3 (W_mat ix) 3 = [Fin 1; Fin 1; Fin 1]).
  { rewrite cmax_vec_eq. unfold tabulate. cbn [map seq]. rewrite C0, C1, C2.
    unfold W_mat, diag, pair_w, is_zero. simpl. rdec.
    unfold xmaximum, xle. simpl. rdec. reflexivity. }
  rewrite M. clear M C0 C1 C2.
  unfold solve. change (shape0 rij3) with 2%nat.
  change (length ix) with 3%nat. change (2 * 2 - 1)%nat with 3%nat.
  remember (tau_vec 2 1 cij 3) as tv. clear Heqtv cij.
  unfold inv.
  assert (D : det 2 (normal_matrix rij3 ix) = 3).
  { unfold det, det2, normal_matrix, X_p, matmul, transpose, W_mat, diag,
      xij_mat, pair_w, pair_i, pair_j, rij3, of_rows. simpl. lra. }
  destruct (Req_dec_T _ 0) as [E|_]; [lra|].
  unfold is_zero. destruct (Req_dec_T 1 0) as [E|_]; [lra|].
  set (Ainv := fun i j : nat => adj 2 (normal_matrix rij3 ix) i j
                                  / det 2 (normal_matrix rij3 ix)).
  assert (P0 : tau_p ix tv 0%nat = -1).
  { unfold tau_p, matvec, W_mat, diag, pair_w. simpl. rewrite T0. lra. }
  assert (P1 : tau_p ix tv 1%nat = 0).
  { unfold tau_p, matvec, W_mat, diag, pair_w. simpl. rewrite T1. lra. }
  assert (P2 : tau_p ix tv 2%nat = 1).
  { unfold tau_p, matvec, W_mat, diag, pair_w. simpl. rewrite T2. lra. }
  remember (tau_p ix tv) as tp. clear Heqtp T0 T1 T2 tv.
  assert (S0 : s_p 2 3 Ainv (X_p rij3 ix) tp 0%nat = 1).
  { unfold s_p, matvec, matmul, transpose, Ainv. rewrite D.
    unfold adj, adj2, normal_matrix, X_p, matmul, transpose, W_mat, diag,
      xij_mat, pair_w, pair_i, pair_j, rij3, of_rows. simpl.
    rewrite P0, P1, P2. lra. }
  assert (S1 : s_p 2 3 Ainv (X_p rij3 ix) tp 1%nat = 0).
  { unfold s_p, matvec, matmul, transpose, Ainv. rewrite D.
    unfold adj, adj2, normal_matrix, X_p, matmul, transpose, W_mat, diag,
      xij_mat, pair_w, pair_i, pair_j, rij3, of_rows. simpl.
    rewrite P0, P1, P2. lra. }
  assert (R0 : rss 2 3 Ainv (X_p rij3 ix) tp = 0).
  { unfold rss, dot, vecmat, msub, eye, matmul, transpose, Ainv. rewrite D.
    unfold adj, adj2, normal_matrix, X_p, matmul, transpose, W_mat, diag,
      xij_mat, pair_w, pair_i, pair_j, rij3, of_rows. simpl.
    rewrite P0, P1, P2. lra. }
  unfold sig_tau_p. rewrite R0. clear R0.
  remember (s_p 2 3 Ainv (X_p rij3 ix) tp) as sp.
  unfold out3. f_equal. f_equal.
  - unfold norm2. simpl. rewrite S0, S1. sqrt_one. rewrite xdiv_fin by lra.
    f_equal. lra.
  - unfold az_of. simpl. rewrite S0, S1. f_equal. apply az_first_axis. lra.
  - unfold tabulate. simpl. now rewrite P0, P1, P2.
  - unfold N_p. simpl. rewrite xdiv_fin by lra. unfold xsqrt_abs. f_equal.
    replace (0 / _) with 0 by lra. rewrite Rabs_R0. apply sqrt_0.
  - unfold tabulate. simpl. now rewrite S0, S1.
  - unfold tabulate, xij_mat, pair_i, pair_j, rij3, of_rows. simpl.
    repeat f_equal; lra.
Qed.

(** ** The canonical order of the pairs *)

Lemma idx_rows n w : idx n w = flat_map (row w n) (seq 0 (n - 1)).
Proof. reflexivity. Qed.

Lemma row_length w n i : length (row w n i) = (n - (i + 1))%nat.
Proof. unfold row. now rewrite length_map, length_seq. Qed.

Lemma rows_length w n a :
  (a <= n - 1)%nat ->
  length (flat_map (row w n) (seq 0 a)) = pairs_before_row n a.
Proof.
  induction a as [|a IH]; intros Ha; [reflexivity|].
  rewrite seq_S, flat_map_app, length_app. simpl.
  rewrite app_nil_r, row_length, IH by lia. lia.
Qed.

Lemma pairs_before_row_closed n a :
  (a <= n)%nat -> (2 * pairs_before_row n a + a * (a + 1) = 2 * a * n)%nat.
Proof.
  induction a as [|a IH]; intros Ha; simpl; [lia|].
  specialize (IH ltac:(lia)). nia.
Qed.

Lemma idx_length n w : length (idx n w) = (n * (n - 1) / 2)%nat.
Proof.
  rewrite idx_rows, rows_length by lia.
  destruct n as [|n]; [reflexivity|].
  replace (S n - 1)%nat with n by lia.
  pose proof (pairs_before_row_closed (S n) n ltac:(lia)) as H.
  apply Nat.div_unique_exact; nia.
Qed.

Lemma nth_map_seq {A} (f : nat -> A) a len k d :
  (k < len)%nat -> nth k (map f (seq a len)) d = f (a + k)%nat.
Proof.
  intros H. rewrite (nth_indep _ d (f O)) by now rewrite length_map, length_seq.
  rewrite (map_nth f (seq a len) O k), seq_nth by assumption. reflexivity.
Qed.

Lemma idx_at_pos n w i j :
  (i < j)%nat -> (j < n)%nat ->
  (pair_pos n i j < length (idx n w))%nat /\
  nth (pair_pos n i j) (idx n w) (O, O, 0) = (i, j, nth i w 0 * nth j w 0).
Proof.
  intros Hij Hj. unfold pair_pos.
  assert (Hsplit : seq 0 (n - 1) = seq 0 i ++ i :: seq (S i) (n - 1 - S i)).
  { replace (n - 1)%nat with (i + S (n - 1 - S i))%nat at 1 by lia.
    rewrite seq_app. reflexivity. }
  rewrite idx_rows, Hsplit, flat_map_app. simpl.
  rewrite length_app, length_app, rows_length, row_length by lia.
  split; [lia|].
  rewrite app_nth2; rewrite rows_length by lia; [|lia].
  replace (pairs_before_row n i + (j - i - 1) - pairs_before_row n i)%nat
    with (j - i - 1)%nat by lia.
  rewrite app_nth1 by (rewrite row_length; lia).
  unfold row. rewrite nth_map_seq by lia.
  replace (i + 1 + (j - i - 1))%nat with j by lia. reflexivity.
Qed.

Lemma StronglySorted_app {A} (R : A -> A -> Prop) l1 l2 :
  StronglySorted R l1 -> StronglySorted R l2 ->
  (forall x y, In x l1 -> In y l2 -> R x y) ->
  StronglySorted R (l1 ++ l2).
Proof.
  induction l1 as [|a l1 IH]; intros H1 H2 H; simpl; [assumption|].
  inversion H1; subst. constructor.
  - apply IH; auto. intros; apply H; simpl; auto.
  - apply Forall_app. split; [assumption|].
    apply Forall_forall. intros y Hy. apply H; simpl; auto.
Qed.

Lemma row_sorted_from w i a len :
  StronglySorted lex_lt
    (map fst (map (fun j => (i, j, nth i w 0 * nth j w 0)) (seq a len))).
Proof.
  revert a. induction len as [|len IH]; intros a; simpl.
  - constructor.
  - constructor; [apply IH|].
    apply Forall_forall. intros p Hp. rewrite map_map in Hp.
    apply in_map_iff in Hp.
    destruct Hp as (j & <- & Hj). apply in_seq in Hj.
    right. simpl. split; [reflexivity | lia].
Qed.

Lemma rows_sorted_from w n a len :
  StronglySorted lex_lt (map fst (flat_map (row w n) (seq a len))).
Proof.
  revert a. induction len as [|len IH]; intros a; simpl.
  - constructor.
  - rewrite map_app. apply StronglySorted_app.
    + apply row_sorted_from.
    + apply IH.
    + intros p q Hp Hq.
      apply in_map_iff in Hp. destruct Hp as ([[i j] x] & <- & Hp).
      apply in_map_iff in Hq. destruct Hq as ([[i' j'] x'] & <- & Hq).
      unfold row in Hp. apply in_map_iff in Hp.
      destruct Hp as (j0 & E & _). inversion E; subst.
      apply in_flat_map in Hq. destruct Hq as (b & Hb & Hq).
      unfold row in Hq. apply in_map_iff in Hq.
      destruct Hq as (j1 & E' & _). inversion E'; subst.
      apply in_seq in Hb. left. simpl. lia.
Qed.

Lemma pairs_sorted n w : StronglySorted lex_lt (pairs n w).
Proof. unfold pairs. rewrite idx_rows. apply rows_sorted_from. Qed.

Lemma in_pairs n w i j :
  In (i, j) (pairs n w) <-> (i < j)%nat /\ (j < n)%nat.
Proof.
  unfold pairs. rewrite in_map_iff. split.
  - intros ([[i' j'] x] & E & H). simpl in E. inversion E; subst.
    apply in_idx in H. tauto.
  - intros [H1 H2]. exists (i, j, nth i w 0 * nth j w 0). split; [reflexivity|].
    apply in_idx. auto.
Qed.

(** ** What a returning call returns *)

Lemma check_wgt_inr n dim wgt w N_w :
  (dim + 1 <= n)%nat ->
  check_wgt n dim wgt = inr (w, N_w) ->
  w = weights_of n wgt /\ length w = n /\ N_w = count_nonzero w /\
  (dim + 1 <= N_w)%nat.
Proof.
  intros Hn. unfold check_wgt, weights_of. destruct wgt as [w'|].
  - destruct (Nat.eqb_spec (length w') n) as [El|El]; simpl; [|discriminate].
    destruct (Nat.ltb_spec (count_nonzero w') (dim + 1)) as [Ec|Ec];
      [discriminate|].
    intros Hr; inversion Hr; subst. auto.
  - intros Hr; inversion Hr; subst.
    rewrite ones_length, count_nonzero_ones. auto.
Qed.

Lemma wlsqva_Return_inv data rij hz wgt g o :
  wlsqva data rij hz wgt g = Return o ->
  let n := shape1 rij in
  let dim := shape0 rij in
  let m := shape0 data in
  let w := weights_of n wgt in
  let ix := idx n w in
  let N := length ix in
  let cij := fill_cij data ix (W_mat ix) N g in
  let tp := tau_p ix (tau_vec m hz cij (m * 2 - 1)) in
  exists Ainv,
    shape1 data = n /\ (dim = 2 \/ dim = 3)%nat /\ length w = n /\
    (dim + 1 <= count_nonzero w)%nat /\
    m <> O /\ hz <> 0 /\
    inv dim (normal_matrix rij ix) = Some Ainv /\
    let sp := s_p dim N Ainv (X_p rij ix) tp in
    o = {| vel := xdiv 1 (norm2 dim sp);
           az := az_of dim sp;
           tau := tabulate N tp;
           cmax := cmax_vec cij (m * 2 - 1) (W_mat ix) N;
           sig_tau := sig_tau_p dim N (count_nonzero w) Ainv (X_p rij ix) tp;
           s := tabulate dim sp;
           xij := tabulate dim (fun r => tabulate N (xij_mat rij ix r)) |}.
Proof.
  unfold wlsqva. destruct (check_shapes data rij) eqn:Hs; [discriminate|].
  apply check_shapes_none in Hs. destruct Hs as (E1 & E2 & E3).
  destruct (check_wgt _ _ wgt) as [e|[w N_w]] eqn:Hw; [discriminate|].
  rewrite E1 in Hw.
  apply check_wgt_inr in Hw; [|assumption].
  destruct Hw as (-> & Hl & -> & Hc).
  unfold estimate. destruct (Nat.eqb_spec (shape0 data) 0); [discriminate|].
  unfold solve. destruct (inv _ _) as [Ainv|] eqn:Hi; [|discriminate].
  destruct (is_zero hz) eqn:Hz; [discriminate|].
  apply is_zero_false in Hz.
  intros H. inversion H; subst; clear H. simpl.
  exists Ainv. repeat split; auto.
Qed.

(** A call on checked input with at least one sample, a nonzero rate and a
    sensor geometry that is not degenerate returns. *)
Lemma wlsqva_returns data rij hz wgt g :
  check_shapes data rij = None ->
  (forall w, wgt = Some w ->
     length w = shape1 rij /\ (shape0 rij + 1 <= count_nonzero w)%nat) ->
  shape0 data <> O -> hz <> 0 ->
  det (shape0 rij)
      (normal_matrix rij (idx (shape1 rij) (weights_of (shape1 rij) wgt)))
    <> 0 ->
  exists o, wlsqva data rij hz wgt g = Return o.
Proof.
  intros Hs Hw Hm Hz Hd. unfold wlsqva. rewrite Hs.
  apply check_shapes_none in Hs. destruct Hs as (E1 & E2 & E3).
  assert (Hc : exists N_w, check_wgt (shape1 data) (shape0 rij) wgt
                           = inr (weights_of (shape1 rij) wgt, N_w)).
  { unfold check_wgt, weights_of. destruct wgt as [w|].
    - destruct (Hw w eq_refl) as [Hl Hc]. rewrite Hl, E1, Nat.eqb_refl. simpl.
      destruct (Nat.ltb_spec (count_nonzero w) (shape0 rij + 1)); [lia|].
      eexists; reflexivity.
    - rewrite E1. eexists; reflexivity. }
  destruct Hc as (N_w & ->).
  unfold estimate. destruct (Nat.eqb_spec (shape0 data) 0); [contradiction|].
  unfold solve, inv.
  destruct (Req_dec_T _ 0) as [E|_]; [contradiction|].
  apply is_zero_false in Hz. rewrite Hz. eexists; reflexivity.
Qed.

(** ** Pair order of the outputs *)

Lemma idx_pos_fields n w i j :
  (i < j)%nat -> (j < n)%nat ->
  let k := pair_pos n i j in
  (k < length (idx n w))%nat /\
  pair_i (idx n w) k = i /\ pair_j (idx n w) k = j /\
  pair_w (idx n w) k = nth i w 0 * nth j w 0.
Proof.
  intros Hij Hj k. destruct (idx_at_pos n w i j Hij Hj) as [Hk Hn].
  unfold pair_i, pair_j, pair_w. fold k in Hk, Hn. rewrite Hn. auto.
Qed.

(** ** Azimuth of an axis-aligned slowness *)

(** C1: when the slowness solution of a 2-D call is [[s0, 0]] with [s0 > 0]
    the returned azimuth is 90 degrees, and when it is [[0, s0]] the returned
    azimuth is 0 degrees: the formula measures the angle from the second
    coordinate towards the first. *)
Theorem az_of_axis_slowness data rij hz wgt g o s0 :
  wlsqva data rij hz wgt g = Return o ->
  0 < s0 ->
  (s o = [s0; 0] -> az o = AzScalar 90) /\
  (s o = [0; s0] -> az o = AzScalar 0).
Proof.
  intros H Hs0. apply wlsqva_Return_inv in H.
  destruct H as (Ainv & _ & Hdim & _ & _ & _ & _ & _ & Ho).
  cbv zeta in Ho. subst o. cbn [s az].
  set (sp := s_p _ _ _ _ _).
  split; intros Hs.
  - assert (Hd : shape0 rij = 2%nat).
    { apply (f_equal (@length R)) in Hs. rewrite tabulate_length in Hs.
      exact Hs. }
    rewrite Hd in *. unfold tabulate in Hs. simpl in Hs.
    inversion Hs as [[H0 H1]].
    unfold az_of. simpl. rewrite H0, H1. f_equal. now apply az_first_axis.
  - assert (Hd : shape0 rij = 2%nat).
    { apply (f_equal (@length R)) in Hs. rewrite tabulate_length in Hs.
      exact Hs. }
    rewrite Hd in *. unfold tabulate in Hs. simpl in Hs.
    inversion Hs as [[H0 H1]].
    unfold az_of. simpl. rewrite H0, H1. f_equal. now apply az_second_axis.
Qed.

Lemma az_of_axis_slowness_witness :
  wlsqva data3 rij3 1 None all_nan = Return out3 /\
  s out3 = [1; 0] /\ az out3 = AzScalar 90.
Proof.
  split; [apply wlsqva_data3|]. split; [reflexivity|].
  apply (proj1 (az_of_axis_slowness data3 rij3 1 None all_nan out3 1
                  (wlsqva_data3 all_nan) Rlt_0_1)).
  reflexivity.
Defined.

(** ** The returned delays *)

Lemma map_nth_seq_id {A} (l : list A) d :
  map (fun r => nth r l d) (seq 0 (length l)) = l.
Proof.
  induction l as [|x l IH]; [reflexivity|].
  simpl. f_equal. rewrite <- seq_shift, map_map. exact IH.
Qed.

Lemma column_length data j : length (column data j) = shape0 data.
Proof. unfold column. now rewrite length_map, length_seq. Qed.

Lemma xcorr_coeff_length a v :
  length (xcorr_coeff a v) = (length a + length v - 1)%nat.
Proof.
  unfold xcorr_coeff, correlate_full.
  now rewrite length_map, tabulate_length.
Qed.

(** The buffer column of a weighted pair, read back whole. *)
Lemma xcolumn_weighted data ix g k :
  (k < length ix)%nat -> pair_w ix k <> 0 -> shape0 data <> O ->
  xcolumn (fill_cij data ix (W_mat ix) (length ix) g) (shape0 data * 2 - 1) k
  = xcorr_coeff (column data (pair_i ix k)) (column data (pair_j ix k)).
Proof.
  intros Hk Hw Hm. rewrite xcolumn_fill by (rewrite ?W_mat_diag; assumption).
  set (col := xcorr_coeff _ _).
  replace (shape0 data * 2 - 1)%nat with (length col).
  - apply map_nth_seq_id.
  - unfold col. rewrite xcorr_coeff_length, !column_length. lia.
Qed.

(** Entry [k] of the returned [tau] is the delay of pair [k] times the
    weight of the pair. *)
Lemma returned_tau data rij hz wgt g o :
  wlsqva data rij hz wgt g = Return o ->
  let n := shape1 rij in
  let w := weights_of n wgt in
  forall i j, (i < j)%nat -> (j < n)%nat ->
    nth (pair_pos n i j) (tau o) 0
    = nth i w 0 * nth j w 0 * pair_tau data hz i j.
Proof.
  intros H n w i j Hij Hj. apply wlsqva_Return_inv in H.
  destruct H as (Ainv & _ & _ & _ & _ & Hm & _ & _ & Ho).
  cbv zeta in Ho. subst o. cbn [tau]. fold n w.
  destruct (idx_pos_fields n w i j Hij Hj) as (Hk & Hi & Hj' & Hw).
  set (k := pair_pos n i j) in *. set (ix := idx n w) in *.
  rewrite tabulate_nth by assumption.
  unfold tau_p. rewrite matvec_W by assumption. rewrite Hw.
  destruct (Req_dec_T (nth i w 0 * nth j w 0) 0) as [E|E].
  - rewrite E. lra.
  - f_equal. unfold tau_vec, delay, pair_tau.
    rewrite xcolumn_weighted by (rewrite ?Hw; assumption).
    now rewrite Hi, Hj'.
Qed.

(** Entry [k] of the returned [cmax] is the largest normalised correlation
    value of the two traces of pair [k], or zero where the pair has no
    weight. *)
Lemma returned_cmax data rij hz wgt g o :
  wlsqva data rij hz wgt g = Return o ->
  let n := shape1 rij in
  let w := weights_of n wgt in
  forall i j, (i < j)%nat -> (j < n)%nat ->
    nth (pair_pos n i j) (cmax o) NaN
    = if is_zero (nth i w 0 * nth j w 0) then Fin 0
      else xmax_list (xcorr_coeff (column data i) (column data j)).
Proof.
  intros H n w i j Hij Hj. apply wlsqva_Return_inv in H.
  destruct H as (Ainv & _ & _ & _ & _ & Hm & _ & _ & Ho).
  cbv zeta in Ho. subst o. cbn [cmax]. fold n w.
  destruct (idx_pos_fields n w i j Hij Hj) as (Hk & Hi & Hj' & Hw).
  rewrite cmax_vec_eq, tabulate_nth by assumption.
  rewrite W_mat_diag, Hw.
  destruct (is_zero _) eqn:E; [reflexivity|]. apply is_zero_false in E.
  rewrite xcolumn_weighted by (rewrite ?Hw; assumption).
  now rewrite Hi, Hj'.
Qed.

(** ** The outputs, pair by pair *)

(** C5: [tau], [cmax] and the columns of [xij] have one entry per unordered
    pair of sensors, [n(n-1)/2] in all; the pairs come in the order of a loop
    over [i] with an inner loop over [j > i] (sorted lexicographically, each
    pair [i < j < n] present, the pair [(i, j)] at position [pair_pos n i j]);
    and at that position the co-array column is [rij[:,i] - rij[:,j]] and the
    weight [wgt[i]*wgt[j]].  The weights are those the body of the routine
    runs with: the caller's [wgt], of length [n] with at least [dim+1]
    nonzero entries, or [n] ones when [wgt] is omitted.  The entries of [tau]
    and [cmax] at that position are those of the pair: the delay of traces
    [i] and [j] times [W[k,k]], and the largest normalised correlation value
    of traces [i] and [j] (zero where [W[k,k]] is zero). *)
Theorem pair_enumeration data rij hz wgt g o :
  wlsqva data rij hz wgt g = Return o ->
  let n := shape1 rij in
  let w := weights_of n wgt in
  let N := (n * (n - 1) / 2)%nat in
  length (tau o) = N /\ length (cmax o) = N /\
  length (xij o) = shape0 rij /\
  (forall r, (r < shape0 rij)%nat -> length (nth r (xij o) []) = N) /\
  length (pairs n w) = N /\
  StronglySorted lex_lt (pairs n w) /\
  (forall i j, In (i, j) (pairs n w) <-> (i < j)%nat /\ (j < n)%nat) /\
  (forall i j, (i < j)%nat -> (j < n)%nat ->
     let k := pair_pos n i j in
     (k < N)%nat /\ nth k (pairs n w) (O, O) = (i, j) /\
     (forall r, (r < shape0 rij)%nat ->
        nth k (nth r (xij o) []) 0 = at2 rij r i - at2 rij r j) /\
     W_mat (idx n w) k k = nth i w 0 * nth j w 0) /\
  check_wgt (shape1 data) (shape0 rij) wgt = inr (w, count_nonzero w) /\
  estimate data rij hz w (count_nonzero w) g = Return o /\
  length w = n /\ (shape0 rij + 1 <= count_nonzero w)%nat /\
  (forall i, (i < n)%nat ->
     nth i w 0 = match wgt with
                 | None => 1
                 | Some given => nth i given 0
                 end) /\
  (forall i j, (i < j)%nat -> (j < n)%nat ->
     let k := pair_pos n i j in
     nth k (idx n w) (O, O, 0) = (i, j, nth i w 0 * nth j w 0) /\
     nth k (tau o) 0 = W_mat (idx n w) k k * pair_tau data hz i j /\
     nth k (cmax o) NaN
     = if is_zero (W_mat (idx n w) k k) then Fin 0
       else xmax_list (xcorr_coeff (column data i) (column data j))).
Proof.
  intros H n w N.
  pose proof (returned_tau data rij hz wgt g o H) as Htau.
  pose proof (returned_cmax data rij hz wgt g o H) as Hcmax.
  cbv zeta in Htau, Hcmax. fold n w in Htau, Hcmax.
  assert (Hrun : check_wgt (shape1 data) (shape0 rij) wgt
                 = inr (w, count_nonzero w) /\
                 estimate data rij hz w (count_nonzero w) g = Return o).
  { revert H. unfold wlsqva.
    destruct (check_shapes data rij) eqn:Hs; [discriminate|].
    apply check_shapes_none in Hs. destruct Hs as (E1 & E2 & E3).
    destruct (check_wgt _ _ wgt) as [e|[w' N_w]] eqn:Hw; [discriminate|].
    rewrite E1 in Hw. pose proof Hw as Hw'.
    apply check_wgt_inr in Hw'; [|assumption].
    destruct Hw' as (-> & _ & -> & _). fold n w. intros H.
    split; [reflexivity|exact H]. }
  apply wlsqva_Return_inv in H.
  destruct H as (Ainv & _ & _ & Hlw & Hcw & _ & _ & _ & Ho).
  cbv zeta in Ho. fold n w in Ho, Hlw, Hcw.
  assert (HN : length (idx n w) = N) by apply idx_length.
  assert (Hlen : length (tau o) = N /\ length (cmax o) = N /\
                 length (xij o) = shape0 rij /\
                 (forall r, (r < shape0 rij)%nat ->
                    length (nth r (xij o) []) = N) /\
                 (forall i j r, (i < j)%nat -> (j < n)%nat ->
                    (r < shape0 rij)%nat ->
                    nth (pair_pos n i j) (nth r (xij o) []) 0
                    = at2 rij r i - at2 rij r j)).
  { rewrite Ho. cbn [tau cmax xij]. rewrite HN.
    unfold cmax_vec, zero_unweighted, col_max. rewrite !tabulate_length.
    repeat match goal with |- _ /\ _ => split end; try reflexivity.
    - intros r Hr. rewrite tabulate_nth by assumption. apply tabulate_length.
    - intros i j r Hij Hj Hr.
      destruct (idx_pos_fields n w i j Hij Hj) as (Hk & Hi & Hj' & _).
      rewrite HN in Hk. rewrite tabulate_nth by assumption.
      rewrite tabulate_nth by assumption.
      unfold xij_mat. now rewrite Hi, Hj'. }
  destruct Hlen as (L1 & L2 & L3 & L4 & L5).
  assert (Hat : forall i j, (i < j)%nat -> (j < n)%nat ->
            nth (pair_pos n i j) (idx n w) (O, O, 0)
            = (i, j, nth i w 0 * nth j w 0)).
  { intros i j Hij Hj.
    destruct (idx_pos_fields n w i j Hij Hj) as (_ & Hi & Hj' & Hw).
    unfold pair_i, pair_j, pair_w in Hi, Hj', Hw.
    destruct (nth (pair_pos n i j) (idx n w) (O, O, 0)) as [[a b] x].
    simpl in *. congruence. }
  repeat match goal with |- _ /\ _ => split end;
    try assumption; try apply Hrun.
  - unfold pairs. now rewrite length_map.
  - apply pairs_sorted.
  - intros i j. apply in_pairs.
  - intros i j Hij Hj.
    destruct (idx_pos_fields n w i j Hij Hj) as (Hk & _ & _ & _).
    rewrite HN in Hk. cbv zeta.
    repeat match goal with |- _ /\ _ => split end.
    + exact Hk.
    + unfold pairs. change (O, O) with (fst (O, O, 0)). rewrite map_nth.
      now rewrite Hat.
    + intros r Hr. now apply L5.
    + rewrite W_mat_diag. unfold pair_w. now rewrite Hat.
  - intros i Hi. unfold w, weights_of. destruct wgt as [given|];
      [reflexivity|].
    unfold ones. rewrite nth_map_seq by assumption. reflexivity.
  - intros i j Hij Hj.
    assert (HW : W_mat (idx n w) (pair_pos n i j) (pair_pos n i j)
                 = nth i w 0 * nth j w 0).
    { rewrite W_mat_diag. unfold pair_w. now rewrite Hat. }
    cbv zeta. rewrite HW.
    repeat match goal with |- _ /\ _ => split end.
    + now apply Hat.
    + now apply Htau.
    + now apply Hcmax.
Qed.

Lemma pair_enumeration_witness :
  length (tau out3) = 3%nat /\ length (cmax out3) = 3%nat /\
  length (xij out3) = 2%nat /\
  nth 2 (pairs 3 (ones 3)) (O, O) = (1, 2)%nat /\
  nth 2 (nth 0 (xij out3) []) 0 = at2 rij3 0 1 - at2 rij3 0 2 /\
  nth 2 (tau out3) 0
  = W_mat (idx 3 (ones 3)) 2%nat 2%nat * pair_tau data3 1 1 2 /\
  nth 2 (cmax out3) NaN
  = (if is_zero (W_mat (idx 3 (ones 3)) 2%nat 2%nat) then Fin 0
     else xmax_list (xcorr_coeff (column data3 1) (column data3 2))).
Proof.
  destruct (pair_enumeration data3 rij3 1 None all_nan out3
              (wlsqva_data3 all_nan))
    as (H1 & H2 & H3 & _ & _ & _ & _ & H4 & _ & _ & _ & _ & _ & H7).
  destruct (H4 1%nat 2%nat ltac:(lia) ltac:(simpl; lia)) as (_ & H5 & H6 & _).
  destruct (H7 1%nat 2%nat ltac:(lia) ltac:(simpl; lia)) as (_ & H8 & H9).
  exact (conj H1 (conj H2 (conj H3 (conj H5
           (conj (H6 0%nat ltac:(simpl; lia)) (conj H8 H9)))))).
Defined.

(** C2: what the routine returns as [tau] is the auxiliary array
    [tau_p = W@tau] and not the delays [tau = (m - delay)/hz] that its
    docstring describes: the entry of the pair [(i, j)] is
    [wgt[i]*wgt[j]*(m - delay)/hz].  It is the delay itself only where the
    pair weight is one, and is zero where a weight is zero. *)
Theorem tau_is_weighted data rij hz wgt g o :
  wlsqva data rij hz wgt g = Return o ->
  let n := shape1 rij in
  let w := weights_of n wgt in
  forall i j, (i < j)%nat -> (j < n)%nat ->
    nth (pair_pos n i j) (tau o) 0
    = nth i w 0 * nth j w 0 * pair_tau data hz i j
    /\ (nth i w 0 * nth j w 0 = 1 ->
        nth (pair_pos n i j) (tau o) 0 = pair_tau data hz i j)
    /\ (nth i w 0 = 0 \/ nth j w 0 = 0 ->
        nth (pair_pos n i j) (tau o) 0 = 0).
Proof.
  intros H n w i j Hij Hj.
  pose proof (returned_tau data rij hz wgt g o H i j Hij Hj) as E.
  fold n w in E. rewrite E. repeat split.
  - intros ->. lra.
  - intros [-> | ->]; lra.
Qed.

Lemma tau_is_weighted_witness :
  nth (pair_pos 3 0 1) (tau out3) 0
    = nth 0 (ones 3) 0 * nth 1 (ones 3) 0 * pair_tau data3 1 0 1
  /\ (nth 0 (ones 3) 0 * nth 1 (ones 3) 0 = 1 ->
      nth (pair_pos 3 0 1) (tau out3) 0 = pair_tau data3 1 0 1)
  /\ (nth 0 (ones 3) 0 = 0 \/ nth 1 (ones 3) 0 = 0 ->
      nth (pair_pos 3 0 1) (tau out3) 0 = 0).
Proof.
  exact (tau_is_weighted data3 rij3 1 None all_nan out3
           (wlsqva_data3 all_nan) 0%nat 1%nat ltac:(lia) ltac:(simpl; lia)).
Defined.

Lemma pair_tau3_01 : pair_tau data3 1 0 1 = -1.
Proof.
  unfold pair_tau. rewrite xcorr3_01. unfold argmax. simpl. unfold xle.
  rdec. simpl. lra.
Qed.

Lemma wlsqva_wgt3_returns g :
  exists o, wlsqva data3 rij3 1 (Some wgt3) g = Return o.
Proof.
  apply wlsqva_returns.
  - reflexivity.
  - intros w Hw. inversion Hw; subst. split; [reflexivity|].
    unfold count_nonzero, wgt3, nonzero. simpl. rdec. simpl. lia.
  - discriminate.
  - lra.
  - unfold det, det2, normal_matrix, X_p, matmul, transpose, W_mat, diag,
      xij_mat, pair_w, pair_i, pair_j, rij3, of_rows, idx, weights_of, wgt3.
    simpl. lra.
Qed.

(** With the first sensor weighted 2, the first returned entry of [tau] is
    twice the delay of the pair: -2 where the time delay of the arrivals at
    sensors 0 and 1 is -1. *)
Lemma tau_unscaled_counterexample :
  exists o, wlsqva data3 rij3 1 (Some wgt3) all_nan = Return o /\
            nth 0 (tau o) 0 = -2 /\ pair_tau data3 1 0 1 = -1 /\
            nth 0 (tau o) 0 <> pair_tau data3 1 0 1.
Proof.
  destruct (wlsqva_wgt3_returns all_nan) as (o & Ho).
  exists o. split; [assumption|].
  pose proof (returned_tau _ _ _ _ _ _ Ho 0%nat 1%nat
                ltac:(lia) ltac:(simpl; lia)) as E.
  change (shape1 rij3) with 3%nat in E.
  change (pair_pos 3 0 1) with O in E. rewrite E, pair_tau3_01.
  unfold weights_of, wgt3. simpl. repeat split; lra.
Qed.

(** ** The delay uncertainty *)

Lemma N_p_minus_dim N_w dim :
  (dim = 2 \/ dim = 3)%nat -> (dim + 1 <= N_w)%nat ->
  1 <= N_p N_w - INR dim.
Proof.
  intros Hd Hn. unfold N_p.
  assert (Hl : INR (dim + 1) <= INR N_w) by (apply le_INR; assumption).
  rewrite plus_INR in Hl. simpl in Hl.
  destruct Hd as [-> | ->]; simpl in *; nra.
Qed.

Lemma N_p_minimum dim :
  (dim = 2 \/ dim = 3)%nat ->
  N_p (dim + 1) - INR dim = if (dim =? 2)%nat then 1 else 3.
Proof. intros [-> | ->]; unfold N_p; simpl; lra. Qed.

Lemma rss_ext d N B B' X X' tp tp' :
  (forall a b, B' a b = B a b) ->
  (forall l q, (q < d)%nat -> X' l q = X l q) ->
  (forall l, (l < N)%nat -> tp' l = tp l) ->
  rss d N B' X' tp' = rss d N B X tp.
Proof.
  intros HB HX Ht. unfold rss, dot, vecmat, msub, matmul, transpose.
  apply rsum_ext. intros l Hl. rewrite Ht by assumption. f_equal.
  apply rsum_ext. intros q Hq. rewrite Ht by assumption. do 2 f_equal.
  apply rsum_ext. intros a Ha. rewrite HX by assumption. f_equal.
  apply rsum_ext. intros b Hb. now rewrite HB, HX.
Qed.

(** C3 as the code has it: on checked input at least [dim+1] traces carry
    weight, so the divisor [N_p - dim] is at least one and the returned
    [sig_tau] is the number [sqrt(|rss / (N_p - dim)|)], [rss] the quadratic
    form [tau_p @ (eye(N) - X_p @ inv(X_p.T@X_p) @ X_p.T) @ tau_p] of the
    returned delays; with exactly [dim+1] weighted traces the divisor is 1 in
    two dimensions and 3 in three. *)
Theorem sig_tau_is_a_number data rij hz wgt g o :
  wlsqva data rij hz wgt g = Return o ->
  let dim := shape0 rij in
  let w := weights_of (shape1 rij) wgt in
  let N_w := count_nonzero w in
  let ix := idx (shape1 rij) w in
  1 <= N_p N_w - INR dim /\
  (exists Ainv,
     inv dim (normal_matrix rij ix) = Some Ainv /\
     sig_tau o
     = Fin (sqrt (Rabs (rss dim (length ix) Ainv (X_p rij ix)
                            (fun k => nth k (tau o) 0)
                        / (N_p N_w - INR dim))))) /\
  ~ undefined_value (sig_tau o) /\
  (N_w = (dim + 1)%nat ->
   N_p N_w - INR dim = if (dim =? 2)%nat then 1 else 3).
Proof.
  intros H dim w N_w ix. apply wlsqva_Return_inv in H.
  destruct H as (Ainv & _ & Hdim & _ & Hc & _ & _ & HB & Ho).
  cbv zeta in Ho, HB. subst o. cbn [sig_tau tau].
  fold dim w N_w ix in Hc, Hdim, HB |- *.
  pose proof (N_p_minus_dim N_w dim Hdim Hc) as Hp.
  unfold sig_tau_p. rewrite xdiv_fin by lra. simpl.
  repeat split.
  - exact Hp.
  - exists Ainv. split; [exact HB|]. do 4 f_equal.
    apply rss_ext; auto. intros l Hl. now rewrite tabulate_nth.
  - auto.
  - intros ->. now apply N_p_minimum.
Qed.

Lemma sig_tau_is_a_number_witness :
  1 <= N_p (count_nonzero (weights_of (shape1 rij3) None)) - INR (shape0 rij3)
  /\ (exists Ainv,
        inv (shape0 rij3)
            (normal_matrix rij3
               (idx (shape1 rij3) (weights_of (shape1 rij3) None)))
        = Some Ainv /\
        sig_tau out3
        = Fin (sqrt (Rabs (rss (shape0 rij3)
                               (length (idx (shape1 rij3)
                                          (weights_of (shape1 rij3) None)))
                               Ainv
                               (X_p rij3
                                  (idx (shape1 rij3)
                                     (weights_of (shape1 rij3) None)))
                               (fun k => nth k (tau out3) 0)
                           / (N_p (count_nonzero
                                     (weights_of (shape1 rij3) None))
                              - INR (shape0 rij3))))))
  /\ ~ undefined_value (sig_tau out3)
  /\ (count_nonzero (weights_of (shape1 rij3) None) = (shape0 rij3 + 1)%nat ->
      N_p (count_nonzero (weights_of (shape1 rij3) None)) - INR (shape0 rij3)
      = if (shape0 rij3 =? 2)%nat then 1 else 3).
Proof.
  exact (sig_tau_is_a_number data3 rij3 1 None all_nan out3
           (wlsqva_data3 all_nan)).
Defined.

(** Three sensors in two dimensions, every weight one: [sig_tau] is 0. *)
Lemma sig_tau_minimum_counterexample :
  wlsqva data3 rij3 1 None all_nan = Return out3 /\
  shape1 rij3 = (shape0 rij3 + 1)%nat /\
  count_nonzero (weights_of (shape1 rij3) None) = shape1 rij3 /\
  N_p 3 <> INR (shape0 rij3) /\
  sig_tau out3 = Fin 0 /\
  ~ undefined_value (sig_tau out3).
Proof.
  split; [apply wlsqva_data3|]. split; [reflexivity|].
  split; [apply count_nonzero_ones|].
  split; [unfold N_p; simpl; lra|].
  split; [reflexivity|]. simpl. auto.
Qed.

(** ** Excluded traces *)

(** C6: with the weight of sensor [t] zero, the call does not depend on the
    trace of sensor [t]: replacing that column of [data] by any other values
    gives the same outcome, the slowness [s] in particular; and [cmax] is 0 at
    every pair that involves [t]. *)
Theorem zero_weight_excluded data data' rij hz w g g' t :
  shape0 data' = shape0 data ->
  shape1 data' = shape1 data ->
  (forall r c, c <> t -> at2 data' r c = at2 data r c) ->
  nth t w 0 = 0 ->
  wlsqva data' rij hz (Some w) g' = wlsqva data rij hz (Some w) g /\
  (forall o o',
     wlsqva data rij hz (Some w) g = Return o ->
     wlsqva data' rij hz (Some w) g' = Return o' -> s o' = s o) /\
  (forall o, wlsqva data rij hz (Some w) g = Return o ->
     forall i j, (i < j)%nat -> (j < shape1 rij)%nat -> i = t \/ j = t ->
       nth (pair_pos (shape1 rij) i j) (cmax o) NaN = Fin 0).
Proof.
  intros Hm Hn Hcol Ht.
  assert (E : wlsqva data' rij hz (Some w) g' = wlsqva data rij hz (Some w) g).
  { unfold wlsqva, check_shapes. rewrite Hn.
    destruct (negb _); [reflexivity|].
    destruct (_ <? _)%nat; [reflexivity|].
    destruct (_ || _); [reflexivity|].
    destruct (check_wgt _ _ _) as [e|[w' N_w]] eqn:Hw; [reflexivity|].
    assert (w' = w).
    { unfold check_wgt in Hw. destruct (negb _); [discriminate|].
      destruct (_ <? _)%nat; [discriminate|]. now inversion Hw. }
    subst w'. apply estimate_ext; [assumption|].
    intros k Hk Hw0.
    destruct (idx_nth _ _ k Hk) as (_ & _ & Hpw). rewrite Hpw in Hw0.
    assert (pair_i (idx (shape1 rij) w) k <> t)
      by (intros Hx; apply Hw0; rewrite Hx, Ht; lra).
    assert (pair_j (idx (shape1 rij) w) k <> t)
      by (intros Hx; apply Hw0; rewrite Hx, Ht; lra).
    unfold column. rewrite Hm.
    split; apply map_ext; intros r; now apply Hcol. }
  split; [exact E|]. split.
  - intros o o' Ho Ho'. rewrite E, Ho in Ho'. now inversion Ho'.
  - intros o Ho i j Hij Hj Hmem. apply wlsqva_Return_inv in Ho.
    destruct Ho as (Ainv & _ & _ & _ & _ & _ & _ & _ & Ho).
    cbv zeta in Ho. subst o. cbn [cmax]. unfold weights_of.
    destruct (idx_pos_fields (shape1 rij) w i j Hij Hj) as (Hk & _ & _ & Hw).
    rewrite cmax_vec_eq, tabulate_nth by assumption.
    rewrite W_mat_diag, Hw.
    replace (nth i w 0 * nth j w 0) with 0
      by (destruct Hmem; subst; rewrite Ht; lra).
    unfold is_zero. rdec. reflexivity.
Qed.

Lemma zero_weight_excluded_witness :
  (exists o, wlsqva data4 rij4 20 (Some wgt4) all_nan = Return o) /\
  wlsqva data4' rij4 20 (Some wgt4) all_nan
  = wlsqva data4 rij4 20 (Some wgt4) all_nan /\
  (forall o o',
     wlsqva data4 rij4 20 (Some wgt4) all_nan = Return o ->
     wlsqva data4' rij4 20 (Some wgt4) all_nan = Return o' -> s o' = s o) /\
  (forall o, wlsqva data4 rij4 20 (Some wgt4) all_nan = Return o ->
     forall i j, (i < j)%nat -> (j < shape1 rij4)%nat -> i = 2%nat \/ j = 2%nat ->
       nth (pair_pos (shape1 rij4) i j) (cmax o) NaN = Fin 0).
Proof.
  split.
  - apply wlsqva_returns.
    + reflexivity.
    + intros w Hw. inversion Hw; subst. split; [reflexivity|].
      unfold count_nonzero, wgt4, nonzero. simpl. rdec. simpl. lia.
    + discriminate.
    + lra.
    + unfold det, det2, normal_matrix, X_p, matmul, transpose, W_mat, diag,
        xij_mat, pair_w, pair_i, pair_j, rij4, of_rows, idx, weights_of, wgt4.
      simpl. lra.
  - apply (zero_weight_excluded data4 data4' rij4 20 wgt4 all_nan all_nan 2).
    + reflexivity.
    + reflexivity.
    + intros r c Hc. unfold data4, data4', of_rows. simpl.
      destruct r as [|[|r]]; destruct c as [|[|[|[|c]]]];
        try reflexivity; try congruence; destruct c; reflexivity.
    + reflexivity.
Defined.

(** ** Normalisation of the cross-correlation *)

Lemma py_sum_rsum l : py_sum l = rsum (length l) (fun n => nth n l 0).
Proof.
  unfold py_sum. induction l as [|x l IH] using rev_ind; [reflexivity|].
  rewrite fold_left_app, length_app, Nat.add_comm. simpl. rewrite IH.
  rewrite nth_middle. f_equal. apply rsum_ext. intros n Hn.
  now rewrite app_nth1.
Qed.

Lemma vmul_length a : length (vmul a a) = length a.
Proof.
  unfold vmul. rewrite length_map, length_combine. apply Nat.min_id.
Qed.

Lemma vmul_nth a n : nth n (vmul a a) 0 = nth n a 0 * nth n a 0.
Proof.
  unfold vmul. destruct (Nat.lt_ge_cases n (length a)) as [H|H].
  - rewrite (nth_indep _ 0 ((fun p => fst p * snd p) (0, 0)))
      by (rewrite length_map, length_combine, Nat.min_id; assumption).
    rewrite (map_nth (fun p => fst p * snd p) (combine a a) (0, 0) n).
    now rewrite combine_nth.
  - rewrite !nth_overflow; try assumption; [lra|].
    rewrite length_map, length_combine, Nat.min_id. assumption.
Qed.

Lemma energy_rsum a :
  energy a = rsum (length a) (fun n => nth n a 0 * nth n a 0).
Proof.
  unfold energy. rewrite py_sum_rsum, vmul_length.
  apply rsum_ext. intros n _. apply vmul_nth.
Qed.

Lemma rsum_nonneg n f : (forall l, (l < n)%nat -> 0 <= f l) -> 0 <= rsum n f.
Proof.
  induction n as [|n IH]; intros H; simpl; [lra|].
  specialize (IH ltac:(intros; apply H; lia)).
  specialize (H n ltac:(lia)). lra.
Qed.

Lemma energy_nonneg a : 0 <= energy a.
Proof.
  rewrite energy_rsum. apply rsum_nonneg. intros l _. nra.
Qed.

(** The zero-lag entry of the full correlation of a trace with itself is its
    energy. *)
Lemma correlate_zero_lag a :
  a <> [] -> nth (length a - 1) (correlate_full a a) 0 = energy a.
Proof.
  intros Ha. assert (0 < length a)%nat by (destruct a; simpl; [congruence|lia]).
  unfold correlate_full. rewrite tabulate_nth by lia.
  rewrite energy_rsum. apply rsum_ext. intros n Hn.
  replace (n + (length a - 1) - (length a - 1))%nat with n by lia.
  destruct (Nat.leb_spec (length a - 1) (n + (length a - 1))); [|lia].
  destruct (Nat.ltb_spec n (length a)); [|lia]. reflexivity.
Qed.

Lemma xcorr_coeff_zero_lag a :
  energy a <> 0 -> nth (length a - 1) (xcorr_coeff a a) NaN = Fin 1.
Proof.
  intros He.
  assert (Ha : a <> []) by (intros ->; apply He; reflexivity).
  assert (0 < length a)%nat by (destruct a; simpl; [congruence|lia]).
  unfold xcorr_coeff. fold (energy a).
  set (f := fun c => xdiv c (sqrt (energy a * energy a))).
  rewrite (nth_indep _ NaN (f 0))
    by (rewrite length_map; unfold correlate_full;
        rewrite tabulate_length; lia).
  rewrite (map_nth f (correlate_full a a) 0 (length a - 1)).
  rewrite correlate_zero_lag by assumption. unfold f.
  rewrite sqrt_square by apply energy_nonneg.
  rewrite xdiv_fin by assumption. f_equal. now field.
Qed.

(** C7: at a pair that carries weight and whose two traces are the same
    trace of nonzero energy, the correlation buffer holds 1 at the zero-lag
    row [m - 1], the normalised column being the full correlation over
    [sqrt(energy * energy)]. *)
Theorem autocorrelation_unit data rij w g i j :
  let n := shape1 rij in
  let ix := idx n w in
  let a := column data i in
  (i < j)%nat -> (j < n)%nat ->
  nth i w 0 * nth j w 0 <> 0 ->
  column data j = a ->
  energy a <> 0 ->
  xcorr_coeff a a
  = map (fun c => xdiv c (sqrt (energy a * energy a))) (correlate_full a a)
  /\ fill_cij data ix (W_mat ix) (length ix) g
       (shape0 data - 1)%nat (pair_pos n i j) = Fin 1.
Proof.
  intros n ix a Hij Hj Hw Hc He. split; [reflexivity|].
  destruct (idx_pos_fields n w i j Hij Hj) as (Hk & Hi & Hj' & Hpw).
  fold ix in Hk, Hi, Hj', Hpw.
  rewrite fill_cij_at.
  replace (pair_pos n i j <? length ix)%nat with true
    by (symmetry; apply Nat.ltb_lt; assumption).
  rewrite W_mat_diag, Hpw. unfold nonzero.
  destruct (Req_dec_T _ 0) as [E|_]; [contradiction|]. simpl.
  rewrite Hi, Hj', Hc. fold a.
  replace (shape0 data) with (length a) by apply column_length.
  now apply xcorr_coeff_zero_lag.
Qed.

Lemma autocorrelation_unit_witness :
  xcorr_coeff (column data3 0) (column data3 0)
  = map (fun c => xdiv c (sqrt (energy (column data3 0)
                                * energy (column data3 0))))
        (correlate_full (column data3 0) (column data3 0))
  /\ fill_cij data3 (idx 3 (ones 3)) (W_mat (idx 3 (ones 3)))
       (length (idx 3 (ones 3))) all_nan (shape0 data3 - 1)%nat
       (pair_pos 3 0 2)
     = Fin 1.
Proof.
  apply (autocorrelation_unit data3 rij3 (ones 3) all_nan 0 2).
  - lia.
  - simpl. lia.
  - simpl. lra.
  - reflexivity.
  - unfold energy, py_sum, vmul, column, data3, of_rows. simpl. lra.
Defined.

(** ** Scaling the weights *)

Lemma scale_wgt_nth c w i : nth i (scale_wgt c w) 0 = c * nth i w 0.
Proof.
  unfold scale_wgt. replace 0 with (c * 0) at 1 by lra.
  apply (map_nth (Rmult c)).
Qed.

Lemma scale_wgt_length c w : length (scale_wgt c w) = length w.
Proof. apply length_map. Qed.

Lemma scale_wgt_count c w :
  c <> 0 -> count_nonzero (scale_wgt c w) = count_nonzero w.
Proof.
  intros Hc. unfold count_nonzero, scale_wgt.
  induction w as [|x w IH]; [reflexivity|]. simpl.
  assert (Hx : nonzero (c * x) = nonzero x).
  { unfold nonzero.
    destruct (Req_dec_T (c * x) 0) as [E|E], (Req_dec_T x 0) as [E'|E'];
      try reflexivity; exfalso.
    - apply Rmult_integral in E. destruct E; contradiction.
    - apply E. rewrite E'. lra. }
  rewrite Hx. destruct (nonzero x); simpl; now rewrite IH.
Qed.

Lemma pairs_indep n w w' : pairs n w = pairs n w'.
Proof.
  unfold pairs, idx. generalize (seq 0 (n - 1)) as l.
  induction l as [|i l IH]; [reflexivity|]. simpl.
  rewrite !map_app, IH, !map_map. reflexivity.
Qed.

Lemma idx_length_indep n w w' : length (idx n w) = length (idx n w').
Proof. now rewrite !idx_length. Qed.

Lemma pair_i_pairs n w k : pair_i (idx n w) k = fst (nth k (pairs n w) (O, O)).
Proof.
  unfold pair_i, pairs. change (O, O) with (fst (O, O, 0)).
  now rewrite map_nth.
Qed.

Lemma pair_j_pairs n w k : pair_j (idx n w) k = snd (nth k (pairs n w) (O, O)).
Proof.
  unfold pair_j, pairs. change (O, O) with (fst (O, O, 0)).
  now rewrite map_nth.
Qed.

Lemma pair_i_indep n w w' k : pair_i (idx n w') k = pair_i (idx n w) k.
Proof. now rewrite !pair_i_pairs, (pairs_indep n w' w). Qed.

Lemma pair_j_indep n w w' k : pair_j (idx n w') k = pair_j (idx n w) k.
Proof. now rewrite !pair_j_pairs, (pairs_indep n w' w). Qed.

Lemma pair_w_scale n c w k :
  pair_w (idx n (scale_wgt c w)) k = c * c * pair_w (idx n w) k.
Proof.
  destruct (Nat.lt_ge_cases k (length (idx n w))) as [Hk|Hk].
  - destruct (idx_nth n w k Hk) as (_ & _ & ->).
    rewrite (idx_length_indep n w (scale_wgt c w)) in Hk.
    destruct (idx_nth n (scale_wgt c w) k Hk) as (_ & _ & ->).
    rewrite !scale_wgt_nth, (pair_i_indep n w), (pair_j_indep n w). ring.
  - unfold pair_w. rewrite !nth_overflow;
      [simpl; lra | assumption |].
    now rewrite <- (idx_length_indep n w).
Qed.

Lemma matmul_diag_out n d A k j :
  (n <= k)%nat -> matmul n (diag d) A k j = 0.
Proof.
  intros Hk. unfold matmul. apply rsum_zero. intros l Hl. unfold diag.
  destruct (Nat.eqb_spec k l); [lia|lra].
Qed.

Lemma X_p_entry rij ix k j :
  X_p rij ix k j
  = if (k <? length ix)%nat then pair_w ix k * xij_mat rij ix j k else 0.
Proof.
  unfold X_p, W_mat. destruct (Nat.ltb_spec k (length ix)).
  - now rewrite matmul_diag.
  - now apply matmul_diag_out.
Qed.

Lemma X_p_scale rij n c w k j :
  X_p rij (idx n (scale_wgt c w)) k j = c * c * X_p rij (idx n w) k j.
Proof.
  rewrite !X_p_entry, <- (idx_length_indep n w).
  destruct (_ <? _)%nat; [|lra].
  rewrite pair_w_scale. unfold xij_mat.
  rewrite (pair_i_indep n w), (pair_j_indep n w). ring.
Qed.

Lemma normal_matrix_scale rij n c w i j :
  normal_matrix rij (idx n (scale_wgt c w)) i j
  = (c * c) * (c * c) * normal_matrix rij (idx n w) i j.
Proof.
  unfold normal_matrix, matmul, transpose.
  rewrite <- (idx_length_indep n w), <- rsum_scale.
  apply rsum_ext. intros l _. rewrite !X_p_scale. ring.
Qed.

Lemma det_scale d A A' k :
  (d = 2 \/ d = 3)%nat -> (forall i j, A' i j = k * A i j) ->
  det d A' = k ^ d * det d A.
Proof.
  intros [-> | ->] H; unfold det, det2, det3, cof3; simpl; rewrite !H; ring.
Qed.

Lemma adj_scale d A A' k i j :
  (d = 2 \/ d = 3)%nat -> (forall i j, A' i j = k * A i j) ->
  adj d A' i j = k ^ (d - 1) * adj d A i j.
Proof.
  intros [-> | ->] H; unfold adj; simpl.
  - unfold adj2. destruct i as [|[|i]], j as [|[|j]]; rewrite ?H; ring.
  - unfold adj3, cof3. destruct (_ && _); [rewrite !H|]; ring.
Qed.

Lemma inv_Some d A B :
  inv d A = Some B ->
  det d A <> 0 /\ forall i j, B i j = adj d A i j / det d A.
Proof.
  unfold inv. destruct (Req_dec_T (det d A) 0); [discriminate|].
  intros H; inversion H; subst. auto.
Qed.

Lemma inv_scale d A A' B B' k :
  (d = 2 \/ d = 3)%nat -> k <> 0 -> (forall i j, A' i j = k * A i j) ->
  inv d A = Some B -> inv d A' = Some B' ->
  forall i j, B' i j = B i j / k.
Proof.
  intros Hd Hk HA HB HB' i j.
  apply inv_Some in HB. apply inv_Some in HB'.
  destruct HB as [D E], HB' as [D' E'].
  rewrite E, E'. rewrite (adj_scale d A A' k i j Hd HA).
  rewrite (det_scale d A A' k Hd HA) in *.
  destruct Hd as [-> | ->]; simpl in *; field; auto.
Qed.

Lemma sqrt_abs_scale k r :
  0 <= k -> sqrt (Rabs (k * k * r)) = k * sqrt (Rabs r).
Proof.
  intros Hk. rewrite Rabs_mult, (Rabs_pos_eq (k * k)) by nra.
  rewrite sqrt_mult by (try nra; apply Rabs_pos).
  now rewrite sqrt_square.
Qed.

Lemma W_nonzero_scale n c w k :
  c <> 0 ->
  (pair_w (idx n (scale_wgt c w)) k <> 0 <-> pair_w (idx n w) k <> 0).
Proof.
  intros Hc. rewrite pair_w_scale. split; intros H E; apply H.
  - rewrite E. lra.
  - apply Rmult_integral in E. destruct E as [E|E]; [|assumption].
    apply Rmult_integral in E. destruct E; contradiction.
Qed.

Lemma tau_p_scale data n c w g g' m hz rows k :
  c <> 0 ->
  let ix := idx n w in
  let ix' := idx n (scale_wgt c w) in
  tau_p ix' (tau_vec m hz (fill_cij data ix' (W_mat ix') (length ix') g') rows)
        k
  = c * c
    * tau_p ix (tau_vec m hz (fill_cij data ix (W_mat ix) (length ix) g) rows)
            k.
Proof.
  intros Hc ix ix'. unfold tau_p.
  assert (HN : length ix' = length ix) by apply idx_length_indep.
  destruct (Nat.lt_ge_cases k (length ix)) as [Hk|Hk].
  - rewrite !matvec_W by lia. unfold ix'. rewrite pair_w_scale. fold ix ix'.
    destruct (Req_dec_T (pair_w ix k) 0) as [E|E].
    + rewrite E. lra.
    + rewrite Rmult_assoc. do 2 f_equal. unfold tau_vec, delay.
      rewrite !xcolumn_fill;
        rewrite ?W_mat_diag; try lia; try assumption;
        [|apply (W_nonzero_scale n c w k Hc); assumption].
      unfold ix'. rewrite (pair_i_indep n w), (pair_j_indep n w).
      reflexivity.
  - rewrite !matvec_W_out by lia. lra.
Qed.

Lemma cmax_vec_scale data n c w g g' rows :
  c <> 0 ->
  let ix := idx n w in
  let ix' := idx n (scale_wgt c w) in
  cmax_vec (fill_cij data ix' (W_mat ix') (length ix') g') rows (W_mat ix')
           (length ix')
  = cmax_vec (fill_cij data ix (W_mat ix) (length ix) g) rows (W_mat ix)
             (length ix).
Proof.
  intros Hc ix ix'. rewrite !cmax_vec_eq.
  assert (HN : length ix' = length ix) by apply idx_length_indep.
  rewrite HN. apply tabulate_ext. intros k Hk.
  rewrite !W_mat_diag.
  pose proof (W_nonzero_scale n c w k Hc) as Hnz. fold ix ix' in Hnz.
  destruct (is_zero (pair_w ix k)) eqn:E.
  - apply is_zero_true in E.
    destruct (is_zero (pair_w ix' k)) eqn:E'; [reflexivity|].
    apply is_zero_false in E'. tauto.
  - apply is_zero_false in E.
    destruct (is_zero (pair_w ix' k)) eqn:E'.
    + apply is_zero_true in E'. tauto.
    + rewrite <- HN at 1.
      rewrite !xcolumn_fill; rewrite ?W_mat_diag; try lia; try tauto.
      unfold ix'. rewrite (pair_i_indep n w), (pair_j_indep n w).
      reflexivity.
Qed.

Lemma wlsqva_Return_shapes data rij hz wgt g o :
  wlsqva data rij hz wgt g = Return o -> check_shapes data rij = None.
Proof.
  unfold wlsqva. destruct (check_shapes data rij); [discriminate|reflexivity].
Qed.

(** C10: multiplying every weight by a nonzero constant [c] multiplies the
    pair weights by [c*c]: [X_p] and [tau_p] are scaled by [c*c], the inverted
    matrix by its square, and the scalings cancel in the slowness.  The call
    with the scaled weights returns the same [s], [vel], [az], [cmax] and
    [xij]; the returned [tau] and [sig_tau] are multiplied by [c*c]. *)
Theorem weight_scaling_invariance data rij hz w c g g' o :
  c <> 0 ->
  wlsqva data rij hz (Some w) g = Return o ->
  exists o',
    wlsqva data rij hz (Some (scale_wgt c w)) g' = Return o' /\
    s o' = s o /\ vel o' = vel o /\ az o' = az o /\
    cmax o' = cmax o /\ xij o' = xij o /\
    tau o' = map (Rmult (c * c)) (tau o) /\
    exists x, sig_tau o = Fin x /\ sig_tau o' = Fin (c * c * x).
Proof.
  intros Hc H.
  pose proof (wlsqva_Return_inv _ _ _ _ _ _ H) as I.
  cbv zeta in I. destruct I as (Ainv & E1 & Hdim & Hl & Hcnt & Hm & Hz & Hi & Ho).
  unfold weights_of in *.
  set (n := shape1 rij) in *. set (dim := shape0 rij) in *.
  set (ix := idx n w) in *. set (ix' := idx n (scale_wgt c w)).
  set (k := c * c).
  assert (Hk : k <> 0) by (unfold k; nra).
  assert (Hkk : k * k <> 0) by nra.
  assert (HN : length ix' = length ix) by apply idx_length_indep.
  assert (HA : forall i j, normal_matrix rij ix' i j
                           = (k * k) * normal_matrix rij ix i j).
  { intros i j. apply normal_matrix_scale. }
  destruct (inv_Some _ _ _ Hi) as [HD _].
  assert (HD' : det dim (normal_matrix rij ix') <> 0).
  { rewrite (det_scale dim _ _ (k * k) Hdim HA).
    apply Rmult_integral_contrapositive. split; [|assumption].
    apply pow_nonzero. assumption. }
  pose proof (wlsqva_Return_shapes _ _ _ _ _ _ H) as R'.
  destruct (wlsqva_returns data rij hz (Some (scale_wgt c w)) g') as (o' & H').
  - exact R'.
  - intros w' Hw'. inversion Hw'; subst.
    rewrite scale_wgt_length, scale_wgt_count by assumption. auto.
  - assumption.
  - assumption.
  - exact HD'.
  - exists o'. split; [exact H'|].
    pose proof (wlsqva_Return_inv _ _ _ _ _ _ H') as I'.
    cbv zeta in I'.
    destruct I' as (Ainv' & _ & _ & _ & _ & _ & _ & Hi' & Ho').
    unfold weights_of in *. fold n dim ix' in Hi', Ho'.
    pose proof (inv_scale dim _ _ _ _ (k * k) Hdim Hkk HA Hi Hi') as HB.
    set (m := shape0 data) in *.
    set (tp := tau_p ix (tau_vec m hz (fill_cij data ix (W_mat ix)
                                        (length ix) g) (m * 2 - 1))) in *.
    set (tp' := tau_p ix' (tau_vec m hz (fill_cij data ix' (W_mat ix')
                                           (length ix') g') (m * 2 - 1))) in *.
    assert (Ht : forall l, tp' l = k * tp l).
    { intros l. apply tau_p_scale. assumption. }
    assert (HX : forall l q, X_p rij ix' l q = k * X_p rij ix l q).
    { intros l q. apply X_p_scale. }
    assert (Hs : forall i,
               s_p dim (length ix') Ainv' (X_p rij ix') tp' i
               = s_p dim (length ix) Ainv (X_p rij ix) tp i).
    { intros i. unfold s_p, matvec, matmul, transpose. rewrite HN.
      apply rsum_ext. intros l _. rewrite Ht.
      rewrite (rsum_ext dim _ (fun q => / k * (Ainv i q * X_p rij ix l q))).
      - rewrite rsum_scale. field. assumption.
      - intros q _. rewrite HB, HX. field. assumption. }
    assert (HP : forall q l,
               matmul dim (matmul dim (X_p rij ix') Ainv')
                      (transpose (X_p rij ix')) q l
               = matmul dim (matmul dim (X_p rij ix) Ainv)
                        (transpose (X_p rij ix)) q l).
    { intros q l. unfold matmul, transpose. apply rsum_ext. intros a _.
      rewrite HX.
      rewrite (rsum_ext dim _ (fun b => / k * (X_p rij ix q b * Ainv b a))).
      - rewrite rsum_scale. field. assumption.
      - intros b _. rewrite HB, HX. field. assumption. }
    assert (Hr : rss dim (length ix') Ainv' (X_p rij ix') tp'
                 = k * k * rss dim (length ix) Ainv (X_p rij ix) tp).
    { unfold rss, dot, vecmat, msub. rewrite HN, <- rsum_scale.
      apply rsum_ext. intros l _. rewrite Ht.
      rewrite (rsum_ext (length ix) _
                 (fun q => k * (tp q * (eye q l
                   - matmul dim (matmul dim (X_p rij ix) Ainv)
                       (transpose (X_p rij ix)) q l)))).
      - rewrite rsum_scale. ring.
      - intros q _. rewrite Ht, HP. ring. }
    subst o o'. cbn [s vel az cmax xij tau sig_tau].
    repeat match goal with |- _ /\ _ => split end.
    + apply tabulate_ext. intros; apply Hs.
    + f_equal. apply norm2_ext. intros; apply Hs.
    + apply az_of_ext. intros; apply Hs.
    + apply cmax_vec_scale. assumption.
    + apply tabulate_ext. intros r _. rewrite HN. apply tabulate_ext.
      intros q _. unfold xij_mat, ix'.
      now rewrite (pair_i_indep n w), (pair_j_indep n w).
    + rewrite HN. unfold tabulate. rewrite map_map. apply map_ext.
      intros l. apply Ht.
    + unfold sig_tau_p. rewrite scale_wgt_count by assumption.
      pose proof (N_p_minus_dim (count_nonzero w) dim Hdim Hcnt) as Hp.
      rewrite !xdiv_fin by lra. simpl. eexists. split; [reflexivity|].
      f_equal. rewrite Hr.
      replace (k * k * rss dim (length ix) Ainv (X_p rij ix) tp
               / (N_p (count_nonzero w) - INR dim))
        with (k * k * (rss dim (length ix) Ainv (X_p rij ix) tp
                       / (N_p (count_nonzero w) - INR dim)))
        by (field; lra).
      apply sqrt_abs_scale. unfold k. nra.
Qed.

Lemma weight_scaling_invariance_witness :
  exists o o',
    wlsqva data3 rij3 1 (Some wgt3) all_nan = Return o /\
    wlsqva data3 rij3 1 (Some (scale_wgt 3 wgt3)) all_nan = Return o' /\
    s o' = s o /\ vel o' = vel o /\ az o' = az o /\
    cmax o' = cmax o /\ xij o' = xij o /\
    tau o' = map (Rmult (3 * 3)) (tau o) /\
    exists x, sig_tau o = Fin x /\ sig_tau o' = Fin (3 * 3 * x).
Proof.
  destruct (wlsqva_wgt3_returns all_nan) as (o & Ho).
  destruct (weight_scaling_invariance data3 rij3 1 wgt3 3 all_nan all_nan o
              ltac:(lra) Ho) as (o' & H).
  exists o, o'. split; [exact Ho | exact H].
Defined.

(** * Further properties of the routine *)

(** ** Algebra of the least-squares solution *)

Lemma rsum_plus n f g :
  rsum n (fun l => f l + g l) = rsum n f + rsum n g.
Proof. induction n as [|n IH]; simpl; [lra|]. rewrite IH. lra. Qed.

Lemma rsum_minus n f g :
  rsum n (fun l => f l - g l) = rsum n f - rsum n g.
Proof. induction n as [|n IH]; simpl; [lra|]. rewrite IH. lra. Qed.

Lemma rsum_scale_r n c f : rsum n (fun l => f l * c) = rsum n f * c.
Proof. induction n as [|n IH]; simpl; [lra|]. rewrite IH. lra. Qed.

Lemma rsum_exchange n m (f : nat -> nat -> R) :
  rsum n (fun i => rsum m (fun j => f i j))
  = rsum m (fun j => rsum n (fun i => f i j)).
Proof.
  induction n as [|n IH]; simpl.
  - symmetry. apply rsum_zero. reflexivity.
  - rewrite IH, <- rsum_plus. reflexivity.
Qed.

Lemma matvec_assoc m n A B v i :
  matvec n (matmul m A B) v i = matvec m A (matvec n B v) i.
Proof.
  unfold matvec, matmul.
  rewrite (rsum_ext n _ (fun l => rsum m (fun q => A i q * B q l * v l)))
    by (intros l _; now rewrite rsum_scale_r).
  rewrite rsum_exchange. apply rsum_ext. intros q _.
  rewrite <- rsum_scale. apply rsum_ext. intros l _. ring.
Qed.

Lemma matmul_assoc m n A B C i j :
  matmul n (matmul m A B) C i j = matmul m A (matmul n B C) i j.
Proof.
  unfold matmul.
  rewrite (rsum_ext n _ (fun l => rsum m (fun q => A i q * B q l * C l j)))
    by (intros l _; now rewrite rsum_scale_r).
  rewrite rsum_exchange. apply rsum_ext. intros q _.
  rewrite <- rsum_scale. apply rsum_ext. intros l _. ring.
Qed.

Lemma matvec_eye_like n M v i :
  (i < n)%nat -> (forall q, (q < n)%nat -> M i q = eye i q) ->
  matvec n M v i = v i.
Proof.
  intros Hi H. unfold matvec. rewrite (rsum_single n i).
  - rewrite H by assumption. unfold eye. rewrite Nat.eqb_refl. lra.
  - assumption.
  - intros l Hl Hne. rewrite H by assumption. unfold eye.
    destruct (Nat.eqb_spec i l); [congruence|lra].
Qed.

Lemma inv_right d A B i j :
  (d = 2 \/ d = 3)%nat -> inv d A = Some B ->
  (i < d)%nat -> (j < d)%nat -> matmul d A B i j = eye i j.
Proof.
  intros Hd HB Hi Hj. apply inv_Some in HB. destruct HB as [D E].
  unfold matmul. destruct Hd as [-> | ->].
  - destruct i as [|[|i]]; [| |lia]; destruct j as [|[|j]]; try lia;
      simpl; rewrite !E; unfold det, det2, adj, adj2, eye in *; simpl;
      field; exact D.
  - destruct i as [|[|[|i]]]; [| | |lia]; destruct j as [|[|[|j]]]; try lia;
      simpl; rewrite !E; unfold det, det3, adj, adj3, cof3, eye in *;
      simpl in *; field; exact D.
Qed.

Lemma inv_left d A B i j :
  (d = 2 \/ d = 3)%nat -> inv d A = Some B ->
  (i < d)%nat -> (j < d)%nat -> matmul d B A i j = eye i j.
Proof.
  intros Hd HB Hi Hj. apply inv_Some in HB. destruct HB as [D E].
  unfold matmul. destruct Hd as [-> | ->].
  - destruct i as [|[|i]]; [| |lia]; destruct j as [|[|j]]; try lia;
      simpl; rewrite !E; unfold det, det2, adj, adj2, eye in *; simpl;
      field; exact D.
  - destruct i as [|[|[|i]]]; [| | |lia]; destruct j as [|[|[|j]]]; try lia;
      simpl; rewrite !E; unfold det, det3, adj, adj3, cof3, eye in *;
      simpl in *; field; exact D.
Qed.

Lemma inv_symmetric d A B i j :
  (d = 2 \/ d = 3)%nat -> inv d A = Some B ->
  (forall a b, A a b = A b a) ->
  (i < d)%nat -> (j < d)%nat -> B i j = B j i.
Proof.
  intros Hd HB Hs Hi Hj. apply inv_Some in HB. destruct HB as [D E].
  rewrite !E. f_equal. destruct Hd as [-> | ->].
  - destruct i as [|[|i]]; [| |lia]; destruct j as [|[|j]]; try lia;
      unfold adj, adj2; try reflexivity; now rewrite Hs.
  - destruct i as [|[|[|i]]]; [| | |lia]; destruct j as [|[|[|j]]]; try lia;
      unfold adj, adj3, cof3; simpl; try reflexivity;
      rewrite (Hs 1%nat 0%nat), (Hs 2%nat 0%nat), (Hs 2%nat 1%nat); ring.
Qed.

Lemma vecmat_assoc m n v A B j :
  vecmat n v (matmul m A B) j = vecmat m (vecmat n v A) B j.
Proof.
  unfold vecmat, matmul.
  rewrite (rsum_ext n _ (fun l => rsum m (fun q => v l * A l q * B q j)))
    by (intros l _; rewrite <- rsum_scale; apply rsum_ext; intros; ring).
  rewrite rsum_exchange. apply rsum_ext. intros q _.
  now rewrite rsum_scale_r.
Qed.

Lemma normal_symmetric N X a b :
  matmul N (transpose X) X a b = matmul N (transpose X) X b a.
Proof.
  unfold matmul, transpose. apply rsum_ext. intros l _. ring.
Qed.

Section LeastSquares.

Variables (d N : nat) (X B : mat) (tp : vec).
Hypothesis Hd : (d = 2 \/ d = 3)%nat.
Hypothesis HB : inv d (matmul N (transpose X) X) = Some B.

Lemma s_p_from_rhs a :
  s_p d N B X tp a = matvec d B (matvec N (transpose X) tp) a.
Proof. unfold s_p. apply matvec_assoc. Qed.

(** The slowness solves the normal equations. *)
Lemma s_p_normal a :
  (a < d)%nat ->
  matvec d (matmul N (transpose X) X) (s_p d N B X tp) a
  = matvec N (transpose X) tp a.
Proof.
  intros Ha.
  rewrite (matvec_ext d _ _ (matvec d B (matvec N (transpose X) tp)))
    by (intros; apply s_p_from_rhs).
  rewrite <- matvec_assoc. apply matvec_eye_like; [assumption|].
  intros q Hq. now apply inv_right.
Qed.

(** [tau_p @ (X_p @ inv @ X_p.T)] is the fitted delay vector [X_p @ s_p]. *)
Lemma projected l :
  vecmat N tp (matmul d (matmul d X B) (transpose X)) l
  = matvec d X (s_p d N B X tp) l.
Proof.
  rewrite vecmat_assoc. unfold vecmat at 1, matvec at 1, transpose at 1.
  apply rsum_ext. intros a Ha.
  rewrite vecmat_assoc, s_p_from_rhs. unfold vecmat at 1, matvec at 1.
  rewrite Rmult_comm. f_equal. apply rsum_ext. intros b Hb.
  rewrite (inv_symmetric d _ B a b Hd HB (normal_symmetric N X) Ha Hb).
  unfold vecmat, matvec, transpose. rewrite Rmult_comm. f_equal.
  apply rsum_ext. intros; ring.
Qed.

Lemma fitted_energy :
  dot N (matvec d X (s_p d N B X tp)) (matvec d X (s_p d N B X tp))
  = dot N (matvec d X (s_p d N B X tp)) tp.
Proof.
  set (sp := s_p d N B X tp).
  assert (E : forall v, dot N (matvec d X sp) v
                        = dot d sp (matvec N (transpose X) v)).
  { intros v. unfold dot, matvec, transpose.
    rewrite (rsum_ext N _ (fun l => rsum d (fun a => sp a * X l a * v l)))
      by (intros l _; rewrite <- rsum_scale_r; apply rsum_ext;
          intros; ring).
    rewrite rsum_exchange. apply rsum_ext. intros a _.
    rewrite <- rsum_scale. apply rsum_ext. intros; ring. }
  rewrite !E. apply dot_ext; [reflexivity|]. intros a Ha.
  rewrite <- (s_p_normal a Ha). symmetry. apply matvec_assoc.
Qed.

(** The quantity under the root of [sig_tau] is the sum of the squared
    residuals of the weighted system. *)
Lemma rss_is_residual :
  rss d N B X tp
  = rsum N (fun l => (tp l - matvec d X (s_p d N B X tp) l)
                     * (tp l - matvec d X (s_p d N B X tp) l)).
Proof.
  set (y := matvec d X (s_p d N B X tp)).
  assert (E0 : forall l, (l < N)%nat ->
             vecmat N tp
               (msub eye (matmul d (matmul d X B) (transpose X))) l
             = tp l - y l).
  { intros l Hl. unfold y. rewrite <- projected. unfold vecmat, msub.
    rewrite (rsum_ext N _
               (fun q => tp q * eye q l
                         - tp q * matmul d (matmul d X B) (transpose X) q l))
      by (intros; ring).
    rewrite rsum_minus. f_equal.
    rewrite (rsum_single N l);
      [ unfold eye; rewrite Nat.eqb_refl; ring
      | assumption
      | intros q _ Hq; unfold eye;
        destruct (Nat.eqb_spec q l); [congruence|ring] ]. }
  assert (E1 : rss d N B X tp = dot N tp tp - dot N y tp).
  { unfold rss, dot. rewrite <- rsum_minus.
    apply rsum_ext. intros l Hl. rewrite E0 by assumption. ring. }
  rewrite E1.
  rewrite (rsum_ext N _ (fun l => tp l * tp l - y l * tp l
                                  - (y l * tp l - y l * y l)))
    by (intros; ring).
  rewrite !rsum_minus. fold (dot N tp tp) (dot N y tp) (dot N y y).
  unfold y. rewrite fitted_energy. lra.
Qed.

End LeastSquares.

(** X1: the returned slowness solves the weighted normal equations
    [(X_p.T @ X_p) s = X_p.T @ tau], [tau] the returned (weighted) delays:
    the code's [inv(X_p.T@X_p) @ X_p.T @ tau_p] is the least-squares
    solution of [X_p s = tau_p]. *)
Theorem returned_s_normal_equations data rij hz wgt g o :
  wlsqva data rij hz wgt g = Return o ->
  let dim := shape0 rij in
  let ix := idx (shape1 rij) (weights_of (shape1 rij) wgt) in
  forall i, (i < dim)%nat ->
    rsum dim (fun j => normal_matrix rij ix i j * nth j (s o) 0)
    = rsum (length ix) (fun k => X_p rij ix k i * nth k (tau o) 0).
Proof.
  intros H dim ix i Hi. apply wlsqva_Return_inv in H. cbv zeta in H.
  destruct H as (Ainv & _ & Hdim & _ & _ & _ & _ & HB & ->).
  fold dim ix in HB |- *. cbn [s tau].
  set (tp := tau_p ix _).
  pose proof (s_p_normal dim (length ix) (X_p rij ix) Ainv tp Hdim HB i Hi)
    as E.
  cbv zeta in E. unfold matvec at 1 in E. unfold normal_matrix.
  rewrite (rsum_ext dim _
             (fun l => matmul (length ix) (transpose (X_p rij ix))
                         (X_p rij ix) i l
                       * s_p dim (length ix) Ainv (X_p rij ix) tp l))
    by (intros j Hj; now rewrite tabulate_nth).
  rewrite E. unfold matvec, transpose. apply rsum_ext. intros k Hk.
  now rewrite tabulate_nth.
Qed.

Lemma returned_s_normal_equations_witness :
  rsum (shape0 rij3)
       (fun j => normal_matrix rij3 (idx (shape1 rij3)
                                       (weights_of (shape1 rij3) None))
                                  0%nat j
                 * nth j (s out3) 0)
  = rsum (length (idx (shape1 rij3) (weights_of (shape1 rij3) None)))
      (fun k => X_p rij3 (idx (shape1 rij3) (weights_of (shape1 rij3) None))
                    k 0%nat
                * nth k (tau out3) 0).
Proof.
  exact (returned_s_normal_equations data3 rij3 1 None all_nan out3
           (wlsqva_data3 all_nan) 0%nat ltac:(simpl; lia)).
Defined.

(** X2: [sig_tau] is the root of the sum of squared residuals of the weighted
    system, divided by [N_p - dim]; the quantity under [np.abs] is never
    negative in exact arithmetic. *)
Theorem sig_tau_residual data rij hz wgt g o :
  wlsqva data rij hz wgt g = Return o ->
  let dim := shape0 rij in
  let w := weights_of (shape1 rij) wgt in
  let ix := idx (shape1 rij) w in
  let res := fun k => nth k (tau o) 0
                      - rsum dim (fun r => X_p rij ix k r * nth r (s o) 0) in
  sig_tau o
  = Fin (sqrt (rsum (length ix) (fun k => res k * res k)
               / (N_p (count_nonzero w) - INR dim))).
Proof.
  intros H dim w ix res. apply wlsqva_Return_inv in H. cbv zeta in H.
  destruct H as (Ainv & _ & Hdim & _ & Hc & _ & _ & HB & Ho).
  fold dim w ix in HB, Ho, Hc.
  set (tp := tau_p ix _) in Ho.
  pose proof (N_p_minus_dim (count_nonzero w) dim Hdim Hc) as Hp.
  pose proof (rss_is_residual dim (length ix) (X_p rij ix) Ainv tp Hdim HB)
    as E. cbv zeta in E.
  assert (Er : rsum (length ix) (fun k => res k * res k)
               = rss dim (length ix) Ainv (X_p rij ix) tp).
  { rewrite E. apply rsum_ext. intros k Hk. unfold res. subst o. cbn [s tau].
    rewrite tabulate_nth by assumption.
    replace (rsum dim _) with
      (matvec dim (X_p rij ix)
         (s_p dim (length ix) Ainv (X_p rij ix) tp) k); [reflexivity|].
    unfold matvec. apply rsum_ext. intros r Hr.
    now rewrite tabulate_nth. }
  rewrite Er. subst o. cbn [sig_tau]. unfold sig_tau_p.
  rewrite xdiv_fin by lra. simpl. do 2 f_equal.
  apply Rabs_pos_eq. rewrite <- Er.
  apply Rmult_le_pos.
  - apply rsum_nonneg. intros k _. nra.
  - left. apply Rinv_0_lt_compat. lra.
Qed.

Lemma sig_tau_residual_witness :
  sig_tau out3
  = Fin (sqrt
           (rsum (length (idx (shape1 rij3) (weights_of (shape1 rij3) None)))
              (fun k =>
                 (nth k (tau out3) 0
                  - rsum (shape0 rij3)
                      (fun r => X_p rij3 (idx (shape1 rij3)
                                            (weights_of (shape1 rij3) None))
                                    k r * nth r (s out3) 0))
                 * (nth k (tau out3) 0
                    - rsum (shape0 rij3)
                        (fun r => X_p rij3 (idx (shape1 rij3)
                                              (weights_of (shape1 rij3) None))
                                      k r * nth r (s out3) 0)))
            / (N_p (count_nonzero (weights_of (shape1 rij3) None))
               - INR (shape0 rij3)))).
Proof.
  exact (sig_tau_residual data3 rij3 1 None all_nan out3
           (wlsqva_data3 all_nan)).
Defined.

(** The delay of a weighted pair is the pair's [pair_tau]. *)
Lemma tau_vec_weighted data ix g hz k :
  (k < length ix)%nat -> pair_w ix k <> 0 -> shape0 data <> O ->
  tau_vec (shape0 data) hz (fill_cij data ix (W_mat ix) (length ix) g)
          (shape0 data * 2 - 1) k
  = pair_tau data hz (pair_i ix k) (pair_j ix k).
Proof.
  intros Hk Hw Hm. unfold tau_vec, delay, pair_tau.
  now rewrite xcolumn_weighted.
Qed.

(** Delays that a slowness [st] explains are fitted without residual, and
    the solution is [st]. *)
Lemma recovery_core data rij hz w g Ainv (st : vec) :
  let dim := shape0 rij in
  let n := shape1 rij in
  let ix := idx n w in
  let tp := tau_p ix (tau_vec (shape0 data) hz
                        (fill_cij data ix (W_mat ix) (length ix) g)
                        (shape0 data * 2 - 1)) in
  (dim = 2 \/ dim = 3)%nat -> shape0 data <> O ->
  inv dim (normal_matrix rij ix) = Some Ainv ->
  (forall i j, (i < j)%nat -> (j < n)%nat -> nth i w 0 * nth j w 0 <> 0 ->
     pair_tau data hz i j
     = rsum dim (fun r => (at2 rij r i - at2 rij r j) * st r)) ->
  (forall i, (i < dim)%nat ->
     s_p dim (length ix) Ainv (X_p rij ix) tp i = st i) /\
  rss dim (length ix) Ainv (X_p rij ix) tp = 0.
Proof.
  intros dim n ix tp Hdim Hm HB Hwave.
  assert (Htp : forall l, (l < length ix)%nat ->
                tp l = matvec dim (X_p rij ix) st l).
  { intros l Hl. unfold tp, tau_p. rewrite matvec_W by assumption.
    unfold matvec.
    rewrite (rsum_ext dim _
               (fun r => pair_w ix l * (xij_mat rij ix r l * st r))).
    2:{ intros r _. rewrite X_p_entry.
        replace (l <? length ix)%nat with true
          by (symmetry; apply Nat.ltb_lt; assumption). ring. }
    rewrite rsum_scale.
    destruct (Req_dec_T (pair_w ix l) 0) as [E|E]; [rewrite E; lra|].
    f_equal. rewrite tau_vec_weighted by assumption.
    destruct (idx_nth n w l Hl) as (Hij & Hj & Hw). fold ix in Hij, Hj, Hw.
    rewrite Hwave; [reflexivity|assumption|assumption|].
    now rewrite <- Hw. }
  assert (Hs : forall i, (i < dim)%nat ->
               s_p dim (length ix) Ainv (X_p rij ix) tp i = st i).
  { intros i Hi. unfold s_p.
    rewrite (matvec_ext _ _ tp (matvec dim (X_p rij ix) st)) by exact Htp.
    rewrite <- matvec_assoc.
    apply matvec_eye_like; [assumption|]. intros q Hq.
    rewrite matmul_assoc.
    now apply (inv_left dim (normal_matrix rij ix) Ainv). }
  split; [exact Hs|].
  rewrite (rss_is_residual dim (length ix) (X_p rij ix) Ainv tp Hdim HB).
  apply rsum_zero. intros l Hl. rewrite Htp by assumption.
  unfold matvec at 2 4.
  rewrite (rsum_ext dim _ (fun q => X_p rij ix l q * st q))
    by (intros q Hq; now rewrite Hs).
  unfold matvec. ring.
Qed.

Lemma sig_tau_p_zero dim N N_w Ainv X tp :
  (dim = 2 \/ dim = 3)%nat -> (dim + 1 <= N_w)%nat ->
  rss dim N Ainv X tp = 0 -> sig_tau_p dim N N_w Ainv X tp = Fin 0.
Proof.
  intros Hdim Hc Hr. unfold sig_tau_p. rewrite Hr.
  pose proof (N_p_minus_dim N_w dim Hdim Hc) as Hp.
  rewrite xdiv_fin by lra. simpl. f_equal.
  unfold Rdiv. now rewrite Rmult_0_l, Rabs_R0, sqrt_0.
Qed.

(** X3: plane-wave recovery.  When the delay of every weighted pair is the one
    a plane wave of slowness [s_true] produces, [xij[:,k] . s_true], the call
    returns exactly that slowness, with zero [sig_tau]. *)
Theorem plane_wave_recovery data rij hz wgt g o s_true :
  wlsqva data rij hz wgt g = Return o ->
  let dim := shape0 rij in
  let n := shape1 rij in
  let w := weights_of n wgt in
  length s_true = dim ->
  (forall i j, (i < j)%nat -> (j < n)%nat -> nth i w 0 * nth j w 0 <> 0 ->
     pair_tau data hz i j
     = rsum dim (fun r => (at2 rij r i - at2 rij r j) * nth r s_true 0)) ->
  s o = s_true /\ sig_tau o = Fin 0 /\
  vel o = xdiv 1 (norm2 dim (fun r => nth r s_true 0)) /\
  az o = az_of dim (fun r => nth r s_true 0).
Proof.
  intros H dim n w Hlen Hwave.
  apply wlsqva_Return_inv in H. cbv zeta in H.
  destruct H as (Ainv & _ & Hdim & _ & Hc & Hm & _ & HB & Ho).
  fold dim n w in HB, Ho, Hc.
  destruct (recovery_core data rij hz w g Ainv (fun r => nth r s_true 0)
              Hdim Hm HB Hwave) as [Hs Hr].
  fold dim n in Hs, Hr. subst o. cbn [s sig_tau vel az].
  repeat match goal with |- _ /\ _ => split end.
  - rewrite <- (map_nth_seq_id s_true 0), Hlen. apply tabulate_ext. exact Hs.
  - now apply sig_tau_p_zero.
  - f_equal. apply norm2_ext. exact Hs.
  - unfold az_of.
    rewrite (Hs 0%nat), (Hs 1%nat) by (destruct Hdim; lia).
    destruct (Nat.eqb_spec dim 3) as [E3|E3]; [|reflexivity].
    rewrite (Hs 2%nat) by lia.
    rewrite (norm2_ext 2 _ (fun r => nth r s_true 0))
      by (intros; apply Hs; lia).
    reflexivity.
Qed.

Lemma pair_tau3_02 : pair_tau data3 1 0 2 = 0.
Proof.
  unfold pair_tau. rewrite xcorr3_02. unfold argmax. simpl. unfold xle.
  rdec. simpl. lra.
Qed.

Lemma pair_tau3_12 : pair_tau data3 1 1 2 = 1.
Proof.
  unfold pair_tau. rewrite xcorr3_12. unfold argmax. simpl. unfold xle.
  rdec. simpl. lra.
Qed.

Lemma plane_wave_recovery_witness :
  s out3 = [1; 0] /\ sig_tau out3 = Fin 0 /\
  vel out3 = xdiv 1 (norm2 (shape0 rij3) (fun r => nth r [1; 0] 0)) /\
  az out3 = az_of (shape0 rij3) (fun r => nth r [1; 0] 0).
Proof.
  apply (plane_wave_recovery data3 rij3 1 None all_nan out3 [1; 0]
           (wlsqva_data3 all_nan)).
  - reflexivity.
  - intros i j Hij Hj _. change (shape1 rij3) with 3%nat in Hj.
    destruct i as [|[|i]]; destruct j as [|[|[|j]]]; try lia.
    + rewrite pair_tau3_01. unfold rij3, of_rows. simpl. lra.
    + rewrite pair_tau3_02. unfold rij3, of_rows. simpl. lra.
    + rewrite pair_tau3_12. unfold rij3, of_rows. simpl. lra.
Defined.

(** ** Degenerate geometry *)

(** With the sensors on one line, every entry of [X_p.T@X_p] is a multiple
    of a product of two components of the direction of the line. *)
Lemma normal_matrix_collinear rij w p dir t i j :
  (forall r c, (r < shape0 rij)%nat -> (c < shape1 rij)%nat ->
     at2 rij r c = p r + t c * dir r) ->
  (i < shape0 rij)%nat -> (j < shape0 rij)%nat ->
  let ix := idx (shape1 rij) w in
  normal_matrix rij ix i j
  = rsum (length ix)
      (fun k => (pair_w ix k * (t (pair_i ix k) - t (pair_j ix k)))
                * (pair_w ix k * (t (pair_i ix k) - t (pair_j ix k))))
    * (dir i * dir j).
Proof.
  intros Hline Hi Hj ix. unfold normal_matrix, matmul, transpose.
  rewrite <- rsum_scale_r. apply rsum_ext. intros k Hk.
  rewrite !X_p_entry.
  replace (k <? length ix)%nat with true
    by (symmetry; apply Nat.ltb_lt; assumption).
  destruct (idx_nth (shape1 rij) w k Hk) as (Hij & Hjn & _).
  fold ix in Hij, Hjn. unfold xij_mat.
  rewrite !Hline by lia. ring.
Qed.

(** X4: sensors on one line (in two or three dimensions) leave the slowness
    undetermined.  Every row of [X_p] is a multiple of the direction of the
    line, so [X_p] and [X_p.T@X_p] send each vector perpendicular to the line
    to zero (the delays carry nothing on that component of the slowness), and
    the matrix [X_p.T@X_p] handed to [np.linalg.inv] has determinant zero,
    whatever the weights. *)
Theorem collinear_sensors_singular rij wgt p dir t :
  (shape0 rij = 2 \/ shape0 rij = 3)%nat ->
  (forall r c, (r < shape0 rij)%nat -> (c < shape1 rij)%nat ->
     at2 rij r c = p r + t c * dir r) ->
  let dim := shape0 rij in
  let ix := idx (shape1 rij) (weights_of (shape1 rij) wgt) in
  det dim (normal_matrix rij ix) = 0 /\
  (forall q k, (k < length ix)%nat ->
     rsum dim (fun r => dir r * q r) = 0 ->
     rsum dim (fun r => X_p rij ix k r * q r) = 0) /\
  (forall q i, (i < dim)%nat ->
     rsum dim (fun r => dir r * q r) = 0 ->
     rsum dim (fun j => normal_matrix rij ix i j * q j) = 0).
Proof.
  intros Hdim Hline dim ix.
  pose proof (fun i j Hi Hj =>
                normal_matrix_collinear rij (weights_of (shape1 rij) wgt)
                  p dir t i j Hline Hi Hj) as E.
  cbv zeta in E. fold ix dim in E.
  set (S := rsum (length ix) _) in E.
  split; [|split].
  - unfold dim in *. destruct Hdim as [Hd | Hd]; rewrite Hd in *; unfold det.
    + unfold det2. rewrite !E by lia. ring.
    + unfold det3, cof3. simpl. rewrite !E by lia. ring.
  - intros q k Hk Hq.
    rewrite (rsum_ext dim _
               (fun r => pair_w ix k * (t (pair_i ix k) - t (pair_j ix k))
                         * (dir r * q r))).
    + rewrite rsum_scale, Hq. ring.
    + intros r Hr. rewrite X_p_entry.
      replace (k <? length ix)%nat with true
        by (symmetry; apply Nat.ltb_lt; assumption).
      destruct (idx_nth (shape1 rij) (weights_of (shape1 rij) wgt) k Hk)
        as (Hij & Hjn & _).
      fold ix in Hij, Hjn. unfold xij_mat.
      rewrite !Hline by (unfold dim in Hr; lia). ring.
  - intros q i Hi Hq.
    rewrite (rsum_ext dim _ (fun j => S * dir i * (dir j * q j))).
    + rewrite rsum_scale, Hq. ring.
    + intros j Hj. rewrite E by assumption. ring.
Qed.

Lemma collinear_sensors_singular_witness :
  det (shape0 rij_line)
      (normal_matrix rij_line
         (idx (shape1 rij_line) (weights_of (shape1 rij_line) None))) = 0 /\
  (forall q k,
     (k < length (idx (shape1 rij_line)
                    (weights_of (shape1 rij_line) None)))%nat ->
     rsum (shape0 rij_line) (fun r => nth r [1; 0] 0 * q r) = 0 ->
     rsum (shape0 rij_line)
          (fun r => X_p rij_line
                      (idx (shape1 rij_line)
                         (weights_of (shape1 rij_line) None)) k r * q r)
     = 0) /\
  (forall q i, (i < shape0 rij_line)%nat ->
     rsum (shape0 rij_line) (fun r => nth r [1; 0] 0 * q r) = 0 ->
     rsum (shape0 rij_line)
          (fun j => normal_matrix rij_line
                      (idx (shape1 rij_line)
                         (weights_of (shape1 rij_line) None)) i j * q j)
     = 0).
Proof.
  apply (collinear_sensors_singular rij_line None
           (fun _ => 0) (fun r => nth r [1; 0] 0) (fun c => INR c)).
  - left. reflexivity.
  - intros r c Hr Hc. unfold rij_line, of_rows in *. simpl in *.
    destruct r as [|[|r]]; try lia; destruct c as [|[|[|c]]]; try lia;
      simpl; lra.
Defined.

(** ** Range of the angles *)

Lemma py_mod_range x y : 0 < y -> 0 <= py_mod x y < y.
Proof.
  intros Hy. unfold py_mod.
  destruct (base_Int_part (x / y)) as [H1 H2].
  assert (E : x = x / y * y) by (field; lra).
  set (q := IZR (Int_part (x / y))) in *.
  split.
  - assert (q * y <= x / y * y) by (apply Rmult_le_compat_r; lra). lra.
  - assert ((x / y - q) * y < 1 * y) by (apply Rmult_lt_compat_r; lra). lra.
Qed.

Lemma degrees_bound z :
  - PI / 2 <= z <= PI / 2 -> -90 <= z * 180 / PI <= 90.
Proof.
  intros [H1 H2]. pose proof PI_RGT_0 as Hpi.
  assert (Hi : 0 < / PI) by (apply Rinv_0_lt_compat; lra).
  assert (E : z * 180 / PI = z * (180 * / PI)) by (unfold Rdiv; ring).
  assert (E1 : -90 = - PI / 2 * (180 * / PI)) by (field; lra).
  assert (E2 : 90 = PI / 2 * (180 * / PI)) by (field; lra).
  assert (Hk : 0 < 180 * / PI) by nra.
  rewrite E. split.
  - rewrite E1. apply Rmult_le_compat_r; lra.
  - rewrite E2 at 1. apply Rmult_le_compat_r; lra.
Qed.

(** [np.arctan2] with a non-negative second argument lies in the right
    half-plane. *)
Lemma arctan2_right y x : 0 <= x -> - PI / 2 <= arctan2 y x <= PI / 2.
Proof.
  intros Hx. pose proof PI_RGT_0 as Hpi. unfold arctan2.
  destruct (Rlt_dec 0 x).
  - pose proof (atan_bound (y / x)). lra.
  - destruct (Rlt_dec x 0); [lra|].
    destruct (Rlt_dec 0 y); [lra|].
    destruct (Rlt_dec y 0); lra.
Qed.

(** X5: the returned azimuth lies in [[0, 360)]; for a 2-D array [az] is that
    one number, for a 3-D array it comes with an elevation angle in
    [[-90, 90]]. *)
Theorem az_range data rij hz wgt g o :
  wlsqva data rij hz wgt g = Return o ->
  (shape0 rij = 2%nat ->
   exists a, az o = AzScalar a /\ 0 <= a < 360) /\
  (shape0 rij = 3%nat ->
   exists a phi, az o = AzElev a phi /\ 0 <= a < 360 /\ -90 <= phi <= 90).
Proof.
  intros H. apply wlsqva_Return_inv in H. cbv zeta in H.
  destruct H as (Ainv & _ & _ & _ & _ & _ & _ & _ & ->). cbn [az].
  unfold az_of. split; intros ->; simpl.
  - eexists. split; [reflexivity|]. apply py_mod_range. lra.
  - eexists. eexists. split; [reflexivity|]. split.
    + apply py_mod_range. lra.
    + apply degrees_bound, arctan2_right. unfold norm2. apply sqrt_pos.
Qed.

Lemma az_range_witness :
  (shape0 rij3 = 2%nat ->
   exists a, az out3 = AzScalar a /\ 0 <= a < 360) /\
  (shape0 rij3 = 3%nat ->
   exists a phi, az out3 = AzElev a phi /\ 0 <= a < 360 /\ -90 <= phi <= 90).
Proof.
  exact (az_range data3 rij3 1 None all_nan out3 (wlsqva_data3 all_nan)).
Defined.

(** ** Invariance under a change of origin *)

Lemma det_ext d A A' :
  (d = 2 \/ d = 3)%nat ->
  (forall i j, (i < d)%nat -> (j < d)%nat -> A' i j = A i j) ->
  det d A' = det d A.
Proof.
  intros [-> | ->] H; unfold det, det2, det3, cof3; simpl;
    rewrite !H by lia; reflexivity.
Qed.

Lemma adj_ext d A A' i j :
  (d = 2 \/ d = 3)%nat ->
  (forall i j, (i < d)%nat -> (j < d)%nat -> A' i j = A i j) ->
  adj d A' i j = adj d A i j.
Proof.
  intros [-> | ->] H; unfold adj.
  - unfold adj2. destruct i as [|[|i]], j as [|[|j]];
      rewrite ?H by lia; reflexivity.
  - unfold adj3, cof3. destruct (_ && _); [|reflexivity].
    rewrite !H by (try apply Nat.mod_upper_bound; lia). reflexivity.
Qed.

Lemma s_p_ext d N B B' X X' tp tp' i :
  (forall a b, B' a b = B a b) ->
  (forall l q, (q < d)%nat -> X' l q = X l q) ->
  (forall l, (l < N)%nat -> tp' l = tp l) ->
  s_p d N B' X' tp' i = s_p d N B X tp i.
Proof.
  intros HB HX Ht. unfold s_p, matvec, matmul, transpose.
  apply rsum_ext. intros l Hl. rewrite Ht by assumption. f_equal.
  apply rsum_ext. intros q Hq. now rewrite HB, HX.
Qed.

(** The least-squares part sees the coordinates only through the co-array. *)
Lemma solve_coarray rij rij' hz ix N_w m cij cmax :
  shape0 rij' = shape0 rij -> (shape0 rij = 2 \/ shape0 rij = 3)%nat ->
  (forall r k, (r < shape0 rij)%nat -> (k < length ix)%nat ->
     xij_mat rij' ix r k = xij_mat rij ix r k) ->
  solve rij' hz ix N_w m cij cmax = solve rij hz ix N_w m cij cmax.
Proof.
  intros Hs Hd Hx. unfold solve. rewrite Hs.
  assert (HX : forall l q, (q < shape0 rij)%nat ->
               X_p rij' ix l q = X_p rij ix l q).
  { intros l q Hq. rewrite !X_p_entry.
    destruct (Nat.ltb_spec l (length ix)); [|reflexivity].
    now rewrite Hx. }
  assert (HA : forall i j, (i < shape0 rij)%nat -> (j < shape0 rij)%nat ->
               normal_matrix rij' ix i j = normal_matrix rij ix i j).
  { intros i j Hi Hj. unfold normal_matrix, matmul, transpose.
    apply rsum_ext. intros l _. now rewrite !HX. }
  unfold inv. rewrite (det_ext _ _ _ Hd HA).
  destruct (Req_dec_T _ 0); [reflexivity|].
  destruct (is_zero hz); [reflexivity|].
  set (B := fun i j => adj _ (normal_matrix rij ix) i j / _).
  set (B' := fun i j => adj _ (normal_matrix rij' ix) i j / _).
  assert (HBB : forall a b, B' a b = B a b).
  { intros a b. unfold B, B'. now rewrite (adj_ext _ _ _ a b Hd HA). }
  assert (Hsp : forall i,
             s_p (shape0 rij) (length ix) B' (X_p rij' ix)
                 (tau_p ix (tau_vec m hz cij (m * 2 - 1))) i
             = s_p (shape0 rij) (length ix) B (X_p rij ix)
                   (tau_p ix (tau_vec m hz cij (m * 2 - 1))) i).
  { intros i. apply s_p_ext; auto. }
  f_equal. f_equal.
  - f_equal. apply norm2_ext. intros; apply Hsp.
  - apply az_of_ext. exact Hsp.
  - unfold sig_tau_p. do 2 f_equal. apply rss_ext; auto.
  - apply tabulate_ext. intros; apply Hsp.
  - apply tabulate_ext. intros r Hr. apply tabulate_ext. intros k Hk.
    now apply Hx.
Qed.

(** X6: moving the origin of the sensor coordinates (adding one vector to
    every column of [rij]) changes nothing: the call ends the same way and
    returns the same tuple. *)
Theorem translation_invariance data rij rij' hz wgt g g' p :
  shape0 rij' = shape0 rij -> shape1 rij' = shape1 rij ->
  (forall r c, (r < shape0 rij)%nat -> (c < shape1 rij)%nat ->
     at2 rij' r c = at2 rij r c + p r) ->
  wlsqva data rij' hz wgt g' = wlsqva data rij hz wgt g.
Proof.
  intros H0 H1 Hp. rewrite (wlsqva_garbage data rij' hz wgt g' g).
  unfold wlsqva, check_shapes. rewrite H0, H1.
  destruct (negb _); [reflexivity|].
  destruct (_ <? _)%nat; [reflexivity|].
  destruct (Nat.ltb_spec (shape0 rij) 2) as [Ha|Ha]; simpl; [reflexivity|].
  destruct (Nat.ltb_spec 3 (shape0 rij)) as [Hb|Hb]; [reflexivity|].
  destruct (check_wgt _ _ wgt) as [e|[w N_w]]; [reflexivity|].
  unfold estimate. rewrite H1.
  destruct (_ =? _)%nat; [reflexivity|].
  apply solve_coarray; [assumption | lia |].
  intros r k Hr Hk.
  destruct (idx_nth (shape1 rij) w k Hk) as (Hij & Hj & _).
  unfold xij_mat. rewrite !Hp by lia. ring.
Qed.

Lemma translation_invariance_witness :
  wlsqva data3 (of_rows 2 3 [[10; 11; 10]; [-5; -5; -4]]) 1 None all_nan
  = wlsqva data3 rij3 1 None all_nan.
Proof.
  apply (translation_invariance data3 rij3
           (of_rows 2 3 [[10; 11; 10]; [-5; -5; -4]]) 1 None all_nan all_nan
           (fun r => nth r [10; -5] 0)).
  - reflexivity.
  - reflexivity.
  - intros r c Hr Hc. unfold rij3, of_rows in *. simpl in *.
    destruct r as [|[|r]]; try lia; destruct c as [|[|[|c]]]; try lia;
      simpl; lra.
Defined.

(** ** Invariance under trace gains *)

Lemma correlate_full_gain a b u v :
  correlate_full (scale_wgt a u) (scale_wgt b v)
  = map (Rmult (a * b)) (correlate_full u v).
Proof.
  unfold correlate_full, tabulate. rewrite !scale_wgt_length, map_map.
  apply map_ext. intros k. rewrite <- rsum_scale. apply rsum_ext.
  intros n _. destruct (_ && _); [|ring].
  rewrite !scale_wgt_nth. ring.
Qed.

Lemma energy_gain a u : energy (scale_wgt a u) = a * a * energy u.
Proof.
  rewrite !energy_rsum, scale_wgt_length, <- rsum_scale.
  apply rsum_ext. intros n _. rewrite scale_wgt_nth. ring.
Qed.

Lemma xdiv_gain k x y : 0 < k -> xdiv (k * x) (k * y) = xdiv x y.
Proof.
  intros Hk. unfold xdiv.
  destruct (Req_dec_T y 0) as [Ey|Ey].
  - subst y. rewrite Rmult_0_r.
    destruct (Req_dec_T 0 0) as [_|E]; [|contradiction].
    destruct (Req_dec_T x 0) as [Ex|Ex].
    + subst x. rewrite Rmult_0_r.
      destruct (Req_dec_T 0 0) as [_|E]; [reflexivity|contradiction].
    + destruct (Req_dec_T (k * x) 0) as [E|_]; [nra|].
      destruct (Rlt_dec 0 x), (Rlt_dec 0 (k * x)); try reflexivity; nra.
  - destruct (Req_dec_T (k * y) 0) as [E|_]; [nra|].
    f_equal. field. split; lra.
Qed.

(** The normalised correlation of two traces does not see their gains. *)
Lemma xcorr_coeff_gain a b u v :
  0 < a -> 0 < b ->
  xcorr_coeff (scale_wgt a u) (scale_wgt b v) = xcorr_coeff u v.
Proof.
  intros Ha Hb. unfold xcorr_coeff. fold (energy (scale_wgt a u)).
  fold (energy (scale_wgt b v)) (energy u) (energy v).
  rewrite correlate_full_gain, !energy_gain, map_map.
  apply map_ext. intros c.
  replace (a * a * energy u * (b * b * energy v))
    with ((a * b) * (a * b) * (energy u * energy v)) by ring.
  rewrite sqrt_mult by
    (try nra; apply Rmult_le_pos; apply energy_nonneg).
  rewrite sqrt_square by nra.
  apply xdiv_gain. nra.
Qed.

(** The routine sees the traces only through the normalised correlations of
    the weighted pairs. *)
Lemma estimate_xcorr data1 data2 rij hz w N_w g1 g2 :
  shape0 data1 = shape0 data2 ->
  (forall k, (k < length (idx (shape1 rij) w))%nat ->
     pair_w (idx (shape1 rij) w) k <> 0 ->
     xcorr_coeff (column data1 (pair_i (idx (shape1 rij) w) k))
                 (column data1 (pair_j (idx (shape1 rij) w) k))
     = xcorr_coeff (column data2 (pair_i (idx (shape1 rij) w) k))
                   (column data2 (pair_j (idx (shape1 rij) w) k))) ->
  estimate data1 rij hz w N_w g1 = estimate data2 rij hz w N_w g2.
Proof.
  intros Hm Hag. unfold estimate. rewrite Hm.
  destruct (shape0 data2 =? 0)%nat; [reflexivity|].
  set (ix := idx (shape1 rij) w) in *.
  set (rows := (shape0 data2 * 2 - 1)%nat).
  assert (Hcol : forall k, (k < length ix)%nat -> pair_w ix k <> 0 ->
             xcolumn (fill_cij data1 ix (W_mat ix) (length ix) g1) rows k
             = xcolumn (fill_cij data2 ix (W_mat ix) (length ix) g2) rows k).
  { intros k Hk Hw.
    rewrite !xcolumn_fill by (rewrite ?W_mat_diag; assumption).
    now rewrite Hag. }
  assert (Hc : cmax_vec (fill_cij data1 ix (W_mat ix) (length ix) g1) rows
                 (W_mat ix) (length ix)
               = cmax_vec (fill_cij data2 ix (W_mat ix) (length ix) g2) rows
                   (W_mat ix) (length ix)).
  { rewrite !cmax_vec_eq. apply tabulate_ext. intros k Hk.
    destruct (is_zero (W_mat ix k k)) eqn:HW; [reflexivity|].
    apply is_zero_false in HW. rewrite W_mat_diag in HW.
    now rewrite Hcol. }
  assert (Ht : forall k,
             tau_p ix (tau_vec (shape0 data2) hz
                         (fill_cij data1 ix (W_mat ix) (length ix) g1) rows) k
             = tau_p ix (tau_vec (shape0 data2) hz
                           (fill_cij data2 ix (W_mat ix) (length ix) g2) rows)
                 k).
  { intros k. unfold tau_p.
    destruct (Nat.lt_ge_cases k (length ix)) as [Hk|Hk].
    - rewrite !matvec_W by assumption.
      destruct (Req_dec_T (pair_w ix k) 0) as [E|E]; [rewrite E; lra|].
      f_equal. unfold tau_vec, delay. now rewrite Hcol.
    - now rewrite !matvec_W_out. }
  rewrite Hc. unfold solve.
  destruct (inv _ _) as [Ainv|]; [|reflexivity].
  destruct (is_zero hz); [reflexivity|].
  assert (Hs : forall i,
             s_p (shape0 rij) (length ix) Ainv (X_p rij ix)
               (tau_p ix (tau_vec (shape0 data2) hz
                  (fill_cij data1 ix (W_mat ix) (length ix) g1) rows)) i
             = s_p (shape0 rij) (length ix) Ainv (X_p rij ix)
                 (tau_p ix (tau_vec (shape0 data2) hz
                    (fill_cij data2 ix (W_mat ix) (length ix) g2) rows)) i).
  { intros i. apply s_p_ext; auto. }
  f_equal. f_equal.
  - f_equal. apply norm2_ext. intros; apply Hs.
  - apply az_of_ext. exact Hs.
  - apply tabulate_ext. intros; apply Ht.
  - unfold sig_tau_p. do 2 f_equal. apply rss_ext; auto.
  - apply tabulate_ext. intros; apply Hs.
Qed.

(** X7: multiplying each trace by its own positive gain changes nothing: the
    correlations are normalised by the energies, so the call ends the same
    way and returns the same tuple. *)
Theorem trace_gain_invariance data data' rij hz wgt g g' gain :
  shape0 data' = shape0 data -> shape1 data' = shape1 data ->
  (forall c, 0 < gain c) ->
  (forall r c, at2 data' r c = gain c * at2 data r c) ->
  wlsqva data' rij hz wgt g' = wlsqva data rij hz wgt g.
Proof.
  intros H0 H1 Hg Hd. unfold wlsqva, check_shapes. rewrite H1.
  destruct (negb _); [reflexivity|].
  destruct (_ <? _)%nat; [reflexivity|].
  destruct (_ || _); [reflexivity|].
  destruct (check_wgt _ _ wgt) as [e|[w N_w]]; [reflexivity|].
  apply estimate_xcorr; [assumption|].
  intros k _ _.
  assert (Hc : forall c, column data' c = scale_wgt (gain c) (column data c)).
  { intros c. unfold column, scale_wgt. rewrite H0, map_map.
    apply map_ext. intros r. apply Hd. }
  rewrite !Hc. now apply xcorr_coeff_gain.
Qed.

Lemma trace_gain_invariance_witness :
  wlsqva (of_rows 2 3 [[0; 3; 0]; [2; 0; 5]]) rij3 1 None all_nan
  = wlsqva data3 rij3 1 None all_nan.
Proof.
  apply (trace_gain_invariance data3 (of_rows 2 3 [[0; 3; 0]; [2; 0; 5]])
           rij3 1 None all_nan all_nan
           (fun c => nth c [2; 3; 5] 1)).
  - reflexivity.
  - reflexivity.
  - intros c. destruct c as [|[|[|c]]]; simpl; try lra. destruct c; simpl; lra.
  - intros r c. unfold data3, of_rows. simpl.
    destruct r as [|[|r]].
    + destruct c as [|[|[|c]]]; simpl; try lra. destruct c; simpl; lra.
    + destruct c as [|[|[|c]]]; simpl; try lra. destruct c; simpl; lra.
    + destruct r; destruct c; simpl; lra.
Defined.

(** ** Degenerate signals *)

Lemma arctan2_origin : arctan2 0 0 = 0.
Proof. unfold arctan2. rdec; try reflexivity. Qed.

Lemma az_zero_value : py_mod (arctan2 0 0 * 180 / PI - 360) 360 = 0.
Proof.
  rewrite arctan2_origin.
  replace (0 * 180 / PI - 360) with (-360) by (field; apply PI_neq0).
  rewrite (py_mod_in _ _ (-1)); lra.
Qed.

Lemma elevation_zero_value :
  arctan2 0 (norm2 2 (fun _ => 0)) * 180 / PI = 0.
Proof.
  unfold norm2. simpl. replace (0 + 0 * 0 + 0 * 0) with 0 by ring.
  rewrite sqrt_0, arctan2_origin. field. apply PI_neq0.
Qed.

Lemma tabulate_const {A} n (x : A) : tabulate n (fun _ => x) = repeat x n.
Proof.
  unfold tabulate. generalize O as a.
  induction n as [|n IH]; intros a; simpl; [reflexivity|]. now rewrite IH.
Qed.

(** X8: simultaneous arrival.  When every pair that carries weight has delay
    zero, the call returns the zero slowness, [vel] is [+inf] (the division
    [1/0] of the source), the azimuth is 0 and [sig_tau] is 0. *)
Theorem simultaneous_arrival data rij hz wgt g o :
  wlsqva data rij hz wgt g = Return o ->
  let dim := shape0 rij in
  let n := shape1 rij in
  let w := weights_of n wgt in
  (forall i j, (i < j)%nat -> (j < n)%nat -> nth i w 0 * nth j w 0 <> 0 ->
     pair_tau data hz i j = 0) ->
  s o = repeat 0 dim /\ vel o = PInf /\ sig_tau o = Fin 0 /\
  az o = if (dim =? 3)%nat then AzElev 0 0 else AzScalar 0.
Proof.
  intros H dim n w Hz.
  apply wlsqva_Return_inv in H. cbv zeta in H.
  destruct H as (Ainv & _ & Hdim & _ & Hc & Hm & _ & HB & Ho).
  fold dim n w in HB, Ho, Hc.
  destruct (recovery_core data rij hz w g Ainv (fun _ => 0) Hdim Hm HB)
    as [Hs Hr].
  { intros i j Hij Hj Hw. rewrite (Hz i j Hij Hj Hw).
    symmetry. apply rsum_zero. intros; ring. }
  fold dim n in Hs, Hr. subst o. cbn [s sig_tau vel az].
  repeat match goal with |- _ /\ _ => split end.
  - transitivity (tabulate dim (fun _ : nat => 0));
      [apply tabulate_ext; exact Hs | apply tabulate_const].
  - unfold norm2.
    rewrite (rsum_zero dim) by (intros r Hr'; rewrite Hs by assumption; ring).
    rewrite sqrt_0. unfold xdiv. rdec; try reflexivity.
  - now apply sig_tau_p_zero.
  - unfold az_of.
    rewrite (Hs 0%nat), (Hs 1%nat) by (destruct Hdim; lia).
    rewrite az_zero_value.
    destruct (Nat.eqb_spec dim 3) as [E3|E3]; [|reflexivity].
    rewrite (Hs 2%nat) by lia.
    rewrite (norm2_ext 2 _ (fun _ => 0)) by (intros; apply Hs; lia).
    now rewrite elevation_zero_value.
Qed.

Lemma simultaneous_arrival_witness :
  exists o,
    wlsqva data_same rij3 1 None all_nan = Return o /\
    s o = repeat 0 (shape0 rij3) /\ vel o = PInf /\ sig_tau o = Fin 0 /\
    az o = if (shape0 rij3 =? 3)%nat then AzElev 0 0 else AzScalar 0.
Proof.
  destruct (wlsqva_returns data_same rij3 1 None all_nan) as (o & Ho).
  - reflexivity.
  - intros w Hw. discriminate.
  - discriminate.
  - lra.
  - unfold det, det2, normal_matrix, X_p, matmul, transpose, W_mat, diag,
      xij_mat, pair_w, pair_i, pair_j, rij3, of_rows, idx, weights_of, ones.
    simpl. lra.
  - exists o. split; [exact Ho|].
    apply (simultaneous_arrival data_same rij3 1 None all_nan o Ho).
    intros i j Hij Hj _.
    change (pair_tau data_same 1 i j) with
      ((INR 2 - INR (argmax (xcorr_coeff (column data_same i)
                                         (column data_same j)) + 1)) / 1).
    change (shape1 rij3) with 3%nat in Hj.
    assert (E : column data_same i = column data3 0
                /\ column data_same j = column data3 2).
    { destruct i as [|[|i]]; destruct j as [|[|[|j]]]; try lia;
        split; reflexivity. }
    destruct E as [-> ->]. exact pair_tau3_02.
Defined.

(** ** A dead trace *)

Lemma energy_all_zero a : all_zero a -> energy a = 0.
Proof.
  intros Ha. rewrite energy_rsum. apply rsum_zero. intros n _.
  rewrite Ha. ring.
Qed.

Lemma correlate_full_dead a v k :
  all_zero a \/ all_zero v -> nth k (correlate_full a v) 0 = 0.
Proof.
  intros H. unfold correlate_full.
  destruct (Nat.lt_ge_cases k (length a + length v - 1)) as [Hk|Hk].
  - rewrite tabulate_nth by assumption. apply rsum_zero. intros n _.
    destruct (_ && _); [|reflexivity].
    destruct H as [H|H]; rewrite H; ring.
  - apply nth_overflow. now rewrite tabulate_length.
Qed.

(** With a dead trace in the pair every normalised value is [0/0]. *)
Lemma xcorr_coeff_dead a v :
  all_zero a \/ all_zero v ->
  xcorr_coeff a v = repeat NaN (length a + length v - 1).
Proof.
  intros H. unfold xcorr_coeff. fold (energy a) (energy v).
  assert (E : sqrt (energy a * energy v) = 0).
  { destruct H as [H|H]; rewrite (energy_all_zero _ H);
      rewrite ?Rmult_0_l, ?Rmult_0_r; apply sqrt_0. }
  rewrite E.
  assert (Hc : forall k, nth k (correlate_full a v) 0 = 0)
    by (intros; now apply correlate_full_dead).
  assert (Hl : length (correlate_full a v) = (length a + length v - 1)%nat)
    by (unfold correlate_full; apply tabulate_length).
  rewrite <- Hl. clear Hl E.
  induction (correlate_full a v) as [|c l IH]; [reflexivity|].
  simpl. f_equal.
  - specialize (Hc O). simpl in Hc. subst c. unfold xdiv. rdec; reflexivity.
  - apply IH. intros k. apply (Hc (S k)).
Qed.

Lemma xmax_list_nan n : xmax_list (repeat NaN (S n)) = NaN.
Proof.
  simpl. induction n as [|n IH]; [reflexivity|]. simpl. exact IH.
Qed.

Lemma argmax_nan n : argmax (repeat NaN (S n)) = O.
Proof. reflexivity. Qed.

Lemma column_dead data t :
  (forall r, (r < shape0 data)%nat -> at2 data r t = 0) ->
  all_zero (column data t).
Proof.
  intros H k. unfold column.
  destruct (Nat.lt_ge_cases k (shape0 data)) as [Hk|Hk].
  - rewrite nth_map_seq by assumption. now apply H.
  - apply nth_overflow. now rewrite length_map, length_seq.
Qed.

(** X9: a dead trace.  When the trace of a sensor is identically zero, every
    pair that involves it and carries weight has [cmax] NaN (the division
    [0/0] by the zero energy), and its delay is taken at the first lag: the
    returned [tau] there is [wgt[i]*wgt[j]*(m - 1)/hz]. *)
Theorem dead_trace_nan data rij hz wgt g o t :
  wlsqva data rij hz wgt g = Return o ->
  (forall r, (r < shape0 data)%nat -> at2 data r t = 0) ->
  let n := shape1 rij in
  let w := weights_of n wgt in
  forall i j, (i < j)%nat -> (j < n)%nat -> i = t \/ j = t ->
    nth i w 0 * nth j w 0 <> 0 ->
    nth (pair_pos n i j) (cmax o) (Fin 0) = NaN /\
    nth (pair_pos n i j) (tau o) 0
    = nth i w 0 * nth j w 0 * ((INR (shape0 data) - 1) / hz).
Proof.
  intros H Hdead n w i j Hij Hj Ht Hw.
  pose proof (returned_tau data rij hz wgt g o H i j Hij Hj) as Etau.
  apply wlsqva_Return_inv in H. cbv zeta in H.
  destruct H as (Ainv & _ & _ & _ & _ & Hm & _ & _ & Ho).
  fold n w in Ho, Etau.
  assert (Hx : xcorr_coeff (column data i) (column data j)
               = repeat NaN (S (shape0 data * 2 - 2))).
  { rewrite xcorr_coeff_dead, !column_length.
    - f_equal. lia.
    - destruct Ht as [-> | ->]; [left|right]; now apply column_dead. }
  split.
  - subst o. cbn [cmax].
    destruct (idx_pos_fields n w i j Hij Hj) as (Hk & Hi & Hj' & Hpw).
    rewrite cmax_vec_eq, tabulate_nth by assumption.
    rewrite W_mat_diag, Hpw.
    destruct (is_zero _) eqn:E; [apply is_zero_true in E; contradiction|].
    rewrite xcolumn_weighted by (rewrite ?Hpw; assumption).
    rewrite Hi, Hj', Hx. apply xmax_list_nan.
  - rewrite Etau. f_equal. unfold pair_tau. rewrite Hx, argmax_nan.
    simpl. reflexivity.
Qed.

Lemma dead_trace_nan_witness :
  exists o,
    wlsqva data_dead rij3 1 None all_nan = Return o /\
    nth (pair_pos 3 0 1) (cmax o) (Fin 0) = NaN /\
    nth (pair_pos 3 0 1) (tau o) 0
    = nth 0 (ones 3) 0 * nth 1 (ones 3) 0 * ((INR (shape0 data_dead) - 1) / 1).
Proof.
  destruct (wlsqva_returns data_dead rij3 1 None all_nan) as (o & Ho).
  - reflexivity.
  - intros w Hw. discriminate.
  - discriminate.
  - lra.
  - unfold det, det2, normal_matrix, X_p, matmul, transpose, W_mat, diag,
      xij_mat, pair_w, pair_i, pair_j, rij3, of_rows, idx, weights_of, ones.
    simpl. lra.
  - exists o. split; [exact Ho|].
    apply (dead_trace_nan data_dead rij3 1 None all_nan o 1 Ho).
    + intros r Hr. change (shape0 data_dead) with 2%nat in Hr.
      destruct r as [|[|r]]; try lia; reflexivity.
    + lia.
    + simpl. lia.
    + right. reflexivity.
    + simpl. lra.
Defined.

(** ** The maximum and its lag *)

Lemma xcorr_coeff_coeffs a v :
  energy a <> 0 -> energy v <> 0 ->
  xcorr_coeff a v = map Fin (coeffs a v).
Proof.
  intros Ha Hv. unfold xcorr_coeff, coeffs. fold (energy a) (energy v).
  rewrite map_map. apply map_ext. intros c. apply xdiv_fin.
  pose proof (energy_nonneg a). pose proof (energy_nonneg v).
  assert (0 < sqrt (energy a * energy v)) by (apply sqrt_lt_R0; nra). lra.
Qed.

Lemma coeffs_length a v : length (coeffs a v) = (length a + length v - 1)%nat.
Proof.
  unfold coeffs, correlate_full. now rewrite length_map, tabulate_length.
Qed.

Lemma xmaximum_fin a b : xmaximum (Fin a) (Fin b) = Fin (Rmax a b).
Proof.
  unfold xmaximum, xle, Rmax. simpl. now destruct (Rle_dec a b).
Qed.

Lemma xmax_fold_fin rest b :
  fold_left xmaximum (map Fin rest) (Fin b) = Fin (fold_left Rmax rest b).
Proof.
  revert b. induction rest as [|x rest IH]; intros b; [reflexivity|].
  simpl. now rewrite xmaximum_fin, IH.
Qed.

(** The loop of [np.argmax] on finite values stops at the first position of
    the largest value. *)
Lemma argmax_loop_first rest b ind i :
  let p := argmax_loop (Fin b) ind i (map Fin rest) in
  let M := fold_left Rmax rest b in
  (forall x, In x rest -> x <= M) /\ b <= M /\
  ((p = ind /\ M = b) \/
   ((i <= p)%nat /\ (p < i + length rest)%nat /\ nth (p - i) rest 0 = M /\
    b < M /\ forall r, (r < p - i)%nat -> nth r rest 0 < M)).
Proof.
  revert b ind i. induction rest as [|x rest IH]; intros b ind i; simpl.
  - split; [tauto|]. split; [lra|]. left. auto.
  - unfold xle. destruct (Rle_dec x b) as [Hxb|Hxb].
    + rewrite Rmax_left by assumption.
      destruct (IH b ind (S i)) as (Hall & Hb & Hcase).
      split; [intros y [<-|Hy]; [lra|now apply Hall]|].
      split; [assumption|].
      destruct Hcase as [Hc|(H1 & H2 & H3 & H4 & H5)]; [left; assumption|].
      right. repeat split; try lia; try assumption.
      * replace (argmax_loop (Fin b) ind (S i) (map Fin rest) - i)%nat
          with (S (argmax_loop (Fin b) ind (S i) (map Fin rest) - S i))
          by lia.
        exact H3.
      * intros r Hr. destruct r as [|r]; [lra|]. apply H5. lia.
    + simpl. assert (Hbx : b < x) by lra.
      rewrite Rmax_right by lra.
      destruct (IH x i (S i)) as (Hall & Hx & Hcase).
      split; [intros y [<-|Hy]; [lra|now apply Hall]|].
      split; [lra|]. right.
      destruct Hcase as [[Hp HM]|(H1 & H2 & H3 & H4 & H5)].
      * rewrite Hp, HM. rewrite Nat.sub_diag.
        repeat split; try lia; try lra.
      * repeat split; try lia; try lra.
        -- replace (argmax_loop (Fin x) i (S i) (map Fin rest) - i)%nat
             with (S (argmax_loop (Fin x) i (S i) (map Fin rest) - S i))
             by lia.
           exact H3.
        -- intros r Hr. destruct r as [|r]; [lra|]. apply H5. lia.
Qed.

Lemma argmax_first l :
  l <> [] ->
  let p := argmax (map Fin l) in
  (p < length l)%nat /\
  xmax_list (map Fin l) = Fin (nth p l 0) /\
  (forall r, (r < length l)%nat -> nth r l 0 <= nth p l 0) /\
  (forall r, (r < p)%nat -> nth r l 0 < nth p l 0).
Proof.
  destruct l as [|x rest]; [congruence|]. intros _.
  change (argmax (map Fin (x :: rest)))
    with (argmax_loop (Fin x) 0 1 (map Fin rest)).
  change (xmax_list (map Fin (x :: rest)))
    with (fold_left xmaximum (map Fin rest) (Fin x)).
  rewrite xmax_fold_fin.
  destruct (argmax_loop_first rest x O 1) as (Hall & Hx & Hcase).
  cbv zeta in Hall, Hx, Hcase.
  set (p := argmax_loop (Fin x) 0 1 (map Fin rest)) in *.
  set (M := fold_left Rmax rest x) in *. cbv zeta.
  change (length (x :: rest)) with (S (length rest)).
  assert (Hp : (p < S (length rest))%nat /\ nth p (x :: rest) 0 = M /\
               forall r, (r < p)%nat -> nth r (x :: rest) 0 < M).
  { destruct Hcase as [[Hp HM]|(H1 & H2 & H3 & H4 & H5)].
    - rewrite Hp, HM. repeat split; [lia|]. intros r Hr. lia.
    - repeat split; [lia| |].
      + destruct p as [|p]; [lia|]. simpl.
        replace (S p - 1)%nat with p in H3 by lia. exact H3.
      + intros r Hr. destruct r as [|r]; [simpl; lra|]. simpl.
        apply H5. lia. }
  destruct Hp as (Hp1 & Hp2 & Hp3).
  split; [exact Hp1|]. split; [now rewrite Hp2|]. split.
  - intros r Hr. rewrite Hp2. destruct r as [|r]; [simpl; lra|]. simpl.
    apply Hall. apply nth_In. simpl in Hr. lia.
  - intros r Hr. rewrite Hp2. now apply Hp3.
Qed.

(** X10: at a pair that carries weight and whose two traces have nonzero
    energy, [cmax] is the largest normalised correlation value and the
    returned [tau] reports the first lag [d] that reaches it:
    [tau = wgt[i]*wgt[j]*(m - (d+1))/hz]. *)
Theorem cmax_at_reported_lag data rij hz wgt g o i j :
  wlsqva data rij hz wgt g = Return o ->
  let n := shape1 rij in
  let w := weights_of n wgt in
  let c := coeffs (column data i) (column data j) in
  (i < j)%nat -> (j < n)%nat -> nth i w 0 * nth j w 0 <> 0 ->
  energy (column data i) <> 0 -> energy (column data j) <> 0 ->
  exists d,
    (d < shape0 data * 2 - 1)%nat /\
    nth (pair_pos n i j) (cmax o) NaN = Fin (nth d c 0) /\
    nth (pair_pos n i j) (tau o) 0
    = nth i w 0 * nth j w 0 * ((INR (shape0 data) - INR (d + 1)) / hz) /\
    (forall r, (r < shape0 data * 2 - 1)%nat -> nth r c 0 <= nth d c 0) /\
    (forall r, (r < d)%nat -> nth r c 0 < nth d c 0).
Proof.
  intros H n w c Hij Hj Hw Hei Hej.
  pose proof (returned_tau data rij hz wgt g o H i j Hij Hj) as Etau.
  apply wlsqva_Return_inv in H. cbv zeta in H.
  destruct H as (Ainv & _ & _ & _ & _ & Hm & _ & _ & Ho).
  fold n w in Ho, Etau.
  assert (Hlen : length c = (shape0 data * 2 - 1)%nat).
  { unfold c. rewrite coeffs_length, !column_length. lia. }
  assert (Hne : c <> []).
  { intros E. rewrite E in Hlen. simpl in Hlen. lia. }
  destruct (argmax_first c Hne) as (Hd & Hmax & Hall & Hfirst).
  exists (argmax (map Fin c)). rewrite <- Hlen.
  repeat match goal with |- _ /\ _ => split end; try assumption.
  - subst o. cbn [cmax].
    destruct (idx_pos_fields n w i j Hij Hj) as (Hk & Hi & Hj' & Hpw).
    rewrite cmax_vec_eq, tabulate_nth by assumption.
    rewrite W_mat_diag, Hpw.
    destruct (is_zero _) eqn:E; [apply is_zero_true in E; contradiction|].
    rewrite xcolumn_weighted by (rewrite ?Hpw; assumption).
    rewrite Hi, Hj', xcorr_coeff_coeffs by assumption. exact Hmax.
  - rewrite Etau. unfold pair_tau.
    now rewrite xcorr_coeff_coeffs by assumption.
Qed.

Lemma cmax_at_reported_lag_witness :
  exists d,
    (d < shape0 data3 * 2 - 1)%nat /\
    nth (pair_pos (shape1 rij3) 0 1) (cmax out3) NaN
    = Fin (nth d (coeffs (column data3 0) (column data3 1)) 0) /\
    nth (pair_pos (shape1 rij3) 0 1) (tau out3) 0
    = nth 0 (weights_of (shape1 rij3) None) 0
      * nth 1 (weights_of (shape1 rij3) None) 0
      * ((INR (shape0 data3) - INR (d + 1)) / 1) /\
    (forall r, (r < shape0 data3 * 2 - 1)%nat ->
       nth r (coeffs (column data3 0) (column data3 1)) 0
       <= nth d (coeffs (column data3 0) (column data3 1)) 0) /\
    (forall r, (r < d)%nat ->
       nth r (coeffs (column data3 0) (column data3 1)) 0
       < nth d (coeffs (column data3 0) (column data3 1)) 0).
Proof.
  apply (cmax_at_reported_lag data3 rij3 1 None all_nan out3 0 1
           (wlsqva_data3 all_nan)).
  - lia.
  - simpl. lia.
  - simpl. lra.
  - unfold energy, py_sum, vmul, column, data3, of_rows. simpl. lra.
  - unfold energy, py_sum, vmul, column, data3, of_rows. simpl. lra.
Defined.

(** ** The correlation maxima are coefficients *)

Lemma rsum_mono_n n n' g :
  (n <= n')%nat -> (forall l, 0 <= g l) -> rsum n g <= rsum n' g.
Proof.
  intros Hn Hg. induction Hn as [|n' Hn IH]; [lra|].
  simpl. specialize (Hg n'). lra.
Qed.

(** A sum over a shifted window of non-negative terms is at most the sum of
    all of them. *)
Lemma rsum_window M L s t g :
  (forall l, 0 <= g l) ->
  rsum M (fun n => if ((t <=? n + s) && (n + s - t <? L))%nat
                   then g (n + s - t)%nat else 0)
  <= rsum (Nat.min L (M + s - t)) g.
Proof.
  intros Hg. induction M as [|M IH]; cbn [rsum].
  - now apply rsum_nonneg.
  - replace (S M + s)%nat with (S (M + s)) by lia.
    destruct (Nat.leb_spec t (M + s)) as [H1|H1]; cbn [andb].
    + destruct (Nat.ltb_spec (M + s - t) L) as [H2|H2].
      * replace (Nat.min L (S (M + s) - t)) with (S (M + s - t)) by lia.
        replace (Nat.min L (M + s - t)) with (M + s - t)%nat in IH by lia.
        cbn [rsum]. lra.
      * replace (Nat.min L (S (M + s) - t)) with (Nat.min L (M + s - t))
          by lia.
        lra.
    + assert (rsum (Nat.min L (M + s - t)) g
              <= rsum (Nat.min L (S (M + s) - t)) g)
        by (apply rsum_mono_n; [lia|assumption]).
      lra.
Qed.

Lemma cauchy_schwarz n f g :
  rsum n (fun l => f l * g l) * rsum n (fun l => f l * g l)
  <= rsum n (fun l => f l * f l) * rsum n (fun l => g l * g l).
Proof.
  induction n as [|n IH]; simpl; [lra|].
  set (A := rsum n (fun l => f l * g l)) in *.
  set (F := rsum n (fun l => f l * f l)) in *.
  set (G := rsum n (fun l => g l * g l)) in *.
  assert (HF : 0 <= F) by (apply rsum_nonneg; intros; nra).
  assert (HG : 0 <= G) by (apply rsum_nonneg; intros; nra).
  set (x := f n). set (y := g n).
  assert (K : 0 <= F * (y * y) + G * (x * x) - 2 * A * (x * y)).
  { destruct (Req_dec_T F 0) as [E|E].
    - assert (A = 0) by nra. subst A. rewrite H, E. nra.
    - assert (0 < F) by lra.
      assert (0 <= F * (F * (y * y) + G * (x * x) - 2 * A * (x * y))).
      { replace (F * (F * (y * y) + G * (x * x) - 2 * A * (x * y)))
          with ((F * y - A * x) * (F * y - A * x) + (F * G - A * A) * (x * x))
          by ring.
        assert (0 <= (F * y - A * x) * (F * y - A * x))
          by apply (Rle_0_sqr (F * y - A * x)).
        assert (0 <= (F * G - A * A) * (x * x))
          by (apply Rmult_le_pos; [lra | apply (Rle_0_sqr x)]).
        lra. }
      nra. }
  nra.
Qed.

(** Every entry of the full correlation is bounded by the root of the
    product of the two energies. *)
Lemma correlate_bound a v k :
  nth k (correlate_full a v) 0 * nth k (correlate_full a v) 0
  <= energy a * energy v.
Proof.
  unfold correlate_full.
  destruct (Nat.lt_ge_cases k (length a + length v - 1)) as [Hk|Hk].
  2:{ rewrite nth_overflow by now rewrite tabulate_length.
      pose proof (energy_nonneg a). pose proof (energy_nonneg v). nra. }
  rewrite tabulate_nth by assumption.
  set (h := fun n => if ((length v - 1 <=? n + k)
                         && (n + k - (length v - 1) <? length a))%nat
                     then nth (n + k - (length v - 1)) a 0 else 0).
  rewrite (rsum_ext (length v) _ (fun n => h n * nth n v 0))
    by (intros n _; unfold h; destruct (_ && _); ring).
  eapply Rle_trans; [apply cauchy_schwarz|].
  rewrite (energy_rsum v).
  apply Rmult_le_compat_r; [apply rsum_nonneg; intros; nra|].
  rewrite (rsum_ext (length v) _
             (fun n => if ((length v - 1 <=? n + k)
                           && (n + k - (length v - 1) <? length a))%nat
                       then nth (n + k - (length v - 1)) a 0
                            * nth (n + k - (length v - 1)) a 0
                       else 0))
    by (intros n _; unfold h; destruct (_ && _); ring).
  eapply Rle_trans.
  - apply (rsum_window (length v) (length a) k (length v - 1)
             (fun l => nth l a 0 * nth l a 0)).
    intros; nra.
  - rewrite energy_rsum. apply rsum_mono_n; [lia|intros; nra].
Qed.

Lemma coeffs_bound a v k :
  energy a <> 0 -> energy v <> 0 -> -1 <= nth k (coeffs a v) 0 <= 1.
Proof.
  intros Ha Hv. pose proof (energy_nonneg a). pose proof (energy_nonneg v).
  assert (HS : 0 < sqrt (energy a * energy v)) by (apply sqrt_lt_R0; nra).
  destruct (Nat.lt_ge_cases k (length (coeffs a v))) as [Hk|Hk].
  2:{ rewrite nth_overflow by assumption. lra. }
  unfold coeffs in *.
  rewrite (nth_indep _ 0 ((fun c => c / sqrt (energy a * energy v)) 0))
    by assumption.
  rewrite (map_nth (fun c => c / sqrt (energy a * energy v))).
  pose proof (correlate_bound a v k) as Hb.
  set (c := nth k (correlate_full a v) 0) in *.
  set (S := sqrt (energy a * energy v)) in *.
  assert (ES : S * S = energy a * energy v) by (apply sqrt_sqrt; nra).
  assert (- S <= c <= S) by nra.
  split.
  - apply Rmult_le_reg_r with S; [assumption|].
    unfold Rdiv. rewrite Rmult_assoc, Rinv_l by lra. lra.
  - apply Rmult_le_reg_r with S; [assumption|].
    unfold Rdiv. rewrite Rmult_assoc, Rinv_l by lra. lra.
Qed.

(** X11: at a pair that carries weight and whose two traces have nonzero
    energy, every normalised correlation value lies in [[-1, 1]]
    (Cauchy-Schwarz), and so does the returned [cmax]. *)
Theorem cmax_is_coefficient data rij hz wgt g o i j :
  wlsqva data rij hz wgt g = Return o ->
  let n := shape1 rij in
  let w := weights_of n wgt in
  (i < j)%nat -> (j < n)%nat -> nth i w 0 * nth j w 0 <> 0 ->
  energy (column data i) <> 0 -> energy (column data j) <> 0 ->
  (forall r, -1 <= nth r (coeffs (column data i) (column data j)) 0 <= 1) /\
  exists x, nth (pair_pos n i j) (cmax o) NaN = Fin x /\ -1 <= x <= 1.
Proof.
  intros H n w Hij Hj Hw Hei Hej.
  split; [intros r; now apply coeffs_bound|].
  apply wlsqva_Return_inv in H. cbv zeta in H.
  destruct H as (Ainv & _ & _ & _ & _ & Hm & _ & _ & Ho).
  fold n w in Ho. subst o. cbn [cmax].
  set (c := coeffs (column data i) (column data j)).
  assert (Hne : c <> []).
  { intros E. apply (f_equal (@length R)) in E. unfold c in E.
    rewrite coeffs_length, !column_length in E. simpl in E. lia. }
  destruct (argmax_first c Hne) as (_ & Hmax & _ & _).
  exists (nth (argmax (map Fin c)) c 0). split; [|now apply coeffs_bound].
  destruct (idx_pos_fields n w i j Hij Hj) as (Hk & Hi & Hj' & Hpw).
  rewrite cmax_vec_eq, tabulate_nth by assumption.
  rewrite W_mat_diag, Hpw.
  destruct (is_zero _) eqn:E; [apply is_zero_true in E; contradiction|].
  rewrite xcolumn_weighted by (rewrite ?Hpw; assumption).
  rewrite Hi, Hj', xcorr_coeff_coeffs by assumption. exact Hmax.
Qed.

Lemma cmax_is_coefficient_witness :
  (forall r, -1 <= nth r (coeffs (column data3 0) (column data3 1)) 0 <= 1) /\
  exists x, nth (pair_pos (shape1 rij3) 0 1) (cmax out3) NaN = Fin x
            /\ -1 <= x <= 1.
Proof.
  apply (cmax_is_coefficient data3 rij3 1 None all_nan out3 0 1
           (wlsqva_data3 all_nan)).
  - lia.
  - simpl. lia.
  - simpl. lra.
  - unfold energy, py_sum, vmul, column, data3, of_rows. simpl. lra.
  - unfold energy, py_sum, vmul, column, data3, of_rows. simpl. lra.
Defined.

(** ** Changing the sample rate *)

(** [np.arctan2] sees only the direction of [(x, y)]. *)
Lemma arctan2_scale k y x : 0 < k -> arctan2 (k * y) (k * x) = arctan2 y x.
Proof.
  intros Hk. unfold arctan2.
  assert (Hq : x <> 0 -> k * y / (k * x) = y / x) by (intros; field; lra).
  destruct (Rlt_dec 0 x) as [Hx|Hx].
  - destruct (Rlt_dec 0 (k * x)) as [_|C]; [|exfalso; nra].
    rewrite Hq by lra. reflexivity.
  - destruct (Rlt_dec 0 (k * x)) as [C|_]; [exfalso; nra|].
    destruct (Rlt_dec x 0) as [Hx'|Hx'].
    + destruct (Rlt_dec (k * x) 0) as [_|C]; [|exfalso; nra].
      rewrite Hq by lra.
      destruct (Rle_dec 0 y), (Rle_dec 0 (k * y)); try reflexivity;
        exfalso; nra.
    + destruct (Rlt_dec (k * x) 0) as [C|_]; [exfalso; nra|].
      destruct (Rlt_dec 0 y), (Rlt_dec 0 (k * y)); try (exfalso; nra);
        [reflexivity|].
      destruct (Rlt_dec y 0), (Rlt_dec (k * y) 0); try (exfalso; nra);
        reflexivity.
Qed.

Lemma norm2_scale n k v v' :
  0 <= k -> (forall l, (l < n)%nat -> v' l = k * v l) ->
  norm2 n v' = k * norm2 n v.
Proof.
  intros Hk Hv. unfold norm2.
  rewrite (rsum_ext n _ (fun l => k * k * (v l * v l)))
    by (intros l Hl; rewrite Hv by assumption; ring).
  rewrite rsum_scale, sqrt_mult by (try nra; apply rsum_nonneg; intros; nra).
  now rewrite sqrt_square.
Qed.

Lemma az_of_scale dim k v v' :
  0 < k -> (forall l, v' l = k * v l) -> az_of dim v' = az_of dim v.
Proof.
  intros Hk Hv. unfold az_of.
  rewrite (norm2_scale 2 k v v') by (try lra; intros; apply Hv).
  rewrite !Hv, !arctan2_scale by assumption. reflexivity.
Qed.

Lemma s_p_scale_tp d N B X k tp tp' i :
  (forall l, (l < N)%nat -> tp' l = k * tp l) ->
  s_p d N B X tp' i = k * s_p d N B X tp i.
Proof.
  intros Ht. unfold s_p, matvec. rewrite <- rsum_scale.
  apply rsum_ext. intros l Hl. rewrite Ht by assumption. ring.
Qed.

Lemma rss_scale_tp d N B X k tp tp' :
  (forall l, (l < N)%nat -> tp' l = k * tp l) ->
  rss d N B X tp' = k * k * rss d N B X tp.
Proof.
  intros Ht. unfold rss, dot, vecmat. rewrite <- rsum_scale.
  apply rsum_ext. intros l Hl. rewrite Ht by assumption.
  rewrite (rsum_ext N _
             (fun q => k * (tp q * msub eye
                (matmul d (matmul d X B) (transpose X)) q l)))
    by (intros q Hq; rewrite Ht by assumption; ring).
  rewrite rsum_scale. ring.
Qed.

(** X12: the sample rate only sets the time unit.  With the rate multiplied
    by [c > 0] the call returns the same [az], [cmax] and [xij], the
    slowness, the delays and [sig_tau] divided by [c], and [vel] multiplied
    by [c] (still [+inf] when it was). *)
Theorem rate_scaling data rij hz wgt g g' o c :
  0 < c ->
  wlsqva data rij hz wgt g = Return o ->
  exists o',
    wlsqva data rij (c * hz) wgt g' = Return o' /\
    s o' = map (fun x => x / c) (s o) /\
    tau o' = map (fun x => x / c) (tau o) /\
    az o' = az o /\ cmax o' = cmax o /\ xij o' = xij o /\
    (forall v, vel o = Fin v -> vel o' = Fin (c * v)) /\
    (vel o = PInf -> vel o' = PInf) /\
    exists x, sig_tau o = Fin x /\ sig_tau o' = Fin (x / c).
Proof.
  intros Hc H.
  pose proof (wlsqva_Return_shapes _ _ _ _ _ _ H) as Hsh.
  pose proof (wlsqva_Return_inv _ _ _ _ _ _ H) as I. cbv zeta in I.
  destruct I as (Ainv & E1 & Hdim & Hl & Hcnt & Hm & Hz & HB & Ho).
  set (n := shape1 rij) in *. set (dim := shape0 rij) in *.
  set (w := weights_of n wgt) in *. set (ix := idx n w) in *.
  set (m := shape0 data) in *.
  destruct (inv_Some _ _ _ HB) as [HD _].
  destruct (wlsqva_returns data rij (c * hz) wgt g) as (o' & H').
  - exact Hsh.
  - intros w' Hw'. subst wgt. unfold w, weights_of in Hl, Hcnt. auto.
  - assumption.
  - nra.
  - exact HD.
  - exists o'. rewrite (wlsqva_garbage data rij (c * hz) wgt g' g).
    split; [exact H'|].
    pose proof (wlsqva_Return_inv _ _ _ _ _ _ H') as I'. cbv zeta in I'.
    destruct I' as (Ainv' & _ & _ & _ & _ & _ & _ & HB' & Ho').
    fold n dim w ix m in HB', Ho'.
    rewrite HB in HB'. inversion HB'; subst Ainv'; clear HB'.
    set (cij := fill_cij data ix (W_mat ix) (length ix) g) in *.
    set (tp := tau_p ix (tau_vec m hz cij (m * 2 - 1))) in *.
    set (tp' := tau_p ix (tau_vec m (c * hz) cij (m * 2 - 1))) in *.
    assert (Ht : forall l, tp' l = / c * tp l).
    { intros l. unfold tp', tp, tau_p, matvec. rewrite <- rsum_scale.
      apply rsum_ext. intros q _. unfold tau_vec. field. lra. }
    assert (Hs : forall i,
               s_p dim (length ix) Ainv (X_p rij ix) tp' i
               = / c * s_p dim (length ix) Ainv (X_p rij ix) tp i).
    { intros i. apply s_p_scale_tp. intros; apply Ht. }
    assert (Hic : 0 < / c) by (apply Rinv_0_lt_compat; assumption).
    assert (Hn : norm2 dim (s_p dim (length ix) Ainv (X_p rij ix) tp')
                 = / c * norm2 dim (s_p dim (length ix) Ainv (X_p rij ix) tp)).
    { apply norm2_scale; [lra | intros; apply Hs]. }
    subst o o'. cbn [s tau az cmax xij vel sig_tau].
    repeat match goal with |- _ /\ _ => split end; try reflexivity.
    + unfold tabulate. rewrite map_map. apply map_ext. intros i.
      rewrite Hs. field. lra.
    + unfold tabulate. rewrite map_map. apply map_ext. intros l.
      rewrite Ht. field. lra.
    + apply (az_of_scale dim (/ c)); assumption.
    + intros v Hv. rewrite Hn. unfold xdiv in *.
      destruct (Req_dec_T (norm2 dim _) 0) as [E|E].
      * destruct (Req_dec_T 1 0); [lra|]. destruct (Rlt_dec 0 1); discriminate.
      * destruct (Req_dec_T (/ c * _) 0) as [E'|E']; [exfalso; nra|].
        inversion Hv. f_equal. field. split; lra.
    + intros Hv. rewrite Hn. unfold xdiv in *.
      destruct (Req_dec_T (norm2 dim _) 0) as [E|E]; [|discriminate].
      rewrite E, Rmult_0_r.
      destruct (Req_dec_T 0 0) as [_|C]; [exact Hv|contradiction].
    + unfold sig_tau_p.
      pose proof (N_p_minus_dim (count_nonzero w) dim Hdim Hcnt) as Hp.
      rewrite !xdiv_fin by lra. simpl. eexists. split; [reflexivity|].
      f_equal.
      rewrite (rss_scale_tp _ _ _ _ (/ c) tp tp') by (intros; apply Ht).
      replace (/ c * / c * rss dim (length ix) Ainv (X_p rij ix) tp
               / (N_p (count_nonzero w) - INR dim))
        with (/ c * / c * (rss dim (length ix) Ainv (X_p rij ix) tp
                           / (N_p (count_nonzero w) - INR dim)))
        by (field; lra).
      rewrite sqrt_abs_scale by lra. unfold Rdiv. ring.
Qed.

Lemma rate_scaling_witness :
  exists o',
    wlsqva data3 rij3 (20 * 1) None all_nan = Return o' /\
    s o' = map (fun x => x / 20) (s out3) /\
    tau o' = map (fun x => x / 20) (tau out3) /\
    az o' = az out3 /\ cmax o' = cmax out3 /\ xij o' = xij out3 /\
    (forall v, vel out3 = Fin v -> vel o' = Fin (20 * v)) /\
    (vel out3 = PInf -> vel o' = PInf) /\
    exists x, sig_tau out3 = Fin x /\ sig_tau o' = Fin (x / 20).
Proof.
  apply (rate_scaling data3 rij3 1 None all_nan all_nan out3 20).
  - lra.
  - apply wlsqva_data3.
Defined.

(** ** Traces with no sample or a single sample *)

(** X13: empty traces.  When [data] has no rows and the input passes
    validation, the call raises the [ValueError] of [np.empty] (the buffer
    would have [-1] rows), whatever the geometry and the rate: the error comes
    before the singular-matrix check. *)
Theorem empty_data_raises data rij hz wgt g :
  check_shapes data rij = None ->
  (forall w, wgt = Some w ->
     length w = shape1 rij /\ (shape0 rij + 1 <= count_nonzero w)%nat) ->
  shape0 data = O ->
  wlsqva data rij hz wgt g = Raise NegativeDimensions /\
  exception_class NegativeDimensions = ValueError /\
  validation_error NegativeDimensions = false.
Proof.
  intros Hs Hw Hm. split; [|split; reflexivity].
  unfold wlsqva. rewrite Hs.
  apply check_shapes_none in Hs. destruct Hs as (E1 & E2 & E3).
  unfold check_wgt. destruct wgt as [w|].
  - destruct (Hw w eq_refl) as [Hl Hc]. rewrite Hl, E1, Nat.eqb_refl. simpl.
    destruct (Nat.ltb_spec (count_nonzero w) (shape0 rij + 1)); [lia|].
    unfold estimate. now rewrite Hm.
  - unfold estimate. now rewrite Hm.
Qed.

Lemma empty_data_raises_witness :
  wlsqva (of_rows 0 3 []) rij3 1 None all_nan = Raise NegativeDimensions /\
  exception_class NegativeDimensions = ValueError /\
  validation_error NegativeDimensions = false.
Proof.
  apply (empty_data_raises (of_rows 0 3 []) rij3 1 None all_nan).
  - reflexivity.
  - intros w Hw. discriminate.
  - reflexivity.
Defined.

Lemma argmax_singleton x : argmax [x] = O.
Proof. unfold argmax. destruct (is_nan x); reflexivity. Qed.

Lemma xcorr_coeff_single a v :
  length a = 1%nat -> length v = 1%nat -> exists x, xcorr_coeff a v = [x].
Proof.
  intros Ha Hv. pose proof (xcorr_coeff_length a v) as Hl.
  rewrite Ha, Hv in Hl.
  destruct (xcorr_coeff a v) as [|x [|y l]]; simpl in Hl; try lia.
  now exists x.
Qed.

(** X14: single-sample traces.  With one sample per trace every delay is
    [(1 - 1)/hz = 0], so a returning call gives the zero slowness and
    [vel = +inf], with every returned delay 0. *)
Theorem single_sample data rij hz wgt g o :
  wlsqva data rij hz wgt g = Return o ->
  shape0 data = 1%nat ->
  s o = repeat 0 (shape0 rij) /\ vel o = PInf /\ sig_tau o = Fin 0 /\
  tau o = repeat 0 (length (tau o)).
Proof.
  intros H Hm.
  assert (Hpt : forall i j, pair_tau data hz i j = 0).
  { intros i j. unfold pair_tau.
    destruct (xcorr_coeff_single (column data i) (column data j))
      as (x & ->); try (rewrite column_length; assumption).
    rewrite argmax_singleton, Hm. simpl. unfold Rdiv. ring. }
  assert (Htau : forall k, nth k (tau o) 0 = 0).
  { intros k. pose proof H as H0.
    apply wlsqva_Return_inv in H0. cbv zeta in H0.
    destruct H0 as (Ainv & _ & _ & _ & _ & Hm0 & _ & _ & Ho).
    subst o. cbn [tau].
    set (ix := idx _ _).
    destruct (Nat.lt_ge_cases k (length ix)) as [Hk|Hk].
    - rewrite tabulate_nth by assumption. unfold tau_p.
      rewrite matvec_W by assumption.
      destruct (Req_dec_T (pair_w ix k) 0) as [E|E]; [rewrite E; ring|].
      rewrite tau_vec_weighted by assumption. rewrite Hpt. ring.
    - apply nth_overflow. now rewrite tabulate_length. }
  pose proof H as H0.
  apply wlsqva_Return_inv in H0. cbv zeta in H0.
  destruct H0 as (Ainv & _ & Hdim & _ & Hc & Hm0 & _ & HB & Ho).
  destruct (recovery_core data rij hz _ g Ainv (fun _ => 0) Hdim Hm0 HB)
    as [Hs Hr].
  { intros i j _ _ _. rewrite Hpt. symmetry. apply rsum_zero. intros; ring. }
  repeat match goal with |- _ /\ _ => split end.
  - subst o. cbn [s].
    transitivity (tabulate (shape0 rij) (fun _ : nat => 0));
      [apply tabulate_ext; exact Hs | apply tabulate_const].
  - subst o. cbn [vel]. unfold norm2.
    rewrite (rsum_zero (shape0 rij))
      by (intros r Hr'; rewrite Hs by assumption; ring).
    rewrite sqrt_0. unfold xdiv. rdec; try reflexivity.
  - subst o. cbn [sig_tau]. now apply sig_tau_p_zero.
  - clear Ho. generalize dependent (tau o). intros l Hl.
    induction l as [|x l IH]; [reflexivity|]. simpl. f_equal.
    + apply (Hl O).
    + apply IH. intros k. apply (Hl (S k)).
Qed.

Lemma single_sample_witness :
  exists o,
    wlsqva (of_rows 1 3 [[1; 2; 3]]) rij3 1 None all_nan = Return o /\
    s o = repeat 0 (shape0 rij3) /\ vel o = PInf /\ sig_tau o = Fin 0 /\
    tau o = repeat 0 (length (tau o)).
Proof.
  destruct (wlsqva_returns (of_rows 1 3 [[1; 2; 3]]) rij3 1 None all_nan)
    as (o & Ho).
  - reflexivity.
  - intros w Hw. discriminate.
  - discriminate.
  - lra.
  - unfold det, det2, normal_matrix, X_p, matmul, transpose, W_mat, diag,
      xij_mat, pair_w, pair_i, pair_j, rij3, of_rows, idx, weights_of, ones.
    simpl. lra.
  - exists o. split; [exact Ho|].
    apply (single_sample (of_rows 1 3 [[1; 2; 3]]) rij3 1 None all_nan o Ho).
    reflexivity.
Defined.

(** ** The number of weighted pairs *)

Lemma flat_map_map_in {A B C} (f : B -> list C) (g : A -> B) l :
  flat_map f (map g l) = flat_map (fun x => f (g x)) l.
Proof. induction l as [|x l IH]; simpl; [reflexivity|]. now rewrite IH. Qed.

Lemma map_flat_map_out {A B C} (f : A -> list B) (g : B -> C) l :
  map g (flat_map f l) = flat_map (fun x => map g (f x)) l.
Proof.
  induction l as [|x l IH]; simpl; [reflexivity|].
  now rewrite map_app, IH.
Qed.

(** The pairs of a list with one more sensor in front: the pairs of the new
    sensor with every other, then the old pairs with their indices moved up. *)
Lemma idx_cons n x w :
  idx (S n) (x :: w)
  = map (fun j => (O, S j, x * nth j w 0)) (seq 0 n)
    ++ map (fun p => (S (fst (fst p)), S (snd (fst p)), snd p)) (idx n w).
Proof.
  unfold idx. replace (S n - 1)%nat with n by lia.
  destruct n as [|n]; [reflexivity|].
  replace (S n - 1)%nat with n by lia.
  change (seq 0 (S n)) with (O :: seq 1 n) at 1.
  cbn [flat_map]. f_equal.
  - change (S (S n) - (0 + 1))%nat with (S n). change (0 + 1)%nat with 1%nat.
    rewrite <- seq_shift, map_map. apply map_ext. intros j. reflexivity.
  - rewrite <- seq_shift, flat_map_map_in, map_flat_map_out.
    apply flat_map_ext. intros i.
    replace (S (S n) - (S i + 1))%nat with (S n - (i + 1))%nat by lia.
    change (S i + 1)%nat with (S (i + 1)).
    rewrite <- seq_shift, !map_map. apply map_ext. intros j. reflexivity.
Qed.

Lemma filter_map_length {A B} (P : B -> bool) (f : A -> B) l :
  length (filter P (map f l)) = length (filter (fun x => P (f x)) l).
Proof.
  induction l as [|x l IH]; simpl; [reflexivity|].
  destruct (P (f x)); simpl; now rewrite IH.
Qed.

Lemma nonzero_mult x y : nonzero (x * y) = nonzero x && nonzero y.
Proof.
  unfold nonzero.
  destruct (Req_dec_T x 0) as [Ex|Ex], (Req_dec_T y 0) as [Ey|Ey],
    (Req_dec_T (x * y) 0) as [E|E]; try reflexivity; exfalso;
    try (apply E; subst; ring).
  apply Rmult_integral in E. tauto.
Qed.

Lemma first_row_count x w :
  length (filter (fun p : nat * nat * R => nonzero (snd p))
            (map (fun j => (O, S j, x * nth j w 0)) (seq 0 (length w))))
  = if nonzero x then count_nonzero w else O.
Proof.
  rewrite filter_map_length. cbn [snd].
  rewrite <- (filter_map_length (fun y => nonzero (x * y))
                (fun j => nth j w 0) (seq 0 (length w))).
  rewrite map_nth_seq_id. unfold count_nonzero.
  destruct (nonzero x) eqn:E.
  - f_equal. apply filter_ext. intros y. rewrite nonzero_mult, E. reflexivity.
  - rewrite (filter_ext _ (fun _ => false))
      by (intros y; rewrite nonzero_mult, E; reflexivity).
    induction w as [|y w IH]; [reflexivity|exact IH].
Qed.

Lemma weighted_pairs_count w :
  (2 * length (weighted_pairs (length w) w)
   = count_nonzero w * (count_nonzero w - 1))%nat.
Proof.
  unfold weighted_pairs. induction w as [|x w IH]; [reflexivity|].
  cbn [length]. rewrite idx_cons, filter_app, length_app, first_row_count.
  rewrite filter_map_length. cbn [snd].
  unfold count_nonzero in *. cbn [filter].
  destruct (nonzero x); cbn [length]; nia.
Qed.

(** X15: the pair count [N_p = N_w*(N_w-1)/2] used for [sig_tau] is the
    number of pairs the loop correlates, those with nonzero pair weight
    [W[k][k]]. *)
Theorem N_p_counts_weighted_pairs data rij hz wgt g o :
  wlsqva data rij hz wgt g = Return o ->
  let n := shape1 rij in
  let w := weights_of n wgt in
  N_p (count_nonzero w) = INR (length (weighted_pairs n w)) /\
  (length (weighted_pairs n w) <= length (tau o))%nat.
Proof.
  intros H n w. apply wlsqva_Return_inv in H. cbv zeta in H.
  destruct H as (Ainv & _ & _ & Hl & Hc & _ & _ & _ & Ho).
  fold n w in Hl, Hc, Ho. split.
  - pose proof (weighted_pairs_count w) as E. rewrite Hl in E.
    apply (f_equal INR) in E. rewrite !mult_INR, minus_INR in E by lia.
    simpl in E. unfold N_p. lra.
  - subst o. cbn [tau]. rewrite tabulate_length. unfold weighted_pairs.
    apply filter_length_le.
Qed.

Lemma wlsqva_data4_returns g :
  exists o, wlsqva data4 rij4 20 (Some wgt4) g = Return o.
Proof.
  apply wlsqva_returns.
  - reflexivity.
  - intros w Hw. inversion Hw; subst. split; [reflexivity|].
    unfold count_nonzero, wgt4, nonzero. simpl. rdec. simpl. lia.
  - discriminate.
  - lra.
  - unfold det, det2, normal_matrix, X_p, matmul, transpose, W_mat, diag,
      xij_mat, pair_w, pair_i, pair_j, rij4, of_rows, idx, weights_of, wgt4.
    simpl. lra.
Qed.

Lemma N_p_counts_weighted_pairs_witness :
  exists o,
    wlsqva data4 rij4 20 (Some wgt4) all_nan = Return o /\
    N_p (count_nonzero (weights_of (shape1 rij4) (Some wgt4)))
    = INR (length (weighted_pairs (shape1 rij4)
                     (weights_of (shape1 rij4) (Some wgt4)))) /\
    (length (weighted_pairs (shape1 rij4)
               (weights_of (shape1 rij4) (Some wgt4)))
     <= length (tau o))%nat.
Proof.
  destruct (wlsqva_data4_returns all_nan) as (o & Ho).
  exists o. split; [exact Ho|].
  exact (N_p_counts_weighted_pairs data4 rij4 20 (Some wgt4) all_nan o Ho).
Defined.

(** ** Identical traces *)

Lemma coeffs_zero_lag a :
  energy a <> 0 -> nth (length a - 1) (coeffs a a) 0 = 1.
Proof.
  intros He.
  assert (Ha : a <> []) by (intros ->; apply He; reflexivity).
  assert (0 < length a)%nat by (destruct a; simpl; [congruence|lia]).
  pose proof (energy_nonneg a).
  unfold coeffs.
  rewrite (nth_indep _ 0 ((fun c => c / sqrt (energy a * energy a)) 0))
    by (rewrite length_map; unfold correlate_full;
        rewrite tabulate_length; lia).
  rewrite (map_nth (fun c => c / sqrt (energy a * energy a))).
  rewrite correlate_zero_lag by assumption.
  rewrite sqrt_square by assumption. now field.
Qed.

(** X16: the docstring's normalisation.  At a pair that carries weight and
    whose two traces are the same trace of nonzero energy, [cmax] is exactly
    1: the zero-lag value is 1 and no lag exceeds it. *)
Theorem cmax_identical_traces data rij hz wgt g o i j :
  wlsqva data rij hz wgt g = Return o ->
  let n := shape1 rij in
  let w := weights_of n wgt in
  (i < j)%nat -> (j < n)%nat -> nth i w 0 * nth j w 0 <> 0 ->
  column data j = column data i ->
  energy (column data i) <> 0 ->
  nth (pair_pos n i j) (cmax o) NaN = Fin 1.
Proof.
  intros H n w Hij Hj Hw Hsame He.
  apply wlsqva_Return_inv in H. cbv zeta in H.
  destruct H as (Ainv & _ & _ & _ & _ & Hm & _ & _ & Ho).
  fold n w in Ho. subst o. cbn [cmax].
  set (a := column data i) in *.
  set (c := coeffs a a).
  assert (Hlen : length c = (shape0 data * 2 - 1)%nat).
  { unfold c, a. rewrite coeffs_length, !column_length. lia. }
  assert (Hne : c <> []).
  { intros E. rewrite E in Hlen. simpl in Hlen. lia. }
  destruct (argmax_first c Hne) as (_ & Hmax & Hall & _).
  destruct (idx_pos_fields n w i j Hij Hj) as (Hk & Hi & Hj' & Hpw).
  rewrite cmax_vec_eq, tabulate_nth by assumption.
  rewrite W_mat_diag, Hpw.
  destruct (is_zero _) eqn:E; [apply is_zero_true in E; contradiction|].
  rewrite xcolumn_weighted by (rewrite ?Hpw; assumption).
  rewrite Hi, Hj', Hsame. fold a.
  rewrite xcorr_coeff_coeffs by assumption. fold c. rewrite Hmax. f_equal.
  assert (Hz : nth (length a - 1) c 0 = 1) by (now apply coeffs_zero_lag).
  assert (Hle : nth (length a - 1) c 0 <= nth (argmax (map Fin c)) c 0).
  { apply Hall. rewrite Hlen. unfold a. rewrite column_length. lia. }
  pose proof (coeffs_bound a a (argmax (map Fin c)) He He) as Hb.
  fold c in Hb. lra.
Qed.

Lemma cmax_identical_traces_witness :
  nth (pair_pos (shape1 rij3) 0 2) (cmax out3) NaN = Fin 1.
Proof.
  apply (cmax_identical_traces data3 rij3 1 None all_nan out3 0 2
           (wlsqva_data3 all_nan)).
  - lia.
  - simpl. lia.
  - simpl. lra.
  - reflexivity.
  - unfold energy, py_sum, vmul, column, data3, of_rows. simpl. lra.
Defined.

(** ** From velocity and angles back to the slowness *)

Lemma cos_minus_PI x : cos (x - PI) = - cos x.
Proof.
  pose proof (neg_cos (x - PI)) as H.
  replace (x - PI + PI) with x in H by ring. lra.
Qed.

Lemma sin_minus_PI x : sin (x - PI) = - sin x.
Proof.
  pose proof (neg_sin (x - PI)) as H.
  replace (x - PI + PI) with x in H by ring. lra.
Qed.

Lemma cos_plus_2PI x : cos (x + 2 * PI) = cos x.
Proof.
  replace (x + 2 * PI) with (x + PI + PI) by ring.
  rewrite !neg_cos. ring.
Qed.

Lemma sin_plus_2PI x : sin (x + 2 * PI) = sin x.
Proof.
  replace (x + 2 * PI) with (x + PI + PI) by ring.
  rewrite !neg_sin. ring.
Qed.

Lemma hypot_factor x y :
  x <> 0 ->
  sqrt (x * x + y * y) = Rabs x * sqrt (1 + (y / x)²) /\
  0 < sqrt (1 + (y / x)²).
Proof.
  intros Hx.
  assert (Hp : 0 < 1 + (y / x)²) by (pose proof (Rle_0_sqr (y / x)); lra).
  split; [|now apply sqrt_lt_R0].
  replace (x * x + y * y) with (x * x * (1 + (y / x)²))
    by (unfold Rsqr; field; assumption).
  rewrite sqrt_mult by (try lra; apply (Rle_0_sqr x)).
  f_equal. apply (sqrt_Rsqr_abs x).
Qed.

(** [np.arctan2(y, x)] is the polar angle of the point [(x, y)]. *)
Lemma arctan2_polar y x :
  sqrt (x * x + y * y) * cos (arctan2 y x) = x /\
  sqrt (x * x + y * y) * sin (arctan2 y x) = y.
Proof.
  unfold arctan2.
  destruct (Rlt_dec 0 x) as [Hx|Hx].
  - destruct (hypot_factor x y ltac:(lra)) as [-> HS].
    rewrite cos_atan, sin_atan, Rabs_pos_eq by lra.
    split; field; lra.
  - destruct (Rlt_dec x 0) as [Hx'|Hx'].
    + destruct (hypot_factor x y ltac:(lra)) as [-> HS].
      rewrite Rabs_left by assumption.
      destruct (Rle_dec 0 y).
      * rewrite neg_cos, neg_sin, cos_atan, sin_atan. split; field; lra.
      * rewrite cos_minus_PI, sin_minus_PI, cos_atan, sin_atan.
        split; field; lra.
    + assert (x = 0) by lra. subst x.
      replace (0 * 0 + y * y) with (y * y) by ring.
      destruct (Rlt_dec 0 y) as [Hy|Hy].
      * rewrite sqrt_square, cos_PI2, sin_PI2 by lra. split; ring.
      * destruct (Rlt_dec y 0) as [Hy'|Hy'].
        -- replace (y * y) with (- y * - y) by ring.
           rewrite sqrt_square by lra.
           replace (- PI / 2) with (- (PI / 2)) by (unfold Rdiv; ring).
           rewrite cos_neg, sin_neg, cos_PI2, sin_PI2. split; ring.
        -- assert (y = 0) by lra. subst y.
           rewrite Rmult_0_l, sqrt_0. split; ring.
Qed.

Lemma arctan2_bound y x : - PI < arctan2 y x <= PI.
Proof.
  pose proof PI_RGT_0 as Hpi. unfold arctan2.
  pose proof (atan_bound (y / x)) as Hb.
  destruct (Rlt_dec 0 x); [lra|].
  destruct (Rlt_dec x 0) as [Hx|Hx].
  - destruct (Rle_dec 0 y) as [Hy|Hy].
    + assert (y / x <= 0).
      { unfold Rdiv. assert (/ x < 0) by now apply Rinv_lt_0_compat. nra. }
      assert (atan (y / x) <= 0).
      { destruct (Req_dec_T (y / x) 0) as [E|E].
        - rewrite E, atan_0. lra.
        - pose proof (atan_increasing (y / x) 0 ltac:(lra)) as Hi.
          rewrite atan_0 in Hi. lra. }
      lra.
    + assert (0 < y / x).
      { unfold Rdiv. assert (/ x < 0) by now apply Rinv_lt_0_compat. nra. }
      pose proof (atan_increasing 0 (y / x) ltac:(lra)) as Hi.
      rewrite atan_0 in Hi. lra.
  - destruct (Rlt_dec 0 y); [lra|]. destruct (Rlt_dec y 0); lra.
Qed.

(** The azimuth in degrees, back in radians, is the polar angle up to a
    full turn. *)
Lemma azimuth_radians y x :
  let a := py_mod (arctan2 y x * 180 / PI - 360) 360 in
  cos (a * PI / 180) = cos (arctan2 y x) /\
  sin (a * PI / 180) = sin (arctan2 y x).
Proof.
  intros a. pose proof PI_RGT_0 as Hpi.
  pose proof (arctan2_bound y x) as [H1 H2].
  set (th := arctan2 y x) in *.
  assert (Hd1 : -180 < th * 180 / PI).
  { replace (-180) with (- PI * 180 / PI) by (field; lra).
    unfold Rdiv. apply Rmult_lt_compat_r; [apply Rinv_0_lt_compat; lra|nra]. }
  assert (Hd2 : th * 180 / PI <= 180).
  { replace 180 with (PI * 180 / PI) at 2 by (field; lra).
    unfold Rdiv. apply Rmult_le_compat_r;
      [left; apply Rinv_0_lt_compat; lra|nra]. }
  destruct (Rle_dec 0 (th * 180 / PI)) as [Hpos|Hneg].
  - assert (Ea : a = th * 180 / PI).
    { unfold a. rewrite (py_mod_in _ _ (-1)); lra. }
    rewrite Ea. replace (th * 180 / PI * PI / 180) with th by (field; lra).
    split; reflexivity.
  - assert (Ea : a = th * 180 / PI + 360).
    { unfold a. rewrite (py_mod_in _ _ (-2)); lra. }
    rewrite Ea.
    replace ((th * 180 / PI + 360) * PI / 180) with (th + 2 * PI)
      by (field; lra).
    now rewrite cos_plus_2PI, sin_plus_2PI.
Qed.

(** X17: the returned velocity and angles determine the returned slowness.
    With [A] the azimuth and [P] the elevation in radians, a 2-D call has
    [s = (sin A, cos A)/vel] and a 3-D call
    [s = (cos P sin A, cos P cos A, sin P)/vel], whenever [vel] is finite. *)
Theorem slowness_from_vel_az data rij hz wgt g o v :
  wlsqva data rij hz wgt g = Return o ->
  vel o = Fin v ->
  (shape0 rij = 2%nat ->
   exists a, az o = AzScalar a /\
     s o = [sin (a * PI / 180) / v; cos (a * PI / 180) / v]) /\
  (shape0 rij = 3%nat ->
   exists a phi, az o = AzElev a phi /\
     s o = [cos (phi * PI / 180) * sin (a * PI / 180) / v;
            cos (phi * PI / 180) * cos (a * PI / 180) / v;
            sin (phi * PI / 180) / v]).
Proof.
  intros H Hv. pose proof PI_RGT_0 as Hpi.
  apply wlsqva_Return_inv in H. cbv zeta in H.
  destruct H as (Ainv & _ & _ & _ & _ & _ & _ & _ & Ho).
  subst o. cbn [vel az s] in *.
  set (sp := s_p _ _ _ _ _) in *.
  unfold xdiv in Hv.
  destruct (Req_dec_T (norm2 (shape0 rij) sp) 0) as [E|HN].
  { destruct (Req_dec_T 1 0); [lra|]. destruct (Rlt_dec 0 1); discriminate. }
  inversion Hv as [Ev]. clear Hv.
  assert (Hinv : forall z, z / (1 / norm2 (shape0 rij) sp)
                           = norm2 (shape0 rij) sp * z)
    by (intros; field; assumption).
  split; intros Hd; rewrite Hd in *; unfold az_of; simpl.
  - eexists. split; [reflexivity|].
    destruct (azimuth_radians (sp 0%nat) (sp 1%nat)) as [Hc Hs].
    cbv zeta in Hc, Hs. rewrite Hc, Hs, !Hinv.
    destruct (arctan2_polar (sp 0%nat) (sp 1%nat)) as [Px Py].
    unfold norm2. simpl.
    replace (0 + sp 0%nat * sp 0%nat + sp 1%nat * sp 1%nat)
      with (sp 1%nat * sp 1%nat + sp 0%nat * sp 0%nat) by ring.
    unfold tabulate. simpl. now rewrite Px, Py.
  - eexists. eexists. split; [reflexivity|].
    destruct (azimuth_radians (sp 0%nat) (sp 1%nat)) as [Hc Hs].
    cbv zeta in Hc, Hs. rewrite Hc, Hs, !Hinv.
    set (h := norm2 2 sp).
    replace (arctan2 (sp 2%nat) h * 180 / PI * PI / 180)
      with (arctan2 (sp 2%nat) h) by (field; lra).
    destruct (arctan2_polar (sp 0%nat) (sp 1%nat)) as [Px Py].
    destruct (arctan2_polar (sp 2%nat) h) as [Qx Qy].
    assert (Eh : h = sqrt (sp 1%nat * sp 1%nat + sp 0%nat * sp 0%nat)).
    { unfold h, norm2. simpl. f_equal. ring. }
    assert (Eh2 : h * h = sp 1%nat * sp 1%nat + sp 0%nat * sp 0%nat).
    { rewrite Eh. apply sqrt_sqrt.
      pose proof (Rle_0_sqr (sp 1%nat)). pose proof (Rle_0_sqr (sp 0%nat)).
      unfold Rsqr in *. lra. }
    assert (EN : norm2 3 sp = sqrt (h * h + sp 2%nat * sp 2%nat)).
    { unfold norm2. simpl. f_equal. rewrite Eh2. ring. }
    rewrite EN. rewrite <- Eh in Px, Py.
    unfold tabulate. simpl.
    set (N := sqrt (h * h + sp 2%nat * sp 2%nat)) in *.
    set (cp := cos (arctan2 (sp 2%nat) h)) in *.
    set (ca := cos (arctan2 (sp 0%nat) (sp 1%nat))) in *.
    set (sa := sin (arctan2 (sp 0%nat) (sp 1%nat))) in *.
    f_equal; [|f_equal; [|f_equal]].
    + replace (N * (cp * sa)) with (N * cp * sa) by ring.
      now rewrite Qx, Py.
    + replace (N * (cp * ca)) with (N * cp * ca) by ring.
      now rewrite Qx, Px.
    + now rewrite Qy.
Qed.

Lemma slowness_from_vel_az_witness :
  (shape0 rij3 = 2%nat ->
   exists a, az out3 = AzScalar a /\
     s out3 = [sin (a * PI / 180) / 1; cos (a * PI / 180) / 1]) /\
  (shape0 rij3 = 3%nat ->
   exists a phi, az out3 = AzElev a phi /\
     s out3 = [cos (phi * PI / 180) * sin (a * PI / 180) / 1;
               cos (phi * PI / 180) * cos (a * PI / 180) / 1;
               sin (phi * PI / 180) / 1]).
Proof.
  apply (slowness_from_vel_az data3 rij3 1 None all_nan out3 1).
  - apply wlsqva_data3.
  - reflexivity.
Defined.
